(** * MarkFlow: the bookmark library, its Netscape codec and its reconciler

    A shallow embedding of the library core of MarkFlow
    ([utils/bookmarkParser.ts], the [App] component's [applySuggestion] and
    [handleCommand], and the auto-sort listener of [background/index.ts]),
    followed by the properties its specification states about it.

    JavaScript strings are modelled as [string]; an optional field
    ([addDate?: string]) is an [option]; a [Map] is a [gmap]; an object
    used as a dictionary is the [gmap] of its own properties, looked up
    through [Object.prototype]; arrays are lists. *)

From Stdlib Require Import Ascii String List Arith Bool Lia.
From stdpp Require Import base option list gmap strings.

(** ** JavaScript strings *)

(** A string is truthy when it is not empty. *)
Definition truthy (s : string) : bool :=
  match s with
  | EmptyString => false
  | String _ _ => true
  end.

(** [opt || undefined] and [opt ? .. : ..] on an optional string: the value
    counts when it is present and not empty. *)
Definition truthy_opt (o : option string) : bool :=
  match o with
  | Some s => truthy s
  | None => false
  end.

(** [s.split(sep)] for a one-character separator: never empty. *)
Fixpoint split (sep : ascii) (s : string) : list string :=
  match s with
  | EmptyString => [EmptyString]
  | String c rest =>
      if Ascii.eqb c sep then EmptyString :: split sep rest
      else match split sep rest with
           | [] => [String c EmptyString]
           | w :: ws => String c w :: ws
           end
  end.

(** [parts.join(sep)]. *)
Fixpoint join (sep : string) (parts : list string) : string :=
  match parts with
  | [] => EmptyString
  | [p] => p
  | p :: rest => p +:+ sep +:+ join sep rest
  end.

(** [' '.repeat(n)]. *)
Fixpoint repeat_string (s : string) (n : nat) : string :=
  match n with
  | O => EmptyString
  | S k => s +:+ repeat_string s k
  end.

(** [arr.findIndex(p)]: the first index whose element satisfies [p];
    [None] stands for the source's [-1]. *)
Fixpoint findIndex {A} (p : A -> bool) (l : list A) : option nat :=
  match l with
  | [] => None
  | x :: rest => if p x then Some 0 else S <$> findIndex p rest
  end.

(** ** Data model ([utils/bookmarkParser.ts]) *)

Module Bookmark.
Record t := mk {
  id : string;
  title : string;
  url : string;
  addDate : option string;
  icon : option string;
  tags : option (list string);
  folder : option string
}.

(** [{ ...b, folder: f }] *)
Definition with_folder (b : t) (f : option string) : t :=
  mk (id b) (title b) (url b) (addDate b) (icon b) (tags b) f.
End Bookmark.

Module Folder.
Record t := mk {
  id : string;
  name : string;
  parentId : option string
}.
End Folder.

Record BookmarkLibrary := mkLibrary {
  bookmarks : list Bookmark.t;
  folders : list Folder.t
}.

#[global] Instance bookmark_eq_dec : EqDecision Bookmark.t.
Proof. solve_decision. Defined.

#[global] Instance folder_eq_dec : EqDecision Folder.t.
Proof. solve_decision. Defined.

#[global] Instance library_eq_dec : EqDecision BookmarkLibrary.
Proof. solve_decision. Defined.

(** ** Identifier generation

    [Math.random().toString(36).substr(2, 9)] is an oracle: the state of the
    generator is the sequence of identifiers its future calls return.
    Nothing is assumed of them (they may repeat, and may be empty). *)
Definition Rand := nat -> string.

Definition randomId (r : Rand) : string * Rand :=
  (r 0, fun n => r (S n)).

(** ** The suggestion service's proposal ([services/gemini.ts]) *)

Module Suggestion.
Record FolderEntry := mkFolder {
  path : string;
  description : string
}.

Record Assignment := mkAssignment {
  bookmarkId : string;
  folderPath : string
}.

Record t := mk {
  folders : list FolderEntry;
  assignments : list Assignment;
  reasoning : string
}.
End Suggestion.

(** ** Full-proposal application ([applySuggestion])

    The state of the first loop: the folders pushed so far, the path map
    and the generator. *)
Record Resolver := mkResolver {
  newFolders : list Folder.t;
  pathMap : gmap string string;
  rand : Rand
}.

(** The body of [parts.forEach(part => ..)], with the two locals
    [currentParentId] and [currentPath] of the enclosing callback. *)
Definition forEachPart (st : Resolver * option string * string) (part : string)
  : Resolver * option string * string :=
  let '(rs, currentParentId, currentPath0) := st in
  let currentPath :=
    if truthy currentPath0 then currentPath0 +:+ "/" +:+ part else part in
  let rs' :=
    match pathMap rs !! currentPath with
    | Some _ => rs
    | None =>
        let '(folderId, r) := randomId (rand rs) in
        {| newFolders := newFolders rs ++ [Folder.mk folderId part currentParentId];
           pathMap := <[currentPath := folderId]> (pathMap rs);
           rand := r |}
    end in
  (rs', pathMap rs' !! currentPath, currentPath).

(** The body of [suggestion.folders.forEach(f => ..)]. *)
Definition forEachFolder (rs : Resolver) (f : Suggestion.FolderEntry) : Resolver :=
  (fold_left forEachPart (split "/" (Suggestion.path f)) (rs, None, EmptyString)).1.1.

Definition resolveFolders (r : Rand) (fs : list Suggestion.FolderEntry) : Resolver :=
  fold_left forEachFolder fs {| newFolders := []; pathMap := ∅; rand := r |}.

(** The body of [suggestion.assignments.forEach(a => ..)]. *)
Definition forEachAssignment (pm : gmap string string)
    (updatedBookmarks : list Bookmark.t) (a : Suggestion.Assignment)
  : list Bookmark.t :=
  match pm !! Suggestion.folderPath a with
  | Some folderId =>
      if truthy folderId then
        match findIndex (fun b => String.eqb (Bookmark.id b) (Suggestion.bookmarkId a))
                        updatedBookmarks with
        | Some index =>
            match updatedBookmarks !! index with
            | Some b => <[index := Bookmark.with_folder b (Some folderId)]> updatedBookmarks
            | None => updatedBookmarks
            end
        | None => updatedBookmarks
        end
      else updatedBookmarks
  | None => updatedBookmarks
  end.

(** [applySuggestion]: the new value of the [library] state. Both states are
    nullable; the function returns at once when either is null. *)
Definition applySuggestion (r : Rand) (suggestion : option Suggestion.t)
    (library : option BookmarkLibrary) : option BookmarkLibrary :=
  match suggestion, library with
  | Some suggestion, Some library =>
      let rs := resolveFolders r (Suggestion.folders suggestion) in
      let updatedBookmarks :=
        fold_left (forEachAssignment (pathMap rs))
                  (Suggestion.assignments suggestion) (bookmarks library) in
      Some {| bookmarks := updatedBookmarks; folders := newFolders rs |}
  | _, _ => library
  end.

(** *** The vocabulary of the specification for [applySuggestion]

    An assignment covers a bookmark when it names the bookmark's identifier
    and its folder path is a key of the path map. *)
Definition covers (pm : gmap string string) (a : Suggestion.Assignment)
    (b : Bookmark.t) : Prop :=
  Suggestion.bookmarkId a = Bookmark.id b ∧ is_Some (pm !! Suggestion.folderPath a).

(** The accumulated prefixes of a segment list, shortest first: for
    [A; B; C] they are [A], [A; B] and [A; B; C]. *)
Fixpoint prefixes (parts : list string) : list (list string) :=
  match parts with
  | [] => []
  | x :: rest => [x] :: ((x ::.) <$> prefixes rest)
  end.

(** The path a prefix stands for: its segments joined by slashes. *)
Definition pathKey (p : list string) : string := join "/" p.

(** Every accumulated prefix of every proposed path, in processing order. *)
Definition allPrefixes (fs : list Suggestion.FolderEntry) : list (list string) :=
  fs ≫= (λ f, prefixes (split "/" (Suggestion.path f))).

(** The first segment of the path is not empty: the path is neither empty
    nor starts with a slash. *)
Definition leadingSegment (f : Suggestion.FolderEntry) : Prop :=
  head (split "/" (Suggestion.path f)) ≠ Some EmptyString.

(** The folder an assignment sends its bookmark to: the identifier its
    path has in the path map, when it has one that is not empty. *)
Definition assignedFolder (pm : gmap string string) (a : Suggestion.Assignment)
  : option string :=
  match pm !! Suggestion.folderPath a with
  | Some folderId => if truthy folderId then Some folderId else None
  | None => None
  end.

(** The folder the assignments [asg] send the identifier [id] to: that of
    the last one that names [id] and resolves. *)
Fixpoint lastAssigned (pm : gmap string string) (asg : list Suggestion.Assignment)
    (id : string) : option string :=
  match asg with
  | [] => None
  | a :: rest =>
      match lastAssigned pm rest id with
      | Some folderId => Some folderId
      | None =>
          if String.eqb id (Suggestion.bookmarkId a) then assignedFolder pm a else None
      end
  end.

(** No bookmark before the position [i] bears the identifier [id]: the
    one at [i] is the one [findIndex] stops at. *)
Definition firstWithId (bms : list Bookmark.t) (i : nat) (id : string) : bool :=
  negb (existsb (λ b, String.eqb (Bookmark.id b) id) (take i bms)).

(** The bookmark [b], at the position [i] of [bms], once the assignments
    are applied. *)
Definition placed (pm : gmap string string) (asg : list Suggestion.Assignment)
    (bms : list Bookmark.t) (i : nat) (b : Bookmark.t) : Bookmark.t :=
  if firstWithId bms i (Bookmark.id b) then
    match lastAssigned pm asg (Bookmark.id b) with
    | Some folderId => Bookmark.with_folder b (Some folderId)
    | None => b
    end
  else b.

(** *** Vocabulary of the resolver's proofs *)

(** The character [c] occurs in [s]. *)
Fixpoint occurs (c : ascii) (s : string) : bool :=
  match s with
  | EmptyString => false
  | String x rest => Ascii.eqb x c || occurs c rest
  end.

(** A well-formed prefix: no slash inside a segment, and a leading segment
    that is not empty. *)
Definition okPrefix (p : list string) : Prop :=
  Forall (λ w, occurs "/" w = false) p ∧ ∃ x, head p = Some x ∧ truthy x = true.

(** What the resolver has built once it has created the folders of the
    prefixes [ks], in this order, drawing the identifiers [r 0], [r 1], ... *)
Record ResolverInv (r : Rand) (ks : list (list string)) (rs : Resolver) : Prop := {
  inv_nodup : NoDup (pathKey <$> ks);
  inv_ok : Forall okPrefix ks;
  inv_length : length (newFolders rs) = length ks;
  inv_rand : ∀ n, rand rs n = r (length ks + n);
  inv_dom : ∀ κ, is_Some (pathMap rs !! κ) ↔ κ ∈ pathKey <$> ks;
  inv_folder : ∀ i p, ks !! i = Some p ->
    pathMap rs !! pathKey p = Some (r i) ∧
    ∃ q seg par, p = q ++ [seg] ∧
      newFolders rs !! i = Some (Folder.mk (r i) seg par) ∧
      ((q = [] ∧ par = None) ∨ (∃ j, j < i ∧ ks !! j = Some q ∧ par = Some (r j)))
}.

(** The two locals of the inner loop after the segments [done]. *)
Definition locals (r : Rand) (ks : list (list string)) (done : list string)
    (currentParentId : option string) (currentPath : string) : Prop :=
  (done = [] ∧ currentPath = "" ∧ currentParentId = None) ∨
  (done ≠ [] ∧ currentPath = pathKey done ∧
     ∃ j, ks !! j = Some done ∧ currentParentId = Some (r j)).

(** ** Incremental actions in the application ([handleCommand])

    The command service reports each tool call of the model as an action
    [{ type, payload }] ([processCommand] builds none but these two). *)
Inductive Action :=
| CREATE_FOLDER (name : string) (parentId : option string)
| MOVE_BOOKMARKS (bookmarkIds : list string) (targetFolderId : string).

(** [bookmarkIds.includes(id)] *)
Definition includes (ids : list string) (id : string) : bool :=
  existsb (String.eqb id) ids.

(** The state update [setLibrary(prev => ..)] that [handleCommand] performs
    for one action (the log lines it also appends are left out). *)
Definition handleCommand (r : Rand) (prev : option BookmarkLibrary) (action : Action)
  : option BookmarkLibrary * Rand :=
  match prev with
  | None => (None, r)
  | Some prev =>
      match action with
      | MOVE_BOOKMARKS bookmarkIds targetFolderId =>
          (Some {| bookmarks :=
                     map (λ b, if includes bookmarkIds (Bookmark.id b)
                               then Bookmark.with_folder b (Some targetFolderId)
                               else b) (bookmarks prev);
                   folders := folders prev |}, r)
      | CREATE_FOLDER name parentId =>
          let '(id, r') := randomId r in
          (Some {| bookmarks := bookmarks prev;
                   folders := folders prev ++ [Folder.mk id name parentId] |}, r')
      end
  end.

(** ** The same operations on a store of objects

    [applySuggestion] and [handleCommand] build their result from the
    objects of the library they are given: arrays are copied, bookmark
    objects are shared, and the fresh copies are updated in place. The
    store makes this sharing explicit. A location is an index in the store,
    and allocation appends. *)
Module Store.

Definition loc := nat.

Inductive Obj :=
| OBookmark (b : Bookmark.t)
| OFolder (f : Folder.t)
| OArray (elems : list loc)
| OLibrary (bookmarks folders : loc).

(** The mutable world of a run: the objects and the identifier generator. *)
Record World := mkWorld {
  heap : list Obj;
  random : Rand
}.

(** A computation reads and updates the world; [None] is a failed access
    (a location that holds no object of the expected kind). *)
Definition M (A : Type) : Type := World -> option (A * World).

Definition ret {A} (a : A) : M A := λ w, Some (a, w).

Definition bind {A B} (m : M A) (k : A -> M B) : M B :=
  λ w, match m w with
       | Some (a, w') => k a w'
       | None => None
       end.

Notation "'let*' x ':=' m 'in' k" := (bind m (λ x, k))
  (at level 10, x binder, k at level 200).

Definition fail {A} : M A := λ _, None.

Definition alloc (o : Obj) : M loc :=
  λ w, Some (length (heap w), mkWorld (heap w ++ [o]) (random w)).

Definition load (l : loc) : M Obj :=
  λ w, match heap w !! l with
       | Some o => Some (o, w)
       | None => None
       end.

Definition store (l : loc) (o : Obj) : M unit :=
  λ w, match heap w !! l with
       | Some _ => Some (tt, mkWorld (<[l := o]> (heap w)) (random w))
       | None => None
       end.

Definition loadArray (l : loc) : M (list loc) :=
  let* o := load l in
  match o with OArray elems => ret elems | _ => fail end.

Definition loadBookmark (l : loc) : M Bookmark.t :=
  let* o := load l in
  match o with OBookmark b => ret b | _ => fail end.

Definition loadLibrary (l : loc) : M (loc * loc) :=
  let* o := load l in
  match o with OLibrary bs fs => ret (bs, fs) | _ => fail end.

(** [Math.random().toString(36).substr(2, 9)] *)
Definition freshId : M string :=
  λ w, let '(id, r) := randomId (random w) in Some (id, mkWorld (heap w) r).

(** [arr.push(x)] *)
Definition push (arr : loc) (x : loc) : M unit :=
  let* elems := loadArray arr in
  store arr (OArray (elems ++ [x])).

(** [xs.forEach(x => ..)] with the locals the callback updates. *)
Fixpoint forEach {A S} (body : S -> A -> M S) (xs : list A) (s : S) : M S :=
  match xs with
  | [] => ret s
  | x :: rest => let* s' := body s x in forEach body rest s'
  end.

(** [arr.findIndex(b => b.id === id)] over an array of bookmark objects. *)
Fixpoint findIndexFrom (id : string) (elems : list loc) (i : nat) : M (option nat) :=
  match elems with
  | [] => ret None
  | l :: rest =>
      let* b := loadBookmark l in
      if String.eqb (Bookmark.id b) id then ret (Some i)
      else findIndexFrom id rest (S i)
  end.

Definition forEachPart (newFolders : loc)
    (st : gmap string string * option string * string) (part : string)
  : M (gmap string string * option string * string) :=
  let '(pathMap, currentParentId, currentPath0) := st in
  let currentPath :=
    if truthy currentPath0 then currentPath0 +:+ "/" +:+ part else part in
  let* pathMap' :=
    match pathMap !! currentPath with
    | Some _ => ret pathMap
    | None =>
        let* folderId := freshId in
        let* f := alloc (OFolder (Folder.mk folderId part currentParentId)) in
        let* _ := push newFolders f in
        ret (<[currentPath := folderId]> pathMap)
    end in
  ret (pathMap', pathMap' !! currentPath, currentPath).

Definition forEachFolder (newFolders : loc) (pathMap : gmap string string)
    (f : Suggestion.FolderEntry) : M (gmap string string) :=
  let* st := forEach (forEachPart newFolders) (split "/" (Suggestion.path f))
                     (pathMap, None, EmptyString) in
  ret st.1.1.

Definition forEachAssignment (pathMap : gmap string string) (updatedBookmarks : loc)
    (_ : unit) (a : Suggestion.Assignment) : M unit :=
  match pathMap !! Suggestion.folderPath a with
  | Some folderId =>
      if truthy folderId then
        let* elems := loadArray updatedBookmarks in
        let* index := findIndexFrom (Suggestion.bookmarkId a) elems 0 in
        match index with
        | Some index =>
            match elems !! index with
            | Some l =>
                let* b := loadBookmark l in
                let* l' := alloc (OBookmark (Bookmark.with_folder b (Some folderId))) in
                store updatedBookmarks (OArray (<[index := l']> elems))
            | None => fail
            end
        | None => ret tt
        end
      else ret tt
  | None => ret tt
  end.

(** [applySuggestion] for a library and a suggestion that are not null:
    the location of the library object handed to [setLibrary]. *)
Definition applySuggestion (suggestion : Suggestion.t) (library : loc) : M loc :=
  let* newFolders := alloc (OArray []) in
  let* lib := loadLibrary library in
  let* elems := loadArray lib.1 in
  let* updatedBookmarks := alloc (OArray elems) in
  let* pathMap := forEach (forEachFolder newFolders) (Suggestion.folders suggestion) ∅ in
  let* _ := forEach (forEachAssignment pathMap updatedBookmarks)
                    (Suggestion.assignments suggestion) tt in
  alloc (OLibrary updatedBookmarks newFolders).

(** [next.bookmarks.map(b => bookmarkIds.includes(b.id) ? {...b, folder} : b)]:
    the elements of the mapped array. *)
Fixpoint mapMove (bookmarkIds : list string) (targetFolderId : string)
    (elems : list loc) : M (list loc) :=
  match elems with
  | [] => ret []
  | l :: rest =>
      let* b := loadBookmark l in
      let* l' := (if includes bookmarkIds (Bookmark.id b)
                  then alloc (OBookmark (Bookmark.with_folder b (Some targetFolderId)))
                  else ret l) in
      let* rest' := mapMove bookmarkIds targetFolderId rest in
      ret (l' :: rest')
  end.

(** The callback of [setLibrary] in [handleCommand], for a state [prev]
    that is not null: the location of [next]. *)
Definition handleCommand (prev : loc) (action : Action) : M loc :=
  let* fields := loadLibrary prev in
  let* next := alloc (OLibrary fields.1 fields.2) in
  let* _ :=
    match action with
    | MOVE_BOOKMARKS bookmarkIds targetFolderId =>
        let* cur := loadLibrary next in
        let* elems := loadArray cur.1 in
        let* elems' := mapMove bookmarkIds targetFolderId elems in
        let* arr := alloc (OArray elems') in
        store next (OLibrary arr cur.2)
    | CREATE_FOLDER name parentId =>
        let* id := freshId in
        let* newFolder := alloc (OFolder (Folder.mk id name parentId)) in
        let* cur := loadLibrary next in
        let* elems := loadArray cur.2 in
        let* arr := alloc (OArray (elems ++ [newFolder])) in
        store next (OLibrary cur.1 arr)
    end in
  ret next.

(** The library value a location denotes. *)
Definition readBookmarks (h : list Obj) (elems : list loc) : option (list Bookmark.t) :=
  mapM (λ l, match h !! l with Some (OBookmark b) => Some b | _ => None end) elems.

Definition readFolders (h : list Obj) (elems : list loc) : option (list Folder.t) :=
  mapM (λ l, match h !! l with Some (OFolder f) => Some f | _ => None end) elems.

Definition readArray (h : list Obj) (l : loc) : option (list loc) :=
  match h !! l with Some (OArray elems) => Some elems | _ => None end.

Definition readLibrary (h : list Obj) (l : loc) : option BookmarkLibrary :=
  match h !! l with
  | Some (OLibrary bl fl) =>
      bs ← readArray h bl ≫= readBookmarks h;
      fs ← readArray h fl ≫= readFolders h;
      Some {| bookmarks := bs; folders := fs |}
  | _ => None
  end.

End Store.

(** [frame W h h']: every object of [h] outside the locations [W] is still
    there in [h']. *)
Definition frame (W : Store.loc -> Prop) (h h' : list Store.Obj) : Prop :=
  ∀ l o, h !! l = Some o -> ¬ W l -> h' !! l = Some o.

(** The store holds the resolver state [rs]: the array [nf] lists folder
    objects that read as [newFolders rs], and the generator agrees. *)
Definition holdsResolver (nf : Store.loc) (rs : Resolver) (w : Store.World) : Prop :=
  (∀ n, Store.random w n = rand rs n) ∧
  ∃ elems, Store.readArray (Store.heap w) nf = Some elems ∧
           Store.readFolders (Store.heap w) elems = Some (newFolders rs).

Definition fresh (h : list Store.Obj) : Store.loc -> Prop := λ l, length h ≤ l.

Definition store_example : Store.World :=
  Store.mkWorld
    [ Store.OBookmark (Bookmark.mk "b1" "T1" "u1" None None None (Some "old"));
      Store.OBookmark (Bookmark.mk "b2" "T2" "u2" None None None None);
      Store.OFolder (Folder.mk "old" "Old" None);
      Store.OArray [0; 1]; Store.OArray [2]; Store.OLibrary 3 4 ]
    (λ n, String (ascii_of_nat (97 + n)) "").

Definition library_example : BookmarkLibrary :=
  {| bookmarks := [ Bookmark.mk "b1" "T1" "u1" None None None (Some "old");
                    Bookmark.mk "b2" "T2" "u2" None None None None ];
     folders := [ Folder.mk "old" "Old" None ] |}.

(** ** Serialization ([exportToHTML]) *)

(** The double quote and the line feed, which the notation of string
    literals cannot hold. *)
Definition dquote : string := String "034" "".
Definition newline : string := String "010" "".

(** [s.replace(/c/g, by)] for a one-character pattern. *)
Fixpoint replaceAll (c : ascii) (by_ : string) (s : string) : string :=
  match s with
  | EmptyString => EmptyString
  | String x rest =>
      if Ascii.eqb x c then by_ +:+ replaceAll c by_ rest
      else String x (replaceAll c by_ rest)
  end.

Definition escapeHtml (unsafe : string) : string :=
  replaceAll "'" "&#039;"
    (replaceAll "034" "&quot;"
       (replaceAll ">" "&gt;"
          (replaceAll "<" "&lt;"
             (replaceAll "&" "&amp;" unsafe)))).

(** The fixed head of the document, up to the opening of the root list. *)
Definition exportHeader : string :=
  "<!DOCTYPE NETSCAPE-Bookmark-file-1>" +:+ newline +:+
  "<!-- This is an automatically generated file." +:+ newline +:+
  "     It will be read and overwritten." +:+ newline +:+
  "     DO NOT EDIT! -->" +:+ newline +:+
  "<META HTTP-EQUIV=" +:+ dquote +:+ "Content-Type" +:+ dquote +:+
  " CONTENT=" +:+ dquote +:+ "text/html; charset=UTF-8" +:+ dquote +:+ ">" +:+ newline +:+
  "<TITLE>Bookmarks</TITLE>" +:+ newline +:+
  "<H1>Bookmarks</H1>" +:+ newline +:+
  "<DL><p>" +:+ newline.

(** The opening lines of a folder: its heading and the start of its list. *)
Definition folderOpen (space : string) (f : Folder.t) : string :=
  space +:+ "<DT><H3>" +:+ escapeHtml (Folder.name f) +:+ "</H3>" +:+ newline +:+
  space +:+ "<DL><p>" +:+ newline.

Definition folderClose (space : string) : string :=
  space +:+ "</DL><p>" +:+ newline.

(** An optional attribute: [${v ? ` NAME="${escapeHtml(v)}"` : ''}]. *)
Definition optAttr (attr : string) (v : option string) : string :=
  match v with
  | Some s =>
      if truthy s then " " +:+ attr +:+ "=" +:+ dquote +:+ escapeHtml s +:+ dquote
      else EmptyString
  | None => EmptyString
  end.

(** The line of a bookmark. *)
Definition bookmarkLine (space : string) (b : Bookmark.t) : string :=
  space +:+ "<DT><A HREF=" +:+ dquote +:+ escapeHtml (Bookmark.url b) +:+ dquote +:+
  optAttr "ADD_DATE" (Bookmark.addDate b) +:+
  optAttr "ICON" (Bookmark.icon b) +:+
  ">" +:+ escapeHtml (Bookmark.title b) +:+ "</A>" +:+ newline.

(** The strings of a list, one after the other. *)
Fixpoint concat (l : list string) : string :=
  match l with
  | [] => EmptyString
  | s :: rest => s +:+ concat rest
  end.

(** [renderItems(parentId, indent)]: the text the call appends to [html].
    The recursion follows the identifiers of the library, and nothing makes
    it end on a library whose folders form a cycle; [fuel] bounds the depth
    of the call stack, and [None] is its exhaustion. *)
Fixpoint renderItems (fuel : nat) (library : BookmarkLibrary)
    (parentId : option string) (indent : nat) : option string :=
  match fuel with
  | O => None
  | S fuel =>
      let space := repeat_string " " indent in
      rendered ← mapM (λ f,
          inner ← renderItems fuel library (Some (Folder.id f)) (indent + 4);
          Some (folderOpen space f +:+ inner +:+ folderClose space))
        (filter (λ f, Folder.parentId f = parentId) (folders library));
      Some (concat rendered +:+
            concat (bookmarkLine space <$>
                      filter (λ b, Bookmark.folder b = parentId) (bookmarks library)))
  end.

Definition exportToHTML (fuel : nat) (library : BookmarkLibrary) : option string :=
  body ← renderItems fuel library None 4;
  Some (exportHeader +:+ body +:+ "</DL><p>").

(** ** The document object model

    [parseBookmarksHTML] reads its input through the platform's
    [DOMParser] and queries the resulting tree. The tree is modelled as a
    rose tree of nodes. *)
#[warnings="-register-all"]
Inductive Node :=
| Element (tagName : string) (attributes : list (string * string)) (childNodes : list Node)
| Text (data : string)
| Comment (data : string)
| DocumentType (name : string).

(** ** The platform's HTML parser ([new DOMParser().parseFromString])

    The parser is not code of MarkFlow. It is modelled after the
    tokenization and tree construction stages of the HTML standard, for the
    markup of a Netscape bookmark file: tags with attributes, comments, a
    document type, text, and character references. Left out of the model:
    the named character references other than [amp], [lt], [gt], [quot]
    and [apos]; the script data states (a script is read as raw text);
    tables, forms, select, templates, frames and foreign content; and the
    re-parenting of misnested formatting elements (a formatting element is
    opened and closed like any other element). *)

Inductive Token :=
| TDoctype (name : string)
| TStartTag (name : string) (attrs : list (string * string)) (selfClosing : bool)
| TEndTag (name : string)
| TComment (data : string)
| TChar (c : ascii)
| TEOF.

(** *** Character classes *)

Definition isUpper (c : ascii) : bool :=
  let n := nat_of_ascii c in (65 <=? n) && (n <=? 90).

Definition isLower (c : ascii) : bool :=
  let n := nat_of_ascii c in (97 <=? n) && (n <=? 122).

Definition isAlpha (c : ascii) : bool := isUpper c || isLower c.

Definition isDigit (c : ascii) : bool :=
  let n := nat_of_ascii c in (48 <=? n) && (n <=? 57).

Definition isAlnum (c : ascii) : bool := isAlpha c || isDigit c.

(** Tab, line feed, form feed and space. *)
Definition isSpace (c : ascii) : bool :=
  let n := nat_of_ascii c in (n =? 9) || (n =? 10) || (n =? 12) || (n =? 32).

Definition toLower (c : ascii) : ascii :=
  if isUpper c then ascii_of_nat (nat_of_ascii c + 32) else c.

(** The value of a hexadecimal digit. *)
Definition hexValue (c : ascii) : option N :=
  let n := nat_of_ascii c in
  if (48 <=? n) && (n <=? 57) then Some (N.of_nat (n - 48))
  else if (65 <=? n) && (n <=? 70) then Some (N.of_nat (n - 55))
  else if (97 <=? n) && (n <=? 102) then Some (N.of_nat (n - 87))
  else None.

Definition decValue (c : ascii) : option N :=
  if isDigit c then Some (N.of_nat (nat_of_ascii c - 48)) else None.

Fixpoint lowerString (s : string) : string :=
  match s with
  | EmptyString => EmptyString
  | String c rest => String (toLower c) (lowerString rest)
  end.

(** [s] with the character [c] at its end. *)
Definition snoc (s : string) (c : ascii) : string := s +:+ String c "".

(** U+FFFD, as the bytes of its UTF-8 encoding. *)
Definition replacementChar : string :=
  String "239" (String "191" (String "189" "")).

(** [s] with [c] at its end, inside a tag or a comment: the null character
    is replaced by U+FFFD. *)
Definition snocNul (s : string) (c : ascii) : string :=
  if Ascii.eqb c "000" then s +:+ replacementChar else snoc s c.

(** *** Input stream: a carriage return, with the line feed that follows
    it if any, is one line feed. *)
Fixpoint normalizeNewlines (s : string) : string :=
  match s with
  | EmptyString => EmptyString
  | String c rest =>
      if Ascii.eqb c "013" then
        match rest with
        | String "010" rest' => String "010" (normalizeNewlines rest')
        | _ => String "010" (normalizeNewlines rest)
        end
      else String c (normalizeNewlines rest)
  end.

(** *** Character references *)

Definition byteOfN (n : N) : ascii := ascii_of_N n.

(** The UTF-8 encoding of a code point. *)
Definition utf8 (n : N) : string :=
  (if n <? 128 then String (byteOfN n) ""
   else if n <? 2048 then
     String (byteOfN (192 + n / 64)) (String (byteOfN (128 + n mod 64)) "")
   else if n <? 65536 then
     String (byteOfN (224 + n / 4096))
       (String (byteOfN (128 + (n / 64) mod 64))
          (String (byteOfN (128 + n mod 64)) ""))
   else
     String (byteOfN (240 + n / 262144))
       (String (byteOfN (128 + (n / 4096) mod 64))
          (String (byteOfN (128 + (n / 64) mod 64))
             (String (byteOfN (128 + n mod 64)) ""))))%N.

(** The text of a numeric character reference: the null character, a
    surrogate and a number past U+10FFFF give U+FFFD. *)
Definition numericReference (n : N) : string :=
  (if (n =? 0) || (1114111 <? n) || ((55296 <=? n) && (n <=? 57343))
   then replacementChar else utf8 n)%N.

(** The text of a named character reference that ends in a semicolon. *)
Definition namedReference (name : string) : option string :=
  if String.eqb name "amp" then Some "&"
  else if String.eqb name "lt" then Some "<"
  else if String.eqb name "gt" then Some ">"
  else if String.eqb name "quot" then Some dquote
  else if String.eqb name "apos" then Some "'"
  else None.

(** *** Tokenization

    The tag being read: an end tag keeps no attribute. *)
Record TagTok := mkTag {
  isEnd : bool;
  tname : string;
  tattrs : list (string * string)
}.

Inductive Quote := DoubleQuoted | SingleQuoted | Unquoted.

(** Where a character reference returns to: text, or an attribute value. *)
Inductive Return :=
| RText (content : option (bool * string))
| RAttr (q : Quote) (t : TagTok) (name value : string).

(** The states of the tokenizer, with what each has read so far. The
    content of [title] and [textarea] (character references decoded) and
    of [style], [script], [xmp], [iframe], [noembed] and [noframes] (raw)
    ends at the end tag of the element: [SText (Some (raw, tag))]. *)
Inductive TState :=
| SText (content : option (bool * string))
| STextLt (raw : bool) (tag : string)
| STextEndOpen (raw : bool) (tag : string)
| STextEndName (raw : bool) (tag : string) (buf : string)
| STagOpen
| SEndTagOpen
| STagName (t : TagTok)
| SBeforeAttrName (t : TagTok)
| SAttrName (t : TagTok) (name : string)
| SAfterAttrName (t : TagTok) (name : string)
| SBeforeAttrValue (t : TagTok) (name : string)
| SAttrValue (q : Quote) (t : TagTok) (name value : string)
| SAfterAttrValue (t : TagTok)
| SSelfClosing (t : TagTok)
| SMarkupDecl (buf : string)
| SBogusComment (data : string)
| SCommentStart
| SCommentStartDash
| SComment (data : string)
| SCommentEndDash (data : string)
| SCommentEnd (data : string)
| SCommentEndBang (data : string)
| SDoctype (data : string)
| SAmp (ret : Return)
| SNamed (ret : Return) (buf : string)
| SNumStart (ret : Return)
| SHexStart (ret : Return) (x : ascii)
| SDec (ret : Return) (n : N)
| SHex (ret : Return) (n : N).

Definition chars (s : string) : list Token :=
  TChar <$> list_ascii_of_string s.

(** An attribute whose name the tag already has is dropped. *)
Definition addAttr (t : TagTok) (name value : string) : TagTok :=
  if existsb (λ a, String.eqb a.1 name) (tattrs t) then t
  else mkTag (isEnd t) (tname t) (tattrs t ++ [(name, value)]).

(** The content model the tokenizer enters after a start tag. *)
Definition contentAfter (name : string) : option (bool * string) :=
  if String.eqb name "title" || String.eqb name "textarea" then Some (false, name)
  else if String.eqb name "style" || String.eqb name "script" || String.eqb name "xmp"
          || String.eqb name "iframe" || String.eqb name "noembed"
          || String.eqb name "noframes" then Some (true, name)
  else None.

(** The tag is complete: the state that follows and the token. *)
Definition emitTag (t : TagTok) (selfClosing : bool) : TState * list Token :=
  if isEnd t then (SText None, [TEndTag (tname t)])
  else (SText (contentAfter (tname t)), [TStartTag (tname t) (tattrs t) selfClosing]).

(** Text: the data state and the two content models of [SText]. *)
Definition stepText (content : option (bool * string)) (c : ascii)
  : TState * list Token :=
  match content with
  | None =>
      if Ascii.eqb c "&" then (SAmp (RText None), [])
      else if Ascii.eqb c "<" then (STagOpen, [])
      else (SText None, [TChar c])
  | Some (raw, tag) =>
      if Ascii.eqb c "&" && negb raw then (SAmp (RText content), [])
      else if Ascii.eqb c "<" then (STextLt raw tag, [])
      else if Ascii.eqb c "000" then (SText content, chars replacementChar)
      else (SText content, [TChar c])
  end.

Definition stepAttrName (t : TagTok) (name : string) (c : ascii)
  : TState * list Token :=
  if Ascii.eqb c "=" then (SBeforeAttrValue t name, [])
  else if isSpace c then (SAfterAttrName t name, [])
  else if Ascii.eqb c "/" then (SSelfClosing (addAttr t name ""), [])
  else if Ascii.eqb c ">" then emitTag (addAttr t name "") false
  else (SAttrName t (snocNul name (toLower c)), []).

Definition stepBeforeAttrName (t : TagTok) (c : ascii) : TState * list Token :=
  if isSpace c then (SBeforeAttrName t, [])
  else if Ascii.eqb c "/" then (SSelfClosing t, [])
  else if Ascii.eqb c ">" then emitTag t false
  else if Ascii.eqb c "=" then (SAttrName t "=", [])
  else stepAttrName t "" c.

Definition stepAttrValue (q : Quote) (t : TagTok) (name value : string) (c : ascii)
  : TState * list Token :=
  match q with
  | DoubleQuoted =>
      if Ascii.eqb c "034" then (SAfterAttrValue (addAttr t name value), [])
      else if Ascii.eqb c "&" then (SAmp (RAttr q t name value), [])
      else (SAttrValue q t name (snocNul value c), [])
  | SingleQuoted =>
      if Ascii.eqb c "'" then (SAfterAttrValue (addAttr t name value), [])
      else if Ascii.eqb c "&" then (SAmp (RAttr q t name value), [])
      else (SAttrValue q t name (snocNul value c), [])
  | Unquoted =>
      if isSpace c then (SBeforeAttrName (addAttr t name value), [])
      else if Ascii.eqb c "&" then (SAmp (RAttr q t name value), [])
      else if Ascii.eqb c ">" then emitTag (addAttr t name value) false
      else (SAttrValue q t name (snocNul value c), [])
  end.

(** The characters [s] were not a character reference, or are its text:
    they go where the reference stood. *)
Definition flushTo (ret : Return) (s : string) : TState * list Token :=
  match ret with
  | RText content => (SText content, chars s)
  | RAttr q t name value => (SAttrValue q t name (value +:+ s), [])
  end.

(** [flushTo], then the character [c] read in the state returned to. *)
Definition flushThen (ret : Return) (s : string) (c : ascii) : TState * list Token :=
  match ret with
  | RText content =>
      let '(st, out) := stepText content c in (st, chars s ++ out)
  | RAttr q t name value => stepAttrValue q t name (value +:+ s) c
  end.

(** The comment start state and the states after it read [c] as follows
    when it opens no end of comment. *)
Definition stepComment (data : string) (c : ascii) : TState * list Token :=
  if Ascii.eqb c "-" then (SCommentEndDash data, [])
  else (SComment (snocNul data c), []).

(** One step of the tokenizer. *)
Definition tokStep (st : TState) (c : ascii) : TState * list Token :=
  match st with
  | SText content => stepText content c
  | STextLt raw tag =>
      if Ascii.eqb c "/" then (STextEndOpen raw tag, [])
      else let '(st', out) := stepText (Some (raw, tag)) c in (st', TChar "<" :: out)
  | STextEndOpen raw tag =>
      if isAlpha c then (STextEndName raw tag (String (toLower c) ""), [])
      else let '(st', out) := stepText (Some (raw, tag)) c in (st', chars "</" ++ out)
  | STextEndName raw tag buf =>
      if isAlpha c then (STextEndName raw tag (snoc buf (toLower c)), [])
      else if String.eqb buf tag && isSpace c then (SBeforeAttrName (mkTag true buf []), [])
      else if String.eqb buf tag && Ascii.eqb c "/" then (SSelfClosing (mkTag true buf []), [])
      else if String.eqb buf tag && Ascii.eqb c ">" then (SText None, [TEndTag buf])
      else let '(st', out) := stepText (Some (raw, tag)) c in
           (st', chars ("</" +:+ buf) ++ out)
  | STagOpen =>
      if Ascii.eqb c "!" then (SMarkupDecl "", [])
      else if Ascii.eqb c "/" then (SEndTagOpen, [])
      else if isAlpha c then (STagName (mkTag false (String (toLower c) "") []), [])
      else if Ascii.eqb c "?" then (SBogusComment "?", [])
      else let '(st', out) := stepText None c in (st', TChar "<" :: out)
  | SEndTagOpen =>
      if isAlpha c then (STagName (mkTag true (String (toLower c) "") []), [])
      else if Ascii.eqb c ">" then (SText None, [])
      else (SBogusComment (String c ""), [])
  | STagName t =>
      if isSpace c then (SBeforeAttrName t, [])
      else if Ascii.eqb c "/" then (SSelfClosing t, [])
      else if Ascii.eqb c ">" then emitTag t false
      else (STagName (mkTag (isEnd t) (snocNul (tname t) (toLower c)) (tattrs t)), [])
  | SBeforeAttrName t => stepBeforeAttrName t c
  | SAttrName t name => stepAttrName t name c
  | SAfterAttrName t name =>
      if isSpace c then (SAfterAttrName t name, [])
      else if Ascii.eqb c "/" then (SSelfClosing (addAttr t name ""), [])
      else if Ascii.eqb c "=" then (SBeforeAttrValue t name, [])
      else if Ascii.eqb c ">" then emitTag (addAttr t name "") false
      else stepAttrName (addAttr t name "") "" c
  | SBeforeAttrValue t name =>
      if isSpace c then (SBeforeAttrValue t name, [])
      else if Ascii.eqb c "034" then (SAttrValue DoubleQuoted t name "", [])
      else if Ascii.eqb c "'" then (SAttrValue SingleQuoted t name "", [])
      else if Ascii.eqb c ">" then emitTag (addAttr t name "") false
      else stepAttrValue Unquoted t name "" c
  | SAttrValue q t name value => stepAttrValue q t name value c
  | SAfterAttrValue t =>
      if isSpace c then (SBeforeAttrName t, [])
      else if Ascii.eqb c "/" then (SSelfClosing t, [])
      else if Ascii.eqb c ">" then emitTag t false
      else stepBeforeAttrName t c
  | SSelfClosing t =>
      if Ascii.eqb c ">" then emitTag t true
      else stepBeforeAttrName t c
  | SMarkupDecl buf =>
      let buf' := snoc buf c in
      if String.eqb buf' "--" then (SCommentStart, [])
      else if String.eqb (lowerString buf') "doctype" then (SDoctype "", [])
      else if String.prefix buf' "--" || String.prefix (lowerString buf') "doctype"
      then (SMarkupDecl buf', [])
      else if Ascii.eqb c ">" then (SText None, [TComment buf])
      else (SBogusComment buf', [])
  | SBogusComment data =>
      if Ascii.eqb c ">" then (SText None, [TComment data])
      else (SBogusComment (snocNul data c), [])
  | SCommentStart =>
      if Ascii.eqb c "-" then (SCommentStartDash, [])
      else if Ascii.eqb c ">" then (SText None, [TComment ""])
      else stepComment "" c
  | SCommentStartDash =>
      if Ascii.eqb c "-" then (SCommentEnd "", [])
      else if Ascii.eqb c ">" then (SText None, [TComment ""])
      else stepComment "-" c
  | SComment data => stepComment data c
  | SCommentEndDash data =>
      if Ascii.eqb c "-" then (SCommentEnd data, [])
      else stepComment (snoc data "-") c
  | SCommentEnd data =>
      if Ascii.eqb c ">" then (SText None, [TComment data])
      else if Ascii.eqb c "!" then (SCommentEndBang data, [])
      else if Ascii.eqb c "-" then (SCommentEnd (snoc data "-"), [])
      else stepComment (data +:+ "--") c
  | SCommentEndBang data =>
      if Ascii.eqb c "-" then (SCommentEndDash (data +:+ "--!"), [])
      else if Ascii.eqb c ">" then (SText None, [TComment data])
      else stepComment (data +:+ "--!") c
  | SDoctype data =>
      if Ascii.eqb c ">" then (SText None, [TDoctype data])
      else (SDoctype (snoc data c), [])
  | SAmp ret =>
      if isAlnum c then (SNamed ret (String c ""), [])
      else if Ascii.eqb c "#" then (SNumStart ret, [])
      else flushThen ret "&" c
  | SNamed ret buf =>
      if isAlnum c then (SNamed ret (snoc buf c), [])
      else if Ascii.eqb c ";" then
        match namedReference buf with
        | Some s => flushTo ret s
        | None => flushTo ret ("&" +:+ buf +:+ ";")
        end
      else flushThen ret ("&" +:+ buf) c
  | SNumStart ret =>
      if Ascii.eqb c "x" || Ascii.eqb c "X" then (SHexStart ret c, [])
      else match decValue c with
           | Some d => (SDec ret d, [])
           | None => flushThen ret "&#" c
           end
  | SHexStart ret x =>
      match hexValue c with
      | Some d => (SHex ret d, [])
      | None => flushThen ret (snoc "&#" x) c
      end
  | SDec ret n =>
      match decValue c with
      | Some d => (SDec ret (n * 10 + d), [])
      | None =>
          if Ascii.eqb c ";" then flushTo ret (numericReference n)
          else flushThen ret (numericReference n) c
      end
  | SHex ret n =>
      match hexValue c with
      | Some d => (SHex ret (n * 16 + d), [])
      | None =>
          if Ascii.eqb c ";" then flushTo ret (numericReference n)
          else flushThen ret (numericReference n) c
      end
  end.

(** The end of the input: what is pending becomes text or a comment, and
    an unfinished tag is dropped. *)
Definition tokFlush (st : TState) : list Token :=
  match st with
  | STextLt _ _ | STagOpen => chars "<"
  | STextEndOpen _ _ | SEndTagOpen => chars "</"
  | STextEndName _ _ buf => chars ("</" +:+ buf)
  | SMarkupDecl data | SBogusComment data | SComment data | SCommentEndDash data
  | SCommentEnd data | SCommentEndBang data => [TComment data]
  | SCommentStart | SCommentStartDash => [TComment ""]
  | SDoctype data => [TDoctype data]
  | SAmp (RText _) => chars "&"
  | SNamed (RText _) buf => chars ("&" +:+ buf)
  | SNumStart (RText _) => chars "&#"
  | SHexStart (RText _) x => chars (snoc "&#" x)
  | SDec (RText _) n | SHex (RText _) n => chars (numericReference n)
  | _ => []
  end.

(** The tokens of the characters [s], read from the state [st]. *)
Fixpoint tokensFrom (st : TState) (s : string) : list Token :=
  match s with
  | EmptyString => tokFlush st ++ [TEOF]
  | String c rest =>
      let '(st', out) := tokStep st c in out ++ tokensFrom st' rest
  end.

Definition tokenize (html : string) : list Token :=
  tokensFrom (SText None) (normalizeNewlines html).

(** *** Tree construction

    An open element: its tag, its attributes and the children it has so
    far, the latest first. *)
Record Frame := mkFrame {
  ftag : string;
  fattrs : list (string * string);
  fkids : list Node
}.

Inductive Mode :=
| Initial
| BeforeHtml
| BeforeHead
| InHead
| AfterHead
| InBody
| InText (inHead : bool).

(** The state of the tree builder: the insertion mode, the stack of open
    elements (the current node first, [html] last) and the children of the
    document outside [html] (the latest first). *)
Record Builder := mkBuilder {
  mode : Mode;
  stack : list Frame;
  docKids : list Node
}.

Definition elem (x : string) (l : list string) : bool :=
  existsb (String.eqb x) l.

Definition isHeading (tag : string) : bool :=
  elem tag ["h1"; "h2"; "h3"; "h4"; "h5"; "h6"].

(** The elements whose start tag closes an open paragraph. *)
Definition closesP (tag : string) : bool :=
  elem tag ["address"; "article"; "aside"; "blockquote"; "center"; "details";
            "dialog"; "dir"; "div"; "dl"; "fieldset"; "figcaption"; "figure";
            "footer"; "header"; "hgroup"; "main"; "menu"; "nav"; "ol"; "p";
            "search"; "section"; "summary"; "ul"; "pre"; "listing"; "form";
            "table"; "hr"; "xmp"].

(** The end tags that close their element when it is in scope. *)
Definition blockEnd (tag : string) : bool :=
  elem tag ["address"; "article"; "aside"; "blockquote"; "button"; "center";
            "details"; "dialog"; "dir"; "div"; "dl"; "fieldset"; "figcaption";
            "figure"; "footer"; "header"; "hgroup"; "listing"; "main"; "menu";
            "nav"; "ol"; "pre"; "search"; "section"; "summary"; "ul"; "form"].

Definition isVoid (tag : string) : bool :=
  elem tag ["area"; "br"; "embed"; "img"; "keygen"; "wbr"; "input"; "param";
            "source"; "track"; "hr"; "base"; "basefont"; "bgsound"; "link"; "meta"].

Definition isHeadVoid (tag : string) : bool :=
  elem tag ["base"; "basefont"; "bgsound"; "link"; "meta"].

Definition isSpecial (tag : string) : bool :=
  elem tag ["address"; "applet"; "area"; "article"; "aside"; "base"; "basefont";
            "bgsound"; "blockquote"; "body"; "br"; "button"; "caption"; "center";
            "col"; "colgroup"; "dd"; "details"; "dir"; "div"; "dl"; "dt"; "embed";
            "fieldset"; "figcaption"; "figure"; "footer"; "form"; "frame";
            "frameset"; "h1"; "h2"; "h3"; "h4"; "h5"; "h6"; "head"; "header";
            "hgroup"; "hr"; "html"; "iframe"; "img"; "input"; "keygen"; "li";
            "link"; "listing"; "main"; "marquee"; "menu"; "meta"; "nav";
            "noembed"; "noframes"; "noscript"; "object"; "ol"; "p"; "param";
            "plaintext"; "pre"; "script"; "search"; "section"; "select";
            "source"; "style"; "summary"; "table"; "tbody"; "td"; "template";
            "textarea"; "tfoot"; "th"; "thead"; "title"; "tr"; "track"; "ul";
            "wbr"; "xmp"].

Definition impliedEnd (tag : string) : bool :=
  elem tag ["dd"; "dt"; "li"; "optgroup"; "option"; "p"; "rb"; "rp"; "rt"; "rtc"].

Definition scopeBoundary (tag : string) : bool :=
  elem tag ["applet"; "caption"; "html"; "table"; "td"; "th"; "marquee";
            "object"; "template"].

Definition buttonBoundary (tag : string) : bool :=
  scopeBoundary tag || String.eqb tag "button".

Definition listBoundary (tag : string) : bool :=
  scopeBoundary tag || elem tag ["ol"; "ul"].

(** The element of a frame that is closed. *)
Definition closeFrame (f : Frame) : Node :=
  Element (ftag f) (fattrs f) (rev (fkids f)).

Definition addKid (n : Node) (f : Frame) : Frame :=
  mkFrame (ftag f) (fattrs f) (n :: fkids f).

(** Append a node to the current node. *)
Definition appendNode (n : Node) (st : list Frame) : list Frame :=
  match st with
  | [] => []
  | f :: rest => addKid n f :: rest
  end.

(** Insert a character: it joins the text node that ends the current node,
    if there is one. *)
Definition insertChar (c : ascii) (st : list Frame) : list Frame :=
  match st with
  | [] => []
  | f :: rest =>
      match fkids f with
      | Text s :: kids => mkFrame (ftag f) (fattrs f) (Text (snoc s c) :: kids) :: rest
      | _ => addKid (Text (String c "")) f :: rest
      end
  end.

Definition insertElement (tag : string) (attrs : list (string * string))
    (st : list Frame) : list Frame :=
  mkFrame tag attrs [] :: st.

(** Pop the current node ([html] is never popped). *)
Definition popNode (st : list Frame) : list Frame :=
  match st with
  | f :: (_ :: _) as rest => appendNode (closeFrame f) rest
  | _ => st
  end.

(** Pop the open elements while the current node, [cur], satisfies [p]. *)
Fixpoint popWhileFrom (p : string -> bool) (cur : Frame) (below : list Frame)
  : list Frame :=
  match below with
  | [] => [cur]
  | g :: below' =>
      if p (ftag cur) then popWhileFrom p (addKid (closeFrame cur) g) below'
      else cur :: below
  end.

Definition popWhile (p : string -> bool) (st : list Frame) : list Frame :=
  match st with
  | [] => []
  | f :: below => popWhileFrom p f below
  end.

(** Pop the open elements until one that satisfies [p] has been popped. *)
Fixpoint popThroughFrom (p : string -> bool) (cur : Frame) (below : list Frame)
  : list Frame :=
  match below with
  | [] => [cur]
  | g :: below' =>
      if p (ftag cur) then addKid (closeFrame cur) g :: below'
      else popThroughFrom p (addKid (closeFrame cur) g) below'
  end.

Definition popThrough (p : string -> bool) (st : list Frame) : list Frame :=
  match st with
  | [] => []
  | f :: below => popThroughFrom p f below
  end.

(** An element that satisfies [target] is in the scope bounded by [boundary]. *)
Fixpoint inScope (target boundary : string -> bool) (st : list Frame) : bool :=
  match st with
  | [] => false
  | f :: rest =>
      if target (ftag f) then true
      else if boundary (ftag f) then false
      else inScope target boundary rest
  end.

(** Generate implied end tags, except for [tag]. *)
Definition generateImplied (tag : string) (st : list Frame) : list Frame :=
  popWhile (λ t, impliedEnd t && negb (String.eqb t tag)) st.

(** Close a [p] element, if one is in button scope. *)
Definition closeP (st : list Frame) : list Frame :=
  if inScope (String.eqb "p") buttonBoundary st
  then popThrough (String.eqb "p") st
  else st.

(** The start tags [li], [dd] and [dt] close the open item they follow:
    the first open element among [items], searched from the current node up
    to a special element other than [address], [div] and [p]. *)
Fixpoint openItem (items : list string) (st : list Frame) : bool :=
  match st with
  | [] => false
  | f :: rest =>
      if elem (ftag f) items then true
      else if isSpecial (ftag f) && negb (elem (ftag f) ["address"; "div"; "p"]) then false
      else openItem items rest
  end.

Definition closeItem (items : list string) (st : list Frame) : list Frame :=
  if openItem items st then popThrough (λ t, elem t items) st else st.

(** Any other end tag: the nearest open element of that name is closed,
    unless a special element is met first. *)
Fixpoint openBelowSpecial (tag : string) (st : list Frame) : bool :=
  match st with
  | [] => false
  | f :: rest =>
      if String.eqb (ftag f) tag then true
      else if isSpecial (ftag f) then false
      else openBelowSpecial tag rest
  end.

(** The current node is one of [tags]. *)
Definition currentIs (p : string -> bool) (st : list Frame) : bool :=
  match st with
  | [] => false
  | f :: _ => p (ftag f)
  end.

(** The elements whose content is text up to their end tag. *)
Definition isTextContent (tag : string) : bool :=
  match contentAfter tag with Some _ => true | None => false end.

(** A start tag in the body. *)
Definition bodyStartTag (tag : string) (attrs : list (string * string))
    (b : Builder) : Builder :=
  let st := stack b in
  if elem tag ["html"; "body"; "head"; "frameset"] then b
  else if isTextContent tag then
    mkBuilder (InText false)
      (insertElement tag attrs (if String.eqb tag "xmp" then closeP st else st))
      (docKids b)
  else if isHeading tag then
    let st1 := closeP st in
    let st2 := if currentIs isHeading st1 then popNode st1 else st1 in
    mkBuilder InBody (insertElement tag attrs st2) (docKids b)
  else if String.eqb tag "li" then
    mkBuilder InBody (insertElement tag attrs (closeP (closeItem ["li"] st))) (docKids b)
  else if elem tag ["dd"; "dt"] then
    mkBuilder InBody (insertElement tag attrs (closeP (closeItem ["dd"; "dt"] st)))
              (docKids b)
  else if String.eqb tag "a" then
    let st1 := if openBelowSpecial "a" st then popThrough (String.eqb "a") st else st in
    mkBuilder InBody (insertElement tag attrs st1) (docKids b)
  else
    let st1 := if closesP tag then closeP st else st in
    let st2 := insertElement tag attrs st1 in
    mkBuilder InBody (if isVoid tag then popNode st2 else st2) (docKids b).

(** An end tag in the body. *)
Definition bodyEndTag (tag : string) (b : Builder) : Builder :=
  let st := stack b in
  let st' :=
    if elem tag ["body"; "html"] then st
    else if String.eqb tag "br" then popNode (insertElement "br" [] st)
    else if String.eqb tag "p" then
      if inScope (String.eqb "p") buttonBoundary st
      then popThrough (String.eqb "p") st
      else popNode (insertElement "p" [] st)
    else if String.eqb tag "li" then
      if inScope (String.eqb "li") listBoundary st
      then popThrough (String.eqb "li") st else st
    else if isHeading tag then
      if inScope isHeading scopeBoundary st then popThrough isHeading st else st
    else if blockEnd tag || elem tag ["dd"; "dt"] then
      if inScope (String.eqb tag) scopeBoundary st
      then popThrough (String.eqb tag) st else st
    else
      if openBelowSpecial tag st then popThrough (String.eqb tag) st else st in
  mkBuilder InBody st' (docKids b).

Definition inBody (b : Builder) (tok : Token) : Builder :=
  match tok with
  | TChar c =>
      if Ascii.eqb c "000" then b
      else mkBuilder InBody (insertChar c (stack b)) (docKids b)
  | TComment s => mkBuilder InBody (appendNode (Comment s) (stack b)) (docKids b)
  | TDoctype _ => b
  | TStartTag tag attrs _ => bodyStartTag tag attrs b
  | TEndTag tag => bodyEndTag tag b
  | TEOF => b
  end.

Definition afterHead (b : Builder) (tok : Token) : Builder :=
  let bodyThen :=
    inBody (mkBuilder InBody (insertElement "body" [] (stack b)) (docKids b)) tok in
  match tok with
  | TChar c =>
      if isSpace c then mkBuilder AfterHead (insertChar c (stack b)) (docKids b)
      else bodyThen
  | TComment s => mkBuilder AfterHead (appendNode (Comment s) (stack b)) (docKids b)
  | TDoctype _ => b
  | TStartTag tag attrs _ =>
      if String.eqb tag "html" || String.eqb tag "head" then b
      else if String.eqb tag "body"
      then mkBuilder InBody (insertElement "body" attrs (stack b)) (docKids b)
      else bodyThen
  | TEndTag tag => if elem tag ["body"; "html"; "br"] then bodyThen else b
  | TEOF => bodyThen
  end.

Definition inHead (b : Builder) (tok : Token) : Builder :=
  let headThen :=
    afterHead (mkBuilder AfterHead (popNode (stack b)) (docKids b)) tok in
  match tok with
  | TChar c =>
      if isSpace c then mkBuilder InHead (insertChar c (stack b)) (docKids b)
      else headThen
  | TComment s => mkBuilder InHead (appendNode (Comment s) (stack b)) (docKids b)
  | TDoctype _ => b
  | TStartTag tag attrs _ =>
      if String.eqb tag "html" || String.eqb tag "head" then b
      else if isHeadVoid tag
      then mkBuilder InHead (popNode (insertElement tag attrs (stack b))) (docKids b)
      else if elem tag ["title"; "style"; "script"; "noframes"]
      then mkBuilder (InText true) (insertElement tag attrs (stack b)) (docKids b)
      else headThen
  | TEndTag tag =>
      if String.eqb tag "head"
      then mkBuilder AfterHead (popNode (stack b)) (docKids b)
      else if elem tag ["body"; "html"; "br"] then headThen else b
  | TEOF => headThen
  end.

Definition beforeHead (b : Builder) (tok : Token) : Builder :=
  let headThen :=
    inHead (mkBuilder InHead (insertElement "head" [] (stack b)) (docKids b)) tok in
  match tok with
  | TChar c => if isSpace c then b else headThen
  | TComment s => mkBuilder BeforeHead (appendNode (Comment s) (stack b)) (docKids b)
  | TDoctype _ => b
  | TStartTag tag attrs _ =>
      if String.eqb tag "html" then b
      else if String.eqb tag "head"
      then mkBuilder InHead (insertElement "head" attrs (stack b)) (docKids b)
      else headThen
  | TEndTag tag => if elem tag ["head"; "body"; "html"; "br"] then headThen else b
  | TEOF => headThen
  end.

Definition beforeHtml (b : Builder) (tok : Token) : Builder :=
  let htmlThen :=
    beforeHead (mkBuilder BeforeHead [mkFrame "html" [] []] (docKids b)) tok in
  match tok with
  | TChar c => if isSpace c then b else htmlThen
  | TComment s => mkBuilder BeforeHtml (stack b) (Comment s :: docKids b)
  | TDoctype _ => b
  | TStartTag tag attrs _ =>
      if String.eqb tag "html"
      then mkBuilder BeforeHead [mkFrame "html" attrs []] (docKids b)
      else htmlThen
  | TEndTag tag => if elem tag ["head"; "body"; "html"; "br"] then htmlThen else b
  | TEOF => htmlThen
  end.

Definition initial (b : Builder) (tok : Token) : Builder :=
  match tok with
  | TChar c =>
      if isSpace c then b
      else beforeHtml (mkBuilder BeforeHtml (stack b) (docKids b)) tok
  | TComment s => mkBuilder Initial (stack b) (Comment s :: docKids b)
  | TDoctype name => mkBuilder BeforeHtml (stack b) (DocumentType name :: docKids b)
  | _ => beforeHtml (mkBuilder BeforeHtml (stack b) (docKids b)) tok
  end.

(** The content of an element that is text up to its end tag. *)
Definition inText (inHead_ : bool) (b : Builder) (tok : Token) : Builder :=
  let ret := if inHead_ then InHead else InBody in
  match tok with
  | TChar c => mkBuilder (InText inHead_) (insertChar c (stack b)) (docKids b)
  | TEndTag _ => mkBuilder ret (popNode (stack b)) (docKids b)
  | TEOF =>
      let b' := mkBuilder ret (popNode (stack b)) (docKids b) in
      if inHead_ then inHead b' TEOF else b'
  | _ => b
  end.

(** One step of the tree builder. *)
Definition treeStep (b : Builder) (tok : Token) : Builder :=
  match mode b with
  | Initial => initial b tok
  | BeforeHtml => beforeHtml b tok
  | BeforeHead => beforeHead b tok
  | InHead => inHead b tok
  | AfterHead => afterHead b tok
  | InBody => inBody b tok
  | InText h => inText h b tok
  end.

(** The end of parsing: every open element is closed. *)
Fixpoint closeAll (cur : Frame) (below : list Frame) : Node :=
  match below with
  | [] => closeFrame cur
  | g :: below' => closeAll (addKid (closeFrame cur) g) below'
  end.

(** The children of the document node. *)
Definition finish (b : Builder) : list Node :=
  match stack b with
  | [] => rev (docKids b)
  | f :: below => rev (docKids b) ++ [closeAll f below]
  end.

Definition buildTree (tokens : list Token) : list Node :=
  finish (fold_left treeStep tokens (mkBuilder Initial [] [])).

(** [new DOMParser().parseFromString(html, 'text/html')]: the document, as
    the list of the children of its root. *)
Definition parseFromString (html : string) : list Node :=
  buildTree (tokenize html).

(** ** Queries on the document *)

Definition isElement (tag : string) (n : Node) : bool :=
  match n with
  | Element t _ _ => String.eqb t tag
  | _ => false
  end.

Definition childNodes (n : Node) : list Node :=
  match n with
  | Element _ _ kids => kids
  | _ => []
  end.

(** A node and its descendants, in document order. *)
Fixpoint subtree (n : Node) : list Node :=
  n :: match n with
       | Element _ _ kids => flat_map subtree kids
       | _ => []
       end.

(** [root.querySelectorAll(tag)] for a root whose children are [roots]. *)
Definition querySelectorAll (tag : string) (roots : list Node) : list Node :=
  List.filter (isElement tag) (flat_map subtree roots).

(** [root.querySelector(tag)] *)
Definition querySelector (tag : string) (roots : list Node) : option Node :=
  head (querySelectorAll tag roots).

(** [node.querySelectorAll(':scope > dt > tag')]: each match with the [dt]
    that is its parent element. *)
Definition scopeDtChildren (tag : string) (node : Node) : list (Node * Node) :=
  flat_map (λ dt, (λ x, (dt, x)) <$> List.filter (isElement tag) (childNodes dt))
           (List.filter (isElement "dt") (childNodes node)).

(** [node.textContent] *)
Fixpoint textContent (n : Node) : string :=
  match n with
  | Element _ _ kids => concat (map textContent kids)
  | Text s => s
  | _ => EmptyString
  end.

(** [element.getAttribute(name)] *)
Definition getAttribute (name : string) (n : Node) : option string :=
  match n with
  | Element _ attrs _ => snd <$> List.find (λ a, String.eqb a.1 name) attrs
  | _ => None
  end.

(** [x || fallback] on a string that may be null. *)
Definition orElse (o : option string) (fallback : string) : string :=
  match o with
  | Some s => if truthy s then s else fallback
  | None => fallback
  end.

(** [x || undefined] *)
Definition orUndefined (o : option string) : option string :=
  match o with
  | Some s => if truthy s then Some s else None
  | None => None
  end.

Fixpoint height (n : Node) : nat :=
  match n with
  | Element _ _ kids => S (list_max (map height kids))
  | _ => 0
  end.

(** ** Parsing ([parseBookmarksHTML])

    The two arrays the parser fills, and the identifier generator. *)
Record Parsed := mkParsed {
  parsedBookmarks : list Bookmark.t;
  parsedFolders : list Folder.t;
  parsedRand : Rand
}.

(** The bookmark pushed for a link of a list. *)
Definition pushLink (currentFolderId : option string) (p : Parsed) (link : Node) : Parsed :=
  let '(id, r) := randomId (parsedRand p) in
  mkParsed
    (parsedBookmarks p ++
       [Bookmark.mk id (orElse (Some (textContent link)) "Untitled")
          (orElse (getAttribute "href" link) "")
          (orUndefined (getAttribute "add_date" link))
          (orUndefined (getAttribute "icon" link))
          None currentFolderId])
    (parsedFolders p) r.

(** The bookmark pushed for a link in the fallback: no date, no icon. *)
Definition pushFlatLink (p : Parsed) (link : Node) : Parsed :=
  let '(id, r) := randomId (parsedRand p) in
  mkParsed
    (parsedBookmarks p ++
       [Bookmark.mk id (orElse (Some (textContent link)) "Untitled")
          (orElse (getAttribute "href" link) "") None None None None])
    (parsedFolders p) r.

(** [processNode(node, currentFolderId)]. Each call descends to a list
    inside [node]; [fuel] bounds the depth, and the height of the document
    is enough of it. *)
Fixpoint processNode (fuel : nat) (node : Node) (currentFolderId : option string)
    (p : Parsed) : Parsed :=
  match fuel with
  | O => p
  | S fuel =>
      let p1 := fold_left (pushLink currentFolderId)
                          (snd <$> scopeDtChildren "a" node) p in
      fold_left (λ p dt_h3,
          let '(folderId, r) := randomId (parsedRand p) in
          let p' := mkParsed (parsedBookmarks p)
                      (parsedFolders p ++
                         [Folder.mk folderId (orElse (Some (textContent dt_h3.2)) "New Folder")
                                    currentFolderId])
                      r in
          match querySelector "dl" (childNodes dt_h3.1) with
          | Some nextDl => processNode fuel nextDl (Some folderId) p'
          | None => p'
          end)
        (scopeDtChildren "h3" node) p1
  end.

(** The library read from a document. *)
Definition parseDocument (r : Rand) (doc : list Node) : BookmarkLibrary :=
  let p :=
    match querySelector "dl" doc with
    | Some rootDl => processNode (S (height rootDl)) rootDl None (mkParsed [] [] r)
    | None => fold_left pushFlatLink (querySelectorAll "a" doc) (mkParsed [] [] r)
    end in
  {| bookmarks := parsedBookmarks p; folders := parsedFolders p |}.

Definition parseBookmarksHTML (r : Rand) (html : string) : BookmarkLibrary :=
  parseDocument r (parseFromString html).

(** ** Plain objects used as dictionaries

    [const m: Record<string, T> = {}] is an object whose prototype is
    [Object.prototype]. The model keeps its own properties in a [gmap];
    [m[k]] is the own property [k] when there is one, else what the
    prototype defines under [k], else [undefined]. These are the names
    the prototype defines. *)
Definition prototypeNames : list string :=
  [ "constructor"; "__defineGetter__"; "__defineSetter__"; "hasOwnProperty";
    "__lookupGetter__"; "__lookupSetter__"; "isPrototypeOf"; "propertyIsEnumerable";
    "toString"; "valueOf"; "__proto__"; "toLocaleString" ].

Definition inherited (k : string) : bool := elem k prototypeNames.

(** What [m[k]] evaluates to: an own property, a function of the prototype
    (for [__proto__], the prototype itself), or [undefined]. *)
Inductive Property (A : Type) :=
| Own (a : A)
| Inherited (name : string)
| Absent.

Arguments Own {A}.
Arguments Inherited {A}.
Arguments Absent {A}.

Definition getProperty {A} (m : gmap string A) (k : string) : Property A :=
  match m !! k with
  | Some a => Own a
  | None => if inherited k then Inherited k else Absent
  end.

(** [m[k] = v] for a string [v]: under [__proto__] the assignment calls the
    setter of the prototype, which ignores a value that is no object. *)
Definition setProperty (m : gmap string string) (k v : string) : gmap string string :=
  if String.eqb k "__proto__" then m else <[k := v]> m.

(** The [length] of what the prototype defines under [name]: the number of
    parameters of the function; the prototype itself has none. *)
Definition inheritedLength (name : string) : option nat :=
  if String.eqb name "__proto__" then None
  else if elem name ["toString"; "valueOf"; "toLocaleString"] then Some 0
  else if elem name ["__defineGetter__"; "__defineSetter__"] then Some 2
  else Some 1.

(** A value that a lookup leaves in [resolvedTargetId]. *)
Inductive Value :=
| VString (s : string)
| VInherited (name : string)
| VUndefined.

Definition truthyValue (v : Value) : bool :=
  match v with
  | VString s => truthy s
  | VInherited _ => true
  | VUndefined => false
  end.

(** [`${v}`]: a function of the prototype prints as the engine of the host
    prints a native function, the prototype itself as an object. *)
Definition valueText (v : Value) : string :=
  match v with
  | VString s => s
  | VInherited name =>
      if String.eqb name "__proto__" then "[object Object]"
      else "function " +:+ (if String.eqb name "constructor" then "Object" else name)
           +:+ "() { [native code] }"
  | VUndefined => "undefined"
  end.

(** ** The auto-sort listener ([background/index.ts])

    The host's bookmark tree, as [chrome.bookmarks.getTree] returns it. A
    node without a URL is a folder; [children] may be absent. *)
#[warnings="-register-all"]
Inductive BookmarkTreeNode :=
| TreeNode (id title : string) (url : option string)
           (children : option (list BookmarkTreeNode)).

(** The state [traverse] fills: the folders of the context library and the
    own properties of [folderNameMap]. *)
Record FolderIndex := mkIndex {
  indexFolders : list Folder.t;
  folderNameMap : gmap string (list string)
}.

(** [traverse(node, parentId)]. [None] is the [TypeError] of
    [folderNameMap[node.title].push] when the title is a name of the
    prototype: the lookup is truthy, no array is made, and what it gives
    has no [push]. *)
Fixpoint traverse (node : BookmarkTreeNode) (parentId : option string)
    (ix : FolderIndex) : option FolderIndex :=
  match node with
  | TreeNode id title url children =>
      ix1 ← (if negb (truthy_opt url) && negb (String.eqb id "0") then
               let folders := indexFolders ix ++ [Folder.mk id title parentId] in
               match getProperty (folderNameMap ix) title with
               | Own ids => Some (mkIndex folders (<[title := ids ++ [id]]> (folderNameMap ix)))
               | Absent => Some (mkIndex folders (<[title := [id]]> (folderNameMap ix)))
               | Inherited _ => None
               end
             else Some ix);
      match children with
      | Some cs =>
          fold_left (λ acc child,
                       ix' ← acc;
                       traverse child (if String.eqb id "0" then None else Some id) ix')
                    cs (Some ix1)
      | None => Some ix1
      end
  end.

(** [tree.forEach(node => traverse(node))] *)
Definition buildIndex (tree : list BookmarkTreeNode) : option FolderIndex :=
  fold_left (λ acc node, ix ← acc; traverse node None ix) tree (Some (mkIndex [] ∅)).

(** What [chrome.bookmarks.move] does: the new store, or the error it
    throws, as [`${e}`] prints it. *)
Inductive MoveResult (H : Type) :=
| Moved (h : H)
| MoveFailed (e : string).

Arguments Moved {H}.
Arguments MoveFailed {H}.

(** The host's bookmark store, as far as the listener uses it. For
    [create], [None] is a call that throws. *)
Class BookmarksApi (H : Type) := {
  create : H -> string -> string -> option (string * H);
  move : H -> string -> Value -> MoveResult H
}.

(** The store after a move, [h] if it failed. *)
Definition afterMove {H} (h : H) (m : MoveResult H) : H :=
  match m with
  | Moved h' => h'
  | MoveFailed _ => h
  end.

(** The lines the listener writes to the console. *)
Inductive LogLine :=
| ConsoleLog (msg : string)
| ConsoleWarn (msg : string)
| ConsoleError (msg : string).

(** The state of one run of the listener: the own properties of
    [createdFolders], the host's store and the console. *)
Record Session (H : Type) := mkSession {
  createdFolders : gmap string string;
  host : H;
  console : list LogLine
}.

Arguments mkSession {H}.
Arguments createdFolders {H}.
Arguments host {H}.
Arguments console {H}.

(** The warning of an ambiguous name. *)
Definition ambiguousWarning (target : string) (ids : list string) : LogLine :=
  ConsoleWarn ("Ambiguous folder name " +:+ dquote +:+ target +:+ dquote +:+
               " found multiple times: " +:+ join ", " ids +:+ ". Using the first one.").

(** [ids[0]] *)
Definition firstOf (ids : list string) : Value :=
  match ids with
  | id :: _ => VString id
  | [] => VUndefined
  end.

(** The resolution of [targetFolderId], with the warning it may write.
    [None] is the [TypeError] of [ids.join] when [folderNameMap[target]] is
    something of the prototype whose [length] is not 1; when it is 1,
    [ids[0]] is [undefined]. *)
Definition resolveTarget (created : gmap string string)
    (names : gmap string (list string)) (targetFolderId : string)
  : option (Value * list LogLine) :=
  let fromNames :=
    match getProperty names targetFolderId with
    | Own ids =>
        if length ids =? 1 then Some (firstOf ids, [])
        else Some (firstOf ids, [ambiguousWarning targetFolderId ids])
    | Inherited name =>
        match inheritedLength name with
        | Some 1 => Some (VUndefined, [])
        | _ => None
        end
    | Absent => Some (VString targetFolderId, [])
    end in
  match getProperty created targetFolderId with
  | Own id => if truthy id then Some (VString id, []) else fromNames
  | Inherited name => Some (VInherited name, [])
  | Absent => fromNames
  end.

(** The callback the listener hands to [processCommand], for the bookmark
    [bookmarkId] titled [bookmarkTitle] that was just added. [None] is a
    callback that throws: a failed [chrome.bookmarks.create] and the
    [TypeError] of the resolution are not caught there. *)
Definition onAction {H} `{BookmarksApi H} (bookmarkId bookmarkTitle : string)
    (names : gmap string (list string)) (s : Session H) (action : Action)
  : option (Session H) :=
  match action with
  | CREATE_FOLDER name parentId =>
      let safeParentId := orElse parentId "1" in
      match create (host s) name safeParentId with
      | Some (newId, h) =>
          Some (mkSession (setProperty (createdFolders s) name newId) h
                  (console s ++
                     [ConsoleLog ("Created folder " +:+ name +:+ " with ID " +:+ newId)]))
      | None => None
      end
  | MOVE_BOOKMARKS bookmarkIds targetFolderId =>
      match resolveTarget (createdFolders s) names targetFolderId with
      | None => None
      | Some (resolvedTargetId, warnings) =>
          let out := console s ++ warnings in
          if includes bookmarkIds bookmarkId && truthyValue resolvedTargetId then
            match move (host s) bookmarkId resolvedTargetId with
            | Moved h =>
                Some (mkSession (createdFolders s) h
                        (out ++ [ConsoleLog ("Moved bookmark " +:+ bookmarkTitle +:+
                                             " to folder " +:+ valueText resolvedTargetId)]))
            | MoveFailed e =>
                Some (mkSession (createdFolders s) (host s)
                        (out ++ [ConsoleError ("Failed to move bookmark to " +:+
                                               valueText resolvedTargetId +:+ ": " +:+ e)]))
            end
          else
            Some (mkSession (createdFolders s) (host s)
                    (out ++ [ConsoleWarn ("Could not resolve target folder ID for " +:+
                                          dquote +:+ targetFolderId +:+ dquote +:+
                                          " or bookmark ID not found.")]))
      end
  end.

(** The folders of the tree in pre-order (the root [0] left out), each with
    its identifier and title: the order of the specification. *)
Fixpoint preorder (node : BookmarkTreeNode) : list (string * string) :=
  match node with
  | TreeNode id title url children =>
      (if negb (truthy_opt url) && negb (String.eqb id "0") then [(id, title)] else []) ++
      match children with
      | Some cs => flat_map preorder cs
      | None => []
      end
  end.

(** The identifiers of the folders titled [name], in pre-order. *)
Definition idsNamed (name : string) (tree : list BookmarkTreeNode) : list string :=
  fst <$> List.filter (λ p, String.eqb p.2 name) (flat_map preorder tree).

(** A host for the examples: the folders it holds, the parent of each
    bookmark, and the identifiers it hands out. Both calls throw on a parent
    that is no folder of the store. *)
Record SimpleHost := mkHost {
  hostFolders : list string;
  hostParents : gmap string string;
  hostNext : nat
}.

Definition hostId (n : nat) : string := String (ascii_of_nat (48 + n)) "".

#[global] Instance simpleHostApi : BookmarksApi SimpleHost := {
  create h title parentId :=
    if elem parentId (hostFolders h)
    then Some (hostId (hostNext h),
               mkHost (hostFolders h ++ [hostId (hostNext h)]) (hostParents h)
                      (S (hostNext h)))
    else None;
  move h id parentId :=
    match parentId with
    | VString p =>
        if elem p (hostFolders h)
        then Moved (mkHost (hostFolders h) (<[id := p]> (hostParents h)) (hostNext h))
        else MoveFailed "Error: Can't find parent bookmark for id."
    | _ => MoveFailed "TypeError: Error in invocation of bookmarks.move"
    end
}.

(** The index holds the folders [acc], listed in the order they were met. *)
Definition indexHolds (acc : list (string * string)) (names : gmap string (list string)) : Prop :=
  ∀ name, names !! name =
    match fst <$> List.filter (λ p, String.eqb p.2 name) acc with
    | [] => None
    | ids => Some ids
    end.

(** Two folders named Dev, the first under the bookmarks bar. *)
Definition twoDevs : list BookmarkTreeNode :=
  [ TreeNode "0" "" None (Some
      [ TreeNode "1" "Bookmarks bar" None (Some
          [ TreeNode "5" "Dev" None (Some []);
            TreeNode "6" "News" (Some "http://news.example") None ]);
        TreeNode "2" "Other" None (Some
          [ TreeNode "7" "Dev" None (Some []) ]) ]) ].

(** A tree with a folder titled with a name of the prototype. *)
Definition constructorTree : list BookmarkTreeNode :=
  [ TreeNode "0" "" None (Some
      [ TreeNode "1" "Bookmarks bar" None (Some
          [ TreeNode "5" "constructor" None (Some []) ]) ]) ].

(** A truthy look-up. *)
Definition truthyProperty (p : Property string) : bool :=
  match p with
  | Own s => truthy s
  | Inherited _ => true
  | Absent => false
  end.

(** ** The earlier auto-sort listener (the first [background/index.ts])

    Its index keeps one identifier per name, and [traverse] descends only
    into the nodes it collects. *)
Module Earlier.

Record FolderIndex := mkIndex {
  indexFolders : list Folder.t;
  folderNameMap : gmap string string
}.

Fixpoint traverse (node : BookmarkTreeNode) (parentId : option string)
    (ix : FolderIndex) : FolderIndex :=
  match node with
  | TreeNode id title url children =>
      if negb (truthy_opt url) && negb (String.eqb id "0") then
        let ix1 :=
          mkIndex (indexFolders ix ++ [Folder.mk id title parentId])
                  (setProperty (folderNameMap ix) title id) in
        match children with
        | Some cs =>
            fold_left (λ ix child,
                         traverse child (if String.eqb id "0" then None else Some id) ix)
                      cs ix1
        | None => ix1
        end
      else ix
  end.

(** [tree.forEach(node => traverse(node))] *)
Definition buildIndex (tree : list BookmarkTreeNode) : FolderIndex :=
  fold_left (λ ix node, traverse node None ix) tree (mkIndex [] ∅).

(** The value of [resolvedTargetId] after the two look-ups. *)
Definition resolveTarget (created names : gmap string string) (targetFolderId : string)
  : Value :=
  let fromNames :=
    match getProperty names targetFolderId with
    | Own id => if truthy id then VString id else VString targetFolderId
    | Inherited name => VInherited name
    | Absent => VString targetFolderId
    end in
  match getProperty created targetFolderId with
  | Own id => if truthy id then VString id else fromNames
  | Inherited name => VInherited name
  | Absent => fromNames
  end.

(** The callback handed to [processCommand]. A move whose list does not
    hold the new bookmark does nothing, and writes nothing. *)
Definition onAction {H} `{BookmarksApi H} (bookmarkId bookmarkTitle : string)
    (names : gmap string string) (s : Session H) (action : Action)
  : option (Session H) :=
  match action with
  | CREATE_FOLDER name parentId =>
      let safeParentId := orElse parentId "1" in
      match create (host s) name safeParentId with
      | Some (newId, h) =>
          Some (mkSession (setProperty (createdFolders s) name newId) h
                  (console s ++
                     [ConsoleLog ("Created folder " +:+ name +:+ " with ID " +:+ newId)]))
      | None => None
      end
  | MOVE_BOOKMARKS bookmarkIds targetFolderId =>
      let resolvedTargetId := resolveTarget (createdFolders s) names targetFolderId in
      if includes bookmarkIds bookmarkId then
        match move (host s) bookmarkId resolvedTargetId with
        | Moved h =>
            Some (mkSession (createdFolders s) h
                    (console s ++
                       [ConsoleLog ("Moved bookmark " +:+ bookmarkTitle +:+
                                    " to folder " +:+ valueText resolvedTargetId)]))
        | MoveFailed e =>
            Some (mkSession (createdFolders s) (host s)
                    (console s ++
                       [ConsoleError ("Failed to move bookmark to " +:+
                                      valueText resolvedTargetId +:+ ": " +:+ e)]))
        end
      else Some s
  end.

End Earlier.

(** The identifier of a node of the host's tree. *)
Definition nodeId (node : BookmarkTreeNode) : string :=
  match node with
  | TreeNode id _ _ _ => id
  end.

(** The identifier and the name of a folder of the context library. *)
Definition folderEntry (f : Folder.t) : string * string := (Folder.id f, Folder.name f).

(** No folder is the root [0], and none has it as its parent. *)
Definition offRoot (f : Folder.t) : Prop :=
  Folder.id f ≠ "0" ∧ Folder.parentId f ≠ Some "0".

(** No folder of the list bears a name of the prototype. *)
Definition plainNames (acc : list (string * string)) : bool :=
  forallb (λ p, negb (inherited p.2)) acc.

(** What [traverse] has built once it has met the folders [acc]. *)
Definition indexed (acc : list (string * string)) (ix : FolderIndex) : Prop :=
  indexHolds acc (folderNameMap ix) ∧
  folderEntry <$> indexFolders ix = acc ∧
  Forall offRoot (indexFolders ix) ∧
  plainNames acc = true.

(** *** The vocabulary of the specification for the serializer

    The escape of one character, as the specification lists them. *)
Definition escapeChar (c : ascii) : string :=
  if Ascii.eqb c "&" then "&amp;"
  else if Ascii.eqb c "<" then "&lt;"
  else if Ascii.eqb c ">" then "&gt;"
  else if Ascii.eqb c "034" then "&quot;"
  else if Ascii.eqb c "'" then "&#039;"
  else String c "".

(** Each character replaced by its escape. *)
Fixpoint escapeSpec (s : string) : string :=
  match s with
  | EmptyString => EmptyString
  | String c rest => escapeChar c +:+ escapeSpec rest
  end.

(** The characters of [s] that delimit markup: [<], [>] and the two
    quotes. *)
Fixpoint markup (s : string) : string :=
  match s with
  | EmptyString => EmptyString
  | String c rest =>
      if Ascii.eqb c "<" || Ascii.eqb c ">" || Ascii.eqb c "034" || Ascii.eqb c "'"
      then String c (markup rest) else markup rest
  end.

(** [rest] starts with the tail of one of the five references. *)
Definition startsEntity (rest : string) : bool :=
  String.prefix "amp;" rest || String.prefix "lt;" rest || String.prefix "gt;" rest
  || String.prefix "quot;" rest || String.prefix "#039;" rest.

(** Every ampersand of [s] starts one of the five references. *)
Fixpoint ampsOk (s : string) : bool :=
  match s with
  | EmptyString => true
  | String c rest => (if Ascii.eqb c "&" then startsEntity rest else true) && ampsOk rest
  end.

(** The library with every text emptied: names, titles and addresses are
    empty, and a date or an icon that is written is the letter x. The
    identifiers and the references between them are kept. *)
Definition blankOpt (o : option string) : option string :=
  if truthy_opt o then Some "x" else None.

Definition blankBookmark (b : Bookmark.t) : Bookmark.t :=
  Bookmark.mk (Bookmark.id b) "" "" (blankOpt (Bookmark.addDate b))
              (blankOpt (Bookmark.icon b)) (Bookmark.tags b) (Bookmark.folder b).

Definition blankFolder (f : Folder.t) : Folder.t :=
  Folder.mk (Folder.id f) "" (Folder.parentId f).

Definition blankLibrary (library : BookmarkLibrary) : BookmarkLibrary :=
  {| bookmarks := blankBookmark <$> bookmarks library;
     folders := blankFolder <$> folders library |}.

(** The folder identifier [id] is reachable from the root: it is the
    identifier of a folder whose parent is absent or reachable. *)
Inductive reachable (library : BookmarkLibrary) : string -> Prop :=
| reachable_root f :
    f ∈ folders library -> Folder.parentId f = None ->
    reachable library (Folder.id f)
| reachable_child f p :
    f ∈ folders library -> Folder.parentId f = Some p -> reachable library p ->
    reachable library (Folder.id f).

(** The contexts [renderItems] is called with: the root, or a reachable
    folder. *)
Definition rendered (library : BookmarkLibrary) (parentId : option string) : Prop :=
  match parentId with
  | None => True
  | Some p => reachable library p
  end.

(** Two optional documents with the same markup characters, the first
    with well-formed references. *)
Definition sameMarkup (o o0 : option string) : Prop :=
  match o, o0 with
  | Some a, Some b => markup a = markup b ∧ ampsOk a = true
  | None, None => True
  | _, _ => False
  end.

Definition danglingLibrary : BookmarkLibrary :=
  {| bookmarks := [ Bookmark.mk "b1" "Kept" "http://a.example" None None None None;
                    Bookmark.mk "b2" "Lost" "http://b.example" None None None (Some "gone") ];
     folders := [ Folder.mk "f1" "Dev" None ] |}.

(** The bookmark of the fallback for the link [link], with identifier [id]. *)
Definition flatBookmark (id : string) (link : Node) : Bookmark.t :=
  Bookmark.mk id (orElse (Some (textContent link)) "Untitled")
              (orElse (getAttribute "href" link) "") None None None None.

(** ** The round trip: vocabulary

    The tree [renderItems] unfolds from a context: the folders whose parent
    is the context, each with its own tree, then the bookmarks of the
    context. *)
#[warnings="-register-all"]
Inductive Item :=
| IFolder (f : Folder.t) (inner : list Item)
| IBookmark (b : Bookmark.t).

Fixpoint itemsOf (fuel : nat) (library : BookmarkLibrary) (parentId : option string)
  : option (list Item) :=
  match fuel with
  | O => None
  | S fuel =>
      fs ← mapM (λ f, inner ← itemsOf fuel library (Some (Folder.id f));
                      Some (IFolder f inner))
                (filter (λ f, Folder.parentId f = parentId) (folders library));
      Some (fs ++ (IBookmark <$> filter (λ b, Bookmark.folder b = parentId)
                                        (bookmarks library)))
  end.

(** The text of an item at the indentation [indent]. *)
Fixpoint renderItem (indent : nat) (it : Item) : string :=
  match it with
  | IFolder f inner =>
      folderOpen (repeat_string " " indent) f +:+
      concat (map (renderItem (indent + 4)) inner) +:+
      folderClose (repeat_string " " indent)
  | IBookmark b => bookmarkLine (repeat_string " " indent) b
  end.

(** The tokenizer run over a piece of input: the state it ends in and the
    tokens it has emitted. *)
Fixpoint tokRun (st : TState) (s : string) : TState * list Token :=
  match s with
  | EmptyString => (st, [])
  | String c rest =>
      let '(st1, out1) := tokStep st c in
      let '(st2, out2) := tokRun st1 rest in
      (st2, out1 ++ out2)
  end.

(** A piece of input that the tokenizer reads from the data state back to
    the data state. *)
Definition tokenizes (s : string) (toks : list Token) : Prop :=
  tokRun (SText None) s = (SText None, toks).

(** An optional attribute of a link, as the tokenizer reads it. *)
Definition optTokenAttr (name : string) (v : option string) : list (string * string) :=
  match v with
  | Some s => if truthy s then [(name, s)] else []
  | None => []
  end.

Definition linkAttrs (b : Bookmark.t) : list (string * string) :=
  [("href", Bookmark.url b)] ++ optTokenAttr "add_date" (Bookmark.addDate b)
  ++ optTokenAttr "icon" (Bookmark.icon b).

(** The tokens of an item. *)
Fixpoint itemTokens (indent : nat) (it : Item) : list Token :=
  match it with
  | IFolder f inner =>
      chars (repeat_string " " indent) ++
      [TStartTag "dt" [] false; TStartTag "h3" [] false] ++
      chars (Folder.name f) ++ [TEndTag "h3"] ++
      chars (newline +:+ repeat_string " " indent) ++
      [TStartTag "dl" [] false; TStartTag "p" [] false] ++ chars newline ++
      flat_map (itemTokens (indent + 4)) inner ++
      chars (repeat_string " " indent) ++
      [TEndTag "dl"; TStartTag "p" [] false] ++ chars newline
  | IBookmark b =>
      chars (repeat_string " " indent) ++
      [TStartTag "dt" [] false; TStartTag "a" (linkAttrs b) false] ++
      chars (Bookmark.title b) ++ [TEndTag "a"] ++ chars newline
  end.

(** A text without a null character and without a carriage return: the two
    characters the HTML parser does not hand over unchanged. *)
Definition plainText (s : string) : Prop :=
  occurs "000" s = false ∧ occurs "013" s = false.

Definition plainOpt (o : option string) : Prop :=
  match o with
  | Some s => plainText s
  | None => True
  end.

Definition plainBookmark (b : Bookmark.t) : Prop :=
  plainText (Bookmark.title b) ∧ plainText (Bookmark.url b) ∧
  plainOpt (Bookmark.addDate b) ∧ plainOpt (Bookmark.icon b).

Definition plainFolder (f : Folder.t) : Prop := plainText (Folder.name f).

(** Every text of the items is plain. *)
Fixpoint plainItem (it : Item) : Prop :=
  match it with
  | IFolder f inner =>
      plainFolder f ∧
      (fix all (l : list Item) : Prop :=
         match l with
         | [] => True
         | i :: rest => plainItem i ∧ all rest
         end) inner
  | IBookmark b => plainBookmark b
  end.

Definition renderTree (indent : nat) (items : list Item) : string :=
  concat (map (renderItem indent) items).

(** *** The document of an exported library

    The children of an element whose content is the text [s]. *)
Definition textKids (s : string) : list Node :=
  match s with
  | EmptyString => []
  | _ => [Text s]
  end.

(** The element of a list that is still open while the parser reads the
    next item: the [p] that follows the start of the list, the [dt] of a
    folder with the [p] that follows its list, or the [dt] of a link. Each
    ends in a text node, which takes the white space up to the next tag. *)
Inductive OpenItem :=
| OpenP
| OpenFolder (dtKids : list Node)
| OpenLink (a : Node).

Definition openFrames (o : OpenItem) (t : string) : list Frame :=
  match o with
  | OpenP => [mkFrame "p" [] [Text t]]
  | OpenFolder dtKids => [mkFrame "p" [] [Text t]; mkFrame "dt" [] dtKids]
  | OpenLink a => [mkFrame "dt" [] [Text t; a]]
  end.

(** The node the open item becomes once the next item, or the end of the
    list, closes it. *)
Definition closedItem (o : OpenItem) (t : string) : Node :=
  match o with
  | OpenP => Element "p" [] [Text t]
  | OpenFolder dtKids => Element "dt" [] (rev (Element "p" [] [Text t] :: dtKids))
  | OpenLink a => Element "dt" [] [a; Text t]
  end.

Definition linkNode (b : Bookmark.t) : Node :=
  Element "a" (linkAttrs b) (textKids (Bookmark.title b)).

Definition headingNode (f : Folder.t) : Node :=
  Element "h3" [] (textKids (Folder.name f)).

(** A list under construction: its open item, the text that ends it, and
    the children already closed, the latest first. *)
Record ListState := mkList {
  lopen : OpenItem;
  ltext : string;
  lkids : list Node
}.

(** The list element, once the text [space] and [</DL>] have been read. *)
Definition closeList (space : string) (s : ListState) : Node :=
  Element "dl" [] (rev (closedItem (lopen s) (ltext s +:+ space) :: lkids s)).

(** The open item an item leaves behind. *)
Fixpoint openOf (indent : nat) (it : Item) : OpenItem :=
  match it with
  | IBookmark b => OpenLink (linkNode b)
  | IFolder f inner =>
      let space := repeat_string " " indent in
      let inside :=
        (fix go (l : list Item) (s : ListState) : ListState :=
           match l with
           | [] => s
           | i :: l' =>
               go l' (mkList (openOf (indent + 4) i) newline
                        (closedItem (lopen s)
                           (ltext s +:+ repeat_string " " (indent + 4)) :: lkids s))
           end) inner (mkList OpenP newline []) in
      OpenFolder [closeList space inside; Text (newline +:+ space); headingNode f]
  end.

(** Reading an item closes the open item of the list and opens its own. *)
Definition listStep (indent : nat) (s : ListState) (it : Item) : ListState :=
  mkList (openOf indent it) newline
         (closedItem (lopen s) (ltext s +:+ repeat_string " " indent) :: lkids s).

Definition listState (indent : nat) (items : list Item) : ListState :=
  fold_left (listStep indent) items (mkList OpenP newline []).

(** The [dl] element of the items [items], written at [indent] inside a
    list whose closing tag is indented by [space]. *)
Definition listNode (indent : nat) (space : string) (items : list Item) : Node :=
  closeList space (listState indent items).

(** The stack of open elements while a list is read. *)
Definition listFrames (s : ListState) (rest : list Frame) : list Frame :=
  openFrames (lopen s) (ltext s) ++ mkFrame "dl" [] (lkids s) :: rest.

(** The tokens of the header of an exported file, and the tree builder
    once it has read them: the root list is open, with the [p] that
    follows its start tag. *)
Definition headerTokens : list Token := (tokRun (SText None) exportHeader).2.

Definition headerBuilder : Builder :=
  fold_left treeStep headerTokens (mkBuilder Initial [] []).

(** The open elements below the root list: [body] and [html]. *)
Definition headerFrames : list Frame := drop 2 (stack headerBuilder).

(** The document of an exported file whose items are [items]: the header,
    the root list and the [p] that follows its end tag. *)
Definition exportedDocument (items : list Item) : list Node :=
  finish (mkBuilder InBody
            (insertElement "p" []
               match headerFrames with
               | g :: rest => addKid (listNode 4 "" items) g :: rest
               | [] => []
               end)
            (docKids headerBuilder)).

(** No [p] element is open in the frames [rest]. *)
Definition noOpenP (rest : list Frame) : Prop :=
  inScope (String.eqb "p") buttonBoundary rest = false.

(** The children of a list element, first to last: each item is closed
    with the white space that precedes the next one, the last with
    [space]. *)
Fixpoint trailFrom (indent : nat) (space : string) (o : OpenItem) (t : string)
    (items : list Item) : list Node :=
  match items with
  | [] => [closedItem o (t +:+ space)]
  | i :: rest =>
      closedItem o (t +:+ repeat_string " " indent)
      :: trailFrom indent space (openOf indent i) newline rest
  end.

(** What [processNode] reads of a match of [:scope > dt > h3]: the text
    of the heading and the first list inside its [dt]. *)
Definition headingView (dt_h3 : Node * Node) : string * option Node :=
  (textContent dt_h3.2, querySelector "dl" (childNodes dt_h3.1)).

(** The matches of [:scope > dt > tag] that the child [n] contributes. *)
Definition dtMatches (tag : string) (n : Node) : list (Node * Node) :=
  if isElement "dt" n
  then (λ x, (n, x)) <$> List.filter (isElement tag) (childNodes n)
  else [].

Definition bookmarksIn (items : list Item) : list Bookmark.t :=
  flat_map (λ it, match it with IBookmark b => [b] | IFolder _ _ => [] end) items.

(** The bookmark the parser makes of the exported bookmark [b]. *)
Definition pushBookmark (currentFolderId : option string) (p : Parsed) (b : Bookmark.t)
  : Parsed :=
  let '(id, r) := randomId (parsedRand p) in
  mkParsed
    (parsedBookmarks p ++
       [Bookmark.mk id (Bookmark.title b) (Bookmark.url b) (Bookmark.addDate b)
                    (Bookmark.icon b) None currentFolderId])
    (parsedFolders p) r.

(** [processNode] in terms of the items: the bookmarks of the list, then
    each folder, followed by its own list. *)
Fixpoint walkItem (it : Item) (currentFolderId : option string) (p : Parsed) : Parsed :=
  match it with
  | IBookmark _ => p
  | IFolder f inner =>
      let '(folderId, r) := randomId (parsedRand p) in
      let p' := mkParsed (parsedBookmarks p)
                  (parsedFolders p ++ [Folder.mk folderId (Folder.name f) currentFolderId])
                  r in
      (fix go (l : list Item) (p : Parsed) : Parsed :=
         match l with
         | [] => p
         | i :: l' => go l' (walkItem i (Some folderId) p)
         end) inner (fold_left (pushBookmark (Some folderId)) (bookmarksIn inner) p')
  end.

Definition walkList (items : list Item) (currentFolderId : option string) (p : Parsed)
  : Parsed :=
  fold_left (λ p i, walkItem i currentFolderId p) items
            (fold_left (pushBookmark currentFolderId) (bookmarksIn items) p).

(** The depth of the folders of an item. *)
Fixpoint itemDepth (it : Item) : nat :=
  match it with
  | IBookmark _ => 0
  | IFolder _ inner => S (list_max (map itemDepth inner))
  end.

(** A bookmark the file represents exactly: its title is not empty, and
    its date and its icon are absent or not empty. *)
Definition faithfulBookmark (b : Bookmark.t) : Prop :=
  truthy (Bookmark.title b) = true ∧ Bookmark.addDate b ≠ Some "" ∧
  Bookmark.icon b ≠ Some "".

Definition faithfulFolder (f : Folder.t) : Prop := truthy (Folder.name f) = true.

Fixpoint faithfulItem (it : Item) : Prop :=
  match it with
  | IFolder f inner =>
      faithfulFolder f ∧
      (fix all (l : list Item) : Prop :=
         match l with
         | [] => True
         | i :: rest => faithfulItem i ∧ all rest
         end) inner
  | IBookmark b => faithfulBookmark b
  end.

(** The link of an item, if it is a bookmark. *)
Definition linkOf (it : Item) : list Node :=
  match it with
  | IBookmark b => [linkNode b]
  | IFolder _ _ => []
  end.

(** What [processNode] reads of an item, if it is a folder: its name and
    its list. *)
Definition headingOf (indent : nat) (it : Item) : list (string * option Node) :=
  match it with
  | IBookmark _ => []
  | IFolder f inner =>
      [(textContent (headingNode f),
        Some (listNode (indent + 4) (repeat_string " " indent) inner))]
  end.

(** One call of [processNode], in terms of what it reads of its matches. *)
Definition pushHeading (fuel : nat) (currentFolderId : option string) (p : Parsed)
    (v : string * option Node) : Parsed :=
  let '(folderId, r) := randomId (parsedRand p) in
  let p' := mkParsed (parsedBookmarks p)
              (parsedFolders p ++
                 [Folder.mk folderId (orElse (Some v.1) "New Folder") currentFolderId])
              r in
  match v.2 with
  | Some nextDl => processNode fuel nextDl (Some folderId) p'
  | None => p'
  end.

(** *** The hierarchy of a library *)

(** The folder that bears the identifier [x]: the first one. *)
Definition findFolder (library : BookmarkLibrary) (x : string) : option Folder.t :=
  List.find (λ f, String.eqb (Folder.id f) x) (folders library).

(** The context above a context: the root has none, and a folder has the
    one its [parentId] names. *)
Definition parentOf (library : BookmarkLibrary) (c : option string)
  : option (option string) :=
  match c with
  | None => None
  | Some x => Folder.parentId <$> findFolder library x
  end.

(** The context [k] levels above [c]. *)
Fixpoint up (library : BookmarkLibrary) (k : nat) (c : option string)
  : option (option string) :=
  match k with
  | O => Some c
  | S k => up library k c ≫= parentOf library
  end.

(** The context [ctx] is less than [n] levels above [c]. *)
Definition within (library : BookmarkLibrary) (n : nat) (ctx c : option string) : bool :=
  existsb (λ k, bool_decide (up library k c = Some ctx)) (seq 0 n).

(** The folders below [ctx] are less than [n] levels below it. *)
Definition bounded (library : BookmarkLibrary) (n : nat) (ctx : option string) : Prop :=
  ∀ f k, f ∈ folders library → up library k (Folder.parentId f) = Some ctx → k < n.

(** The folders whose parent is the context [ctx]. *)
Definition children (library : BookmarkLibrary) (ctx : option string) : list Folder.t :=
  filter (λ f, Folder.parentId f = ctx) (folders library).

(** The folders and the bookmarks of an item. *)
Fixpoint itemFolders (it : Item) : list Folder.t :=
  match it with
  | IFolder f inner => f :: flat_map itemFolders inner
  | IBookmark _ => []
  end.

Fixpoint itemBookmarks (it : Item) : list Bookmark.t :=
  match it with
  | IFolder _ inner => flat_map itemBookmarks inner
  | IBookmark b => [b]
  end.

(** An item of the tree of the context [ctx]: a bookmark of that context,
    or a folder whose parent it is, with the items of the folder. *)
Fixpoint consistent (ctx : option string) (it : Item) : Prop :=
  match it with
  | IBookmark b => Bookmark.folder b = ctx
  | IFolder f inner =>
      Folder.parentId f = ctx ∧
      (fix all (l : list Item) : Prop :=
         match l with
         | [] => True
         | i :: rest => consistent (Some (Folder.id f)) i ∧ all rest
         end) inner
  end.

(** The bookmarks of the folders of an item. *)
Definition innerBookmarks (it : Item) : list Bookmark.t :=
  match it with
  | IFolder _ inner => flat_map itemBookmarks inner
  | IBookmark _ => []
  end.

(** How the parent of a parsed object relates to the parent of the object
    it was exported from: both are the contexts of the walk, or they are
    the two sides of a folder the walk has met. *)
Definition linked (FP : list (Folder.t * Folder.t)) (ctx cur old new : option string)
  : Prop :=
  (old = ctx ∧ new = cur) ∨
  ∃ fg, fg ∈ FP ∧ old = Some (Folder.id fg.1) ∧ new = Some (Folder.id fg.2).

Definition sameContent (b b' : Bookmark.t) : Prop :=
  Bookmark.title b' = Bookmark.title b ∧ Bookmark.url b' = Bookmark.url b ∧
  Bookmark.addDate b' = Bookmark.addDate b ∧ Bookmark.icon b' = Bookmark.icon b.

(** A part of the walk, from the state [p] to the state [p']: it has drawn
    [k] identifiers and appended the folders [FP.*2] and the bookmarks
    [BP.*2], made of the folders [FS] and the bookmarks [BS]. *)
Definition walks (ctx cur : option string) (p p' : Parsed)
    (FS : list Folder.t) (BS : list Bookmark.t) : Prop :=
  ∃ (FP : list (Folder.t * Folder.t)) (BP : list (Bookmark.t * Bookmark.t))
    (idx : list nat) (k : nat),
    parsedBookmarks p' = parsedBookmarks p ++ BP.*2 ∧
    parsedFolders p' = parsedFolders p ++ FP.*2 ∧
    (∀ n, parsedRand p' n = parsedRand p (k + n)) ∧
    FP.*1 ≡ₚ FS ∧ BP.*1 ≡ₚ BS ∧
    Forall (λ fg, Folder.name fg.2 = Folder.name fg.1 ∧
                  linked FP ctx cur (Folder.parentId fg.1) (Folder.parentId fg.2)) FP ∧
    Forall (λ bb, sameContent bb.1 bb.2 ∧
                  linked FP ctx cur (Bookmark.folder bb.1) (Bookmark.folder bb.2)) BP ∧
    NoDup idx ∧ Forall (λ i, i < k) idx ∧
    Folder.id <$> FP.*2 = parsedRand p <$> idx.

(** The renaming of the folder identifiers a walk has made. *)
Definition renaming (FP : list (Folder.t * Folder.t)) (x : string) : string :=
  match List.find (λ fg : Folder.t * Folder.t, String.eqb (Folder.id fg.1) x) FP with
  | Some fg => Folder.id fg.2
  | None => x
  end.

Definition renameFolder (ρ : string → string) (f : Folder.t) : Folder.t :=
  Folder.mk (ρ (Folder.id f)) (Folder.name f) (ρ <$> Folder.parentId f).

Definition renameBookmark (ρ : string → string) (b : Bookmark.t) : Bookmark.t :=
  Bookmark.mk (Bookmark.id b) (Bookmark.title b) (Bookmark.url b) (Bookmark.addDate b)
              (Bookmark.icon b) (Bookmark.tags b) (ρ <$> Bookmark.folder b).

(** What a file keeps of a bookmark: its title, its URL, its date, its
    icon and the folder it is in. *)
Definition bookmarkContent (b : Bookmark.t)
  : string * string * option string * option string * option string :=
  (Bookmark.title b, Bookmark.url b, Bookmark.addDate b, Bookmark.icon b,
   Bookmark.folder b).

(** A library a file represents exactly: the folder identifiers are
    distinct; every folder descends from the root, and every bookmark is at
    the root or in such a folder; no name and no title is empty, a date
    and an icon are absent or not empty, and no text holds a null character
    or a carriage return. *)
Record exportable (L : BookmarkLibrary) : Prop := mkExportable {
  exportable_ids : NoDup (Folder.id <$> folders L);
  exportable_folders : ∀ f, f ∈ folders L →
    reachable L (Folder.id f) ∧ faithfulFolder f ∧ plainFolder f;
  exportable_bookmarks : ∀ b, b ∈ bookmarks L →
    rendered L (Bookmark.folder b) ∧ faithfulBookmark b ∧ plainBookmark b
}.

(** An identifier generator that never repeats itself: the [n]-th
    identifier is [n + 1] times the letter i. *)
Definition tally : Rand := λ n, repeat_string "i" (S n).

(** The preconditions of the round trip as the specification words them. *)
Definition distinctSiblingNames (L : BookmarkLibrary) : Prop :=
  ∀ f g, f ∈ folders L → g ∈ folders L →
         Folder.parentId f = Folder.parentId g → Folder.name f = Folder.name g → f = g.

Definition noEmptyNames (L : BookmarkLibrary) : Prop :=
  (∀ f, f ∈ folders L → truthy (Folder.name f) = true) ∧
  (∀ b, b ∈ bookmarks L → truthy (Bookmark.title b) = true).

(** A proposal whose second assignment names a path that is no folder of
    the proposal. *)
Definition suggestion_example : Suggestion.t :=
  Suggestion.mk [Suggestion.mkFolder "Dev" "Development"]
    [Suggestion.mkAssignment "b1" "Dev"; Suggestion.mkAssignment "b2" "Misc"]
    "by topic".

(** What a part of a parse has added to the two arrays, from the state [p]
    to the state [p'], under the folder [cur]: [k] identifiers drawn, one
    for each object pushed; each bookmark in [cur] or in a folder pushed by
    this part; each folder in [cur] or in a folder pushed before it. *)
Definition reads (cur : option string) (p p' : Parsed) : Prop :=
  ∃ (bs : list Bookmark.t) (fs : list Folder.t),
    parsedBookmarks p' = parsedBookmarks p ++ bs ∧
    parsedFolders p' = parsedFolders p ++ fs ∧
    (∀ n, parsedRand p' n = parsedRand p (length bs + length fs + n)) ∧
    (Bookmark.id <$> bs) ++ (Folder.id <$> fs)
      ≡ₚ parsedRand p <$> seq 0 (length bs + length fs) ∧
    (∀ b, b ∈ bs → Bookmark.folder b = cur ∨
                   ∃ g, g ∈ fs ∧ Bookmark.folder b = Some (Folder.id g)) ∧
    (∀ i f, fs !! i = Some f →
            Folder.parentId f = cur ∨
            ∃ j g, j < i ∧ fs !! j = Some g ∧ Folder.parentId f = Some (Folder.id g)).

(** ** The first exporter ([src_original/utils/bookmarkParser.ts])

    The exporter before [escapeHtml] was added: the texts are written as
    they are. *)
Module Original.

(** [${b.addDate ? ` ADD_DATE="${b.addDate}"` : ''}] *)
Definition optAttr (attr : string) (v : option string) : string :=
  match v with
  | Some s =>
      if truthy s then " " +:+ attr +:+ "=" +:+ dquote +:+ s +:+ dquote
      else EmptyString
  | None => EmptyString
  end.

(** [renderFolder(folderId, indent)]: the text the call appends to [html];
    [fuel] bounds the depth of the call stack, as in [renderItems]. *)
Fixpoint renderFolder (fuel : nat) (library : BookmarkLibrary)
    (folderId : option string) (indent : nat) : option string :=
  match fuel with
  | O => None
  | S fuel =>
      let space := repeat_string " " indent in
      let subFolders := filter (λ f, Folder.parentId f = folderId) (folders library) in
      let folderBookmarks :=
        filter (λ b, Bookmark.folder b = folderId) (bookmarks library) in
      rendered ← mapM (λ f,
          inner ← renderFolder fuel library (Some (Folder.id f)) (indent + 4);
          Some ((space +:+ "<DT><H3>" +:+ Folder.name f +:+ "</H3>" +:+ newline +:+
                 space +:+ "<DL><p>" +:+ newline) +:+ inner +:+
                (space +:+ "</DL><p>" +:+ newline)))
        subFolders;
      Some (concat rendered +:+
            concat ((λ b, space +:+ "<DT><A HREF=" +:+ dquote +:+ Bookmark.url b +:+ dquote +:+
                          optAttr "ADD_DATE" (Bookmark.addDate b) +:+
                          optAttr "ICON" (Bookmark.icon b) +:+
                          ">" +:+ Bookmark.title b +:+ "</A>" +:+ newline)
                      <$> folderBookmarks))
  end.

Definition exportToHTML (fuel : nat) (library : BookmarkLibrary) : option string :=
  body ← renderFolder fuel library None 4;
  Some (exportHeader +:+ body +:+ "</DL><p>").

End Original.

(** A text that holds none of the five characters [escapeHtml] replaces. *)
Definition safeText (s : string) : Prop :=
  markup s = "" ∧ occurs "&" s = false.

Definition safeOpt (o : option string) : Prop :=
  match o with
  | Some s => safeText s
  | None => True
  end.

Definition safeLibrary (L : BookmarkLibrary) : Prop :=
  (∀ f, f ∈ folders L → safeText (Folder.name f)) ∧
  (∀ b, b ∈ bookmarks L →
        safeText (Bookmark.title b) ∧ safeText (Bookmark.url b) ∧
        safeOpt (Bookmark.addDate b) ∧ safeOpt (Bookmark.icon b)).

(** ** Loading a file ([processFile], in the [App] component that suggests
    a structure as soon as a file is loaded)

    The body of [parsed.bookmarks.forEach(b => ..)]: the set [seenUrls] and
    the array [uniqueBookmarks]. *)
Definition dedupeStep (st : gset string * list Bookmark.t) (b : Bookmark.t)
  : gset string * list Bookmark.t :=
  if decide (Bookmark.url b ∈ st.1) then st
  else ({[Bookmark.url b]} ∪ st.1, st.2 ++ [b]).

Definition uniqueBookmarks (bs : list Bookmark.t) : list Bookmark.t :=
  (fold_left dedupeStep bs (∅, [])).2.

(** [setOriginalStats({ total, duplicates })] *)
Record Stats := mkStats {
  total : nat;
  duplicates : nat
}.

(** [processFile(content)], up to the call of the suggestion service: the
    library it stores and the statistics. *)
Definition processFile (r : Rand) (content : string) : BookmarkLibrary * Stats :=
  let parsed := parseBookmarksHTML r content in
  let initialCount := length (bookmarks parsed) in
  let unique := uniqueBookmarks (bookmarks parsed) in
  ({| bookmarks := unique; folders := folders parsed |},
   mkStats initialCount (initialCount - length unique)).

(** ** Vocabulary of the further properties *)

(** The folders of a list are closed under the parent link: the parent of
    each is absent or the identifier of a folder listed before it. *)
Definition parentsListed (fs : list Folder.t) : Prop :=
  ∀ i f, fs !! i = Some f →
    Folder.parentId f = None ∨
    ∃ j g, j < i ∧ fs !! j = Some g ∧ Folder.parentId f = Some (Folder.id g).

(** Every identifier of the path map is the identifier of a new folder. *)
Definition mapListed (rs : Resolver) : Prop :=
  ∀ κ id, pathMap rs !! κ = Some id → ∃ f, f ∈ newFolders rs ∧ Folder.id f = id.

(** The target of the last move, among [actions], that lists [id]. *)
Fixpoint lastTarget (actions : list Action) (id : string) : option string :=
  match actions with
  | [] => None
  | a :: rest =>
      match lastTarget rest id with
      | Some t => Some t
      | None =>
          match a with
          | MOVE_BOOKMARKS bookmarkIds targetFolderId =>
              if includes bookmarkIds id then Some targetFolderId else None
          | CREATE_FOLDER _ _ => None
          end
      end
  end.

(** The folders that [actions] create, in their order, with the
    identifiers drawn for them. *)
Fixpoint createdBy (r : Rand) (actions : list Action) : list Folder.t :=
  match actions with
  | [] => []
  | CREATE_FOLDER name parentId :: rest =>
      Folder.mk (r 0) name parentId :: createdBy (λ n, r (S n)) rest
  | MOVE_BOOKMARKS _ _ :: rest => createdBy r rest
  end.

(** ** Pasting a file ([handlePaste], in the [App] component with a paste
    box)

    [content.includes(needle)]: [needle] starts at some position of
    [content]. *)
Fixpoint stringIncludes (needle content : string) : bool :=
  String.prefix needle content ||
  match content with
  | EmptyString => false
  | String _ rest => stringIncludes needle rest
  end.

(** [handlePaste]: the new value of the [library] state. A text that shows
    neither marker is ignored. *)
Definition handlePaste (r : Rand) (library : option BookmarkLibrary) (content : string)
  : option BookmarkLibrary :=
  if stringIncludes "<DL>" content || stringIncludes "<A HREF=" content
  then Some (parseBookmarksHTML r content)
  else library.

(** A list with a folder that holds a folder that holds a link. *)
Definition nestedLists : Node :=
  Element "dl" []
    [Element "dt" []
       [Element "h3" [] [Text "F"];
        Element "dl" []
          [Element "dt" []
             [Element "h3" [] [Text "G"];
              Element "dl" []
                [Element "dt" [] [Element "a" [("href", "u")] [Text "T"]]]]]]].

(** The objects pushed so far hold no empty text where the parser puts a
    default, and no tags. *)
Definition wellRead (p : Parsed) : Prop :=
  Forall (λ b, faithfulBookmark b ∧ Bookmark.tags b = None) (parsedBookmarks p) ∧
  Forall faithfulFolder (parsedFolders p).

(** ** The flat parser (the other [utils/bookmarkParser.ts])

    The version of [parseBookmarksHTML] that reads every link of the
    document, wherever it is, and makes no folder. *)
Module Flat.

Definition pushLink (p : Parsed) (link : Node) : Parsed :=
  let '(id, r) := randomId (parsedRand p) in
  mkParsed
    (parsedBookmarks p ++
       [Bookmark.mk id (orElse (Some (textContent link)) "Untitled")
          (orElse (getAttribute "href" link) "")
          (orUndefined (getAttribute "add_date" link))
          (orUndefined (getAttribute "icon" link))
          None None])
    (parsedFolders p) r.

Definition parseBookmarksHTML (r : Rand) (html : string) : BookmarkLibrary :=
  let p := fold_left pushLink (querySelectorAll "a" (parseFromString html))
                     (mkParsed [] [] r) in
  {| bookmarks := parsedBookmarks p; folders := parsedFolders p |}.

End Flat.

(** What a file keeps of a bookmark: everything but its identifier, its
    tags and its folder. *)
Definition fileContent (b : Bookmark.t) : string * string * option string * option string :=
  (Bookmark.title b, Bookmark.url b, Bookmark.addDate b, Bookmark.icon b).

(** * Properties *)

Example split_example : split "/" "A//B" = ["A"; ""; "B"].
Proof. reflexivity. Qed.

(** ** Strings *)

(** Strings *)
Lemma string_app_cons x (a b : string) : String x a +:+ b = String x (a +:+ b).
Proof. reflexivity. Qed.

Lemma string_app_nil_l (a : string) : "" +:+ a = a.
Proof. reflexivity. Qed.

Lemma string_app_assoc (a b c : string) : (a +:+ b) +:+ c = a +:+ (b +:+ c).
Proof. induction a as [|x a IH]; [done|]. by rewrite !string_app_cons, IH. Qed.

Lemma string_app_nil_r (a : string) : a +:+ "" = a.
Proof. induction a as [|x a IH]; [done|]. by rewrite string_app_cons, IH. Qed.

Lemma split_nonempty sep s : split sep s ≠ [].
Proof.
  destruct s as [|c s]; simpl; [done|].
  destruct (Ascii.eqb c sep); [done|]. by destruct (split sep s).
Qed.

Lemma split_sep_free sep s : Forall (λ w, occurs sep w = false) (split sep s).
Proof.
  induction s as [|c s IH]; simpl; [by constructor|].
  destruct (Ascii.eqb c sep) eqn:Hc; [by constructor|].
  destruct (split sep s) as [|w ws]; [by constructor; [simpl; rewrite Hc|]|].
  inversion IH; subst. constructor; [|done]. simpl. by rewrite Hc.
Qed.

Lemma split_app_sep sep w s :
  occurs sep w = false ->
  split sep (w +:+ String sep s) = w :: split sep s.
Proof.
  induction w as [|c w IH]; intros H.
  - rewrite string_app_nil_l. simpl. by rewrite Ascii.eqb_refl.
  - rewrite string_app_cons. simpl in *.
    apply orb_false_iff in H as [Hc Hw]. rewrite Hc, IH; done.
Qed.

Lemma split_sep_free_id sep w : occurs sep w = false -> split sep w = [w].
Proof.
  induction w as [|c w IH]; simpl; intros H; [done|].
  apply orb_false_iff in H as [Hc Hw]. by rewrite Hc, IH.
Qed.

Lemma split_join sep parts :
  parts ≠ [] -> Forall (λ w, occurs sep w = false) parts ->
  split sep (join (String sep "") parts) = parts.
Proof.
  induction parts as [|p rest IH]; [done|]. intros _ Hall.
  inversion Hall as [|? ? Hp Hrest]; subst.
  destruct rest as [|q rest]; simpl.
  - by apply split_sep_free_id.
  - change (String sep "" +:+ ?x) with (String sep x).
    rewrite split_app_sep by done. f_equal. by apply IH.
Qed.

Lemma join_snoc sep l x :
  l ≠ [] -> join sep (l ++ [x]) = join sep l +:+ sep +:+ x.
Proof.
  induction l as [|a l IH]; [done|]. intros _.
  destruct l as [|b l]; [done|].
  change (join sep ((a :: b :: l) ++ [x])) with (a +:+ sep +:+ join sep ((b :: l) ++ [x])).
  rewrite IH by done.
  change (join sep (a :: b :: l)) with (a +:+ sep +:+ join sep (b :: l)).
  by rewrite !string_app_assoc.
Qed.

Lemma truthy_app_l a b : truthy a = true -> truthy (a +:+ b) = true.
Proof. by destruct a. Qed.

Lemma join_truthy sep l :
  (∃ x, head l = Some x ∧ truthy x = true) -> truthy (join sep l) = true.
Proof.
  intros (x & Hh & Hx). destruct l as [|a l]; simplify_eq/=.
  destruct l; [done|]. by apply truthy_app_l.
Qed.

Lemma okPrefix_nonempty p : okPrefix p -> p ≠ [].
Proof. intros [_ (x & H & _)] ->. done. Qed.

Lemma pathKey_inj p q : okPrefix p -> okPrefix q -> pathKey p = pathKey q -> p = q.
Proof.
  intros Hp Hq Heq.
  rewrite <- (split_join "/" p), <- (split_join "/" q);
    [|by apply okPrefix_nonempty|by apply Hq|by apply okPrefix_nonempty|by apply Hp].
  unfold pathKey in Heq. by rewrite Heq.
Qed.

Lemma okPrefix_app_l p q : okPrefix (p ++ q) -> p ≠ [] -> okPrefix p.
Proof.
  intros [Hall (x & Hh & Hx)] Hne. split.
  - by apply Forall_app in Hall as [? _].
  - exists x. destruct p; [done|]. done.
Qed.

(** ** Full-proposal application *)

Lemma with_folder_same b : Bookmark.with_folder b (Bookmark.folder b) = b.
Proof. by destruct b. Qed.

Lemma findIndex_Some {A} (p : A -> bool) l i :
  findIndex p l = Some i -> ∃ x, l !! i = Some x ∧ p x = true.
Proof.
  revert i. induction l as [|y l IH]; intros i; simpl; [done|].
  destruct (p y) eqn:Hp.
  - intros [= <-]. eauto.
  - destruct (findIndex p l) as [j|]; simpl; [|done].
    intros [= <-]. destruct (IH j eq_refl) as (x & ? & ?). eauto.
Qed.


Lemma with_folder_with_folder b f g :
  Bookmark.with_folder (Bookmark.with_folder b f) g = Bookmark.with_folder b g.
Proof. done. Qed.

Lemma covers_with_folder pm a b f :
  covers pm a (Bookmark.with_folder b f) ↔ covers pm a b.
Proof. done. Qed.

Lemma forEachAssignment_length pm bms a :
  length (forEachAssignment pm bms a) = length bms.
Proof.
  unfold forEachAssignment.
  repeat case_match; rewrite ?length_insert; done.
Qed.


Lemma assignments_length pm asg : ∀ bms,
  length (fold_left (forEachAssignment pm) asg bms) = length bms.
Proof.
  induction asg as [|a asg IH]; intros bms; simpl; [done|].
  by rewrite IH, forEachAssignment_length.
Qed.

Lemma findIndex_first {A} (p : A -> bool) l i :
  findIndex p l = Some i -> existsb p (take i l) = false.
Proof.
  revert i. induction l as [|y l IH]; intros i; simpl; [done|].
  destruct (p y) eqn:Hp.
  - by intros [= <-].
  - destruct (findIndex p l) as [j|]; simpl; [|done].
    intros [= <-]. cbn. by rewrite Hp, (IH j).
Qed.

Lemma findIndex_None {A} (p : A -> bool) l :
  findIndex p l = None -> existsb p l = false.
Proof.
  induction l as [|y l IH]; simpl; [done|].
  destruct (p y); [done|]. destruct (findIndex p l); [done|]. intros _. by apply IH.
Qed.

Lemma existsb_take_lookup {A} (p : A -> bool) l i j x :
  l !! j = Some x -> p x = true -> j < i -> existsb p (take i l) = true.
Proof.
  intros Hj Hp Hlt. apply existsb_exists. exists x. split; [|done].
  apply list_elem_of_In, (list_elem_of_lookup_2 _ j). by rewrite lookup_take_lt.
Qed.

Lemma existsb_lookup_false {A} (p : A -> bool) l j x :
  existsb p l = false -> l !! j = Some x -> p x = false.
Proof.
  intros He Hj. destruct (p x) eqn:Hp; [|done].
  assert (existsb p l = true) as Ht; [|by rewrite Ht in He].
  apply existsb_exists. exists x. split; [|done].
  by apply list_elem_of_In, (list_elem_of_lookup_2 _ j).
Qed.

(** One assignment changes the bookmark at [i] exactly when it resolves,
    names the bookmark, and the bookmark is the first with its identifier. *)
Lemma forEachAssignment_exact pm bms a i b :
  bms !! i = Some b ->
  forEachAssignment pm bms a !! i =
  Some (if firstWithId bms i (Bookmark.id b) && String.eqb (Bookmark.id b) (Suggestion.bookmarkId a)
        then match assignedFolder pm a with
             | Some folderId => Bookmark.with_folder b (Some folderId)
             | None => b
             end
        else b).
Proof.
  intros Hi. unfold forEachAssignment, assignedFolder.
  destruct (pm !! Suggestion.folderPath a) as [fid|] eqn:Hpm;
    [|by destruct (_ && _)].
  destruct (truthy fid); [|by destruct (_ && _)].
  set (p := λ b0 : Bookmark.t, String.eqb (Bookmark.id b0) (Suggestion.bookmarkId a)).
  destruct (findIndex p bms) as [j|] eqn:Hf.
  - destruct (findIndex_Some _ _ _ Hf) as (x & Hx & Hid). rewrite Hx.
    pose proof (findIndex_first _ _ _ Hf) as Hfirst.
    apply String.eqb_eq in Hid.
    destruct (decide (j = i)) as [->|Hne].
    + assert (x = b) as -> by congruence.
      rewrite list_lookup_insert_eq by (by eapply lookup_lt_Some).
      unfold firstWithId. rewrite Hid. fold p. rewrite Hfirst. cbn.
      by rewrite String.eqb_refl.
    + rewrite list_lookup_insert_ne by done. rewrite Hi.
      destruct (String.eqb_spec (Bookmark.id b) (Suggestion.bookmarkId a)) as [Heq|_];
        [|by rewrite andb_false_r].
      rewrite andb_true_r. unfold firstWithId. rewrite Heq. fold p.
      destruct (decide (j < i)) as [Hlt|Hge].
      * by rewrite (existsb_take_lookup p bms i j x Hx) by (done || by apply String.eqb_eq).
      * assert (p b = false) as Hb.
        { apply (existsb_lookup_false p (take j bms) i); [done|].
          rewrite lookup_take_lt by lia. done. }
        unfold p in Hb. rewrite Heq, String.eqb_refl in Hb. done.
  - pose proof (findIndex_None _ _ Hf) as Hnone.
    pose proof (existsb_lookup_false p bms i b Hnone Hi) as Hb. unfold p in Hb.
    by rewrite Hb, andb_false_r.
Qed.

Lemma forEachAssignment_ids pm bms a :
  Bookmark.id <$> forEachAssignment pm bms a = Bookmark.id <$> bms.
Proof.
  apply list_eq. intros i. rewrite !list_lookup_fmap.
  destruct (bms !! i) as [b|] eqn:Hi.
  - rewrite (forEachAssignment_exact pm bms a i b Hi). cbn.
    destruct (_ && _); [|done]. by destruct (assignedFolder pm a).
  - apply lookup_ge_None in Hi.
    rewrite (proj2 (lookup_ge_None _ _)); [done|]. by rewrite forEachAssignment_length.
Qed.

Lemma firstWithId_ids bms bms' i id :
  Bookmark.id <$> bms' = Bookmark.id <$> bms ->
  firstWithId bms' i id = firstWithId bms i id.
Proof.
  intros Hids. unfold firstWithId. f_equal.
  assert (∀ l : list Bookmark.t,
            existsb (λ b, String.eqb (Bookmark.id b) id) l
            = existsb (λ x, String.eqb x id) (Bookmark.id <$> l)) as Hmap.
  { induction l as [|x l IH]; [done|]. cbn. by rewrite IH. }
  by rewrite !Hmap, !fmap_take, Hids.
Qed.

(** The assignments leave each bookmark where the last of them that
    applies to it says. *)
Lemma assignments_exact pm asg : ∀ bms i b,
  bms !! i = Some b ->
  fold_left (forEachAssignment pm) asg bms !! i = Some (placed pm asg bms i b).
Proof.
  induction asg as [|a asg IH]; intros bms i b Hi.
  - cbn [fold_left]. unfold placed. cbn [lastAssigned]. by destruct (firstWithId _ _ _).
  - cbn [fold_left].
    pose proof (forEachAssignment_exact pm bms a i b Hi) as Hstep.
    rewrite (IH _ _ _ Hstep). f_equal. unfold placed. cbn [lastAssigned].
    rewrite (firstWithId_ids bms _ _ _ (forEachAssignment_ids pm bms a)).
    destruct (firstWithId bms i (Bookmark.id b)) eqn:Hfirst; cbn [andb].
    + destruct (String.eqb_spec (Bookmark.id b) (Suggestion.bookmarkId a)) as [Heq|Hne].
      * destruct (assignedFolder pm a) as [fid|]; cbn [Bookmark.id Bookmark.with_folder];
          rewrite Hfirst; by destruct (lastAssigned pm asg (Bookmark.id b)).
      * rewrite Hfirst. by destruct (lastAssigned pm asg (Bookmark.id b)).
    + destruct (String.eqb (Bookmark.id b) (Suggestion.bookmarkId a)); by rewrite Hfirst.
Qed.

Lemma lastAssigned_unresolved pm before a after id :
  pm !! Suggestion.folderPath a = None ->
  lastAssigned pm (before ++ a :: after) id = lastAssigned pm (before ++ after) id.
Proof.
  intros Hnone. induction before as [|x before IH]; cbn [app lastAssigned].
  - unfold assignedFolder. rewrite Hnone.
    destruct (lastAssigned pm after id); [done|]. by destruct (String.eqb _ _).
  - by rewrite IH.
Qed.



Lemma forEachAssignment_unresolved pm bms a :
  pm !! Suggestion.folderPath a = None -> forEachAssignment pm bms a = bms.
Proof. intros H. unfold forEachAssignment. by rewrite H. Qed.

(** C7. An assignment whose path is no key of the resolver's map leaves
    every array of bookmarks as it is, and applying the proposal returns a
    library, the one the proposal without that assignment gives. In it the
    other assignments are applied: each bookmark is where the last of them
    that names it and resolves sends it, and a bookmark that none of them
    sends anywhere, such as the one the skipped assignment names when no
    other does, is as it was. *)
Theorem unresolved_assignment_skipped (r : Rand) (sug : Suggestion.t) (lib : BookmarkLibrary)
    (before after : list Suggestion.Assignment) (a : Suggestion.Assignment) :
  Suggestion.assignments sug = before ++ a :: after ->
  pathMap (resolveFolders r (Suggestion.folders sug)) !! Suggestion.folderPath a = None ->
  (∀ bms, forEachAssignment (pathMap (resolveFolders r (Suggestion.folders sug))) bms a = bms)
  ∧ is_Some (applySuggestion r (Some sug) (Some lib))
  ∧ applySuggestion r (Some sug) (Some lib) =
    applySuggestion r
      (Some (Suggestion.mk (Suggestion.folders sug) (before ++ after) (Suggestion.reasoning sug)))
      (Some lib)
  ∧ ∃ out, applySuggestion r (Some sug) (Some lib) = Some out
      ∧ ∀ i b, bookmarks lib !! i = Some b ->
          bookmarks out !! i =
            Some (placed (pathMap (resolveFolders r (Suggestion.folders sug)))
                         (before ++ after) (bookmarks lib) i b)
          ∧ (lastAssigned (pathMap (resolveFolders r (Suggestion.folders sug)))
                          (before ++ after) (Bookmark.id b) = None ->
             bookmarks out !! i = Some b).
Proof.
  intros Hasg Hnone. split; [intros; by apply forEachAssignment_unresolved|].
  split; [by eexists|]. split.
  { simpl. rewrite Hasg. rewrite !fold_left_app. simpl.
    by rewrite forEachAssignment_unresolved. }
  eexists. split; [reflexivity|]. cbn [bookmarks]. intros i b Hi.
  rewrite (assignments_exact _ _ _ _ _ Hi).
  assert (placed (pathMap (resolveFolders r (Suggestion.folders sug)))
                 (Suggestion.assignments sug) (bookmarks lib) i b
          = placed (pathMap (resolveFolders r (Suggestion.folders sug)))
                   (before ++ after) (bookmarks lib) i b) as ->.
  { unfold placed. by rewrite Hasg, lastAssigned_unresolved. }
  split; [done|]. intros Hlast. unfold placed. rewrite Hlast.
  by destruct (firstWithId _ _ _).
Qed.

(** A proposal with the folder [Dev] and an assignment to [Misc]: [b1]
    goes to the new folder, [b2] stays at the root. *)
Lemma unresolved_assignment_skipped_witness :
  ∃ out, applySuggestion tally (Some suggestion_example) (Some library_example) = Some out
    ∧ bookmarks out !! 0 = Some (Bookmark.mk "b1" "T1" "u1" None None None (Some "i"))
    ∧ bookmarks out !! 1 = Some (Bookmark.mk "b2" "T2" "u2" None None None None).
Proof.
  destruct (unresolved_assignment_skipped tally suggestion_example library_example
              [Suggestion.mkAssignment "b1" "Dev"] [] (Suggestion.mkAssignment "b2" "Misc"))
    as (_ & _ & _ & out & Hout & Hall).
  - reflexivity.
  - vm_compute. reflexivity.
  - exists out. split; [exact Hout|]. split.
    + destruct (Hall 0 (Bookmark.mk "b1" "T1" "u1" None None None (Some "old")) eq_refl)
        as [H0 _].
      rewrite H0. vm_compute. reflexivity.
    + destruct (Hall 1 (Bookmark.mk "b2" "T2" "u2" None None None None) eq_refl)
        as [_ H1].
      apply H1. vm_compute. reflexivity.
Defined.

(** ** The path resolver *)

Lemma ResolverInv_init r : ResolverInv r [] {| newFolders := []; pathMap := ∅; rand := r |}.
Proof.
  split; simpl; try done.
  - constructor.
  - intros κ. rewrite lookup_empty. split; [by intros [? ?]|by intros ?%elem_of_nil].
Qed.

Lemma forEachPart_inv r ks rs cpid cp done part :
  ResolverInv r ks rs -> locals r ks done cpid cp -> okPrefix (done ++ [part]) ->
  ∃ ks' rs' cpid' cp',
    forEachPart (rs, cpid, cp) part = (rs', cpid', cp') ∧
    ResolverInv r ks' rs' ∧ locals r ks' (done ++ [part]) cpid' cp' ∧
    ((ks' = ks ∧ done ++ [part] ∈ ks) ∨ ks' = ks ++ [done ++ [part]]).
Proof.
  intros Hinv Hloc Hok. unfold forEachPart.
  set (cp' := if truthy cp then cp +:+ "/" +:+ part else part).
  assert (cp' = pathKey (done ++ [part])) as Hcp'.
  { subst cp'. destruct Hloc as [(-> & -> & _)|(Hne & -> & _)]; [done|].
    unfold pathKey. rewrite join_truthy.
    - by rewrite join_snoc.
    - destruct Hok as [_ (x & Hh & Hx)]. exists x. split; [|done].
      destruct done; [done|]. done. }
  destruct (pathMap rs !! cp') as [v|] eqn:Hlook.
  - (* the path is known: nothing is created *)
    assert (cp' ∈ pathKey <$> ks) as Hin by (apply (inv_dom _ _ _ Hinv); by rewrite Hlook).
    apply list_elem_of_fmap in Hin as (p' & Hkey & Hp').
    assert (p' = done ++ [part]) as ->.
    { apply pathKey_inj; [|done|congruence].
      eapply Forall_forall in Hp'; [|apply (inv_ok _ _ _ Hinv)]. done. }
    apply list_elem_of_lookup in Hp' as [j Hj].
    exists ks, rs, (Some v), cp'. split; [by rewrite Hlook|]. split; [done|].
    split; [|left; split; [done|by eapply list_elem_of_lookup_2]].
    right. split; [by destruct done|]. split; [done|].
    exists j. split; [done|].
    destruct (inv_folder _ _ _ Hinv j _ Hj) as [Hpm _].
    rewrite <- Hcp', Hlook in Hpm. congruence.
  - (* a new folder *)
    assert (cp' ∉ pathKey <$> ks) as Hnotin.
    { intros Hin. apply (inv_dom _ _ _ Hinv) in Hin. rewrite Hlook in Hin. by destruct Hin. }
    simpl.
    eexists (ks ++ [done ++ [part]]), _, _, cp'. split; [reflexivity|].
    assert (length (ks ++ [done ++ [part]]) = S (length ks)) as Hlen
      by (rewrite length_app; simpl; lia).
    split; [split; simpl|split].
    + rewrite fmap_app. apply NoDup_app. split; [apply Hinv|]. split.
      * intros κ Hκ [->|[]%elem_of_nil]%elem_of_cons. congruence.
      * apply NoDup_singleton.
    + apply Forall_app. split; [apply Hinv|by constructor].
    + rewrite !length_app. simpl. f_equal. apply Hinv.
    + intros n. rewrite (inv_rand _ _ _ Hinv), Hlen. f_equal. lia.
    + intros κ. rewrite fmap_app, elem_of_app. simpl.
      rewrite lookup_insert. case_decide as Hd.
      * subst κ. split; [|by eexists]. intros _. right. rewrite Hcp'. by left.
      * rewrite (inv_dom _ _ _ Hinv). split; [by left|].
        intros [?|[->|[]%elem_of_nil]%elem_of_cons]; [done|]. congruence.
    + intros i p Hi.
      apply lookup_app_Some in Hi as [Hi|[Hge Hi]].
      * destruct (inv_folder _ _ _ Hinv i p Hi) as (Hpm & q & seg & par & -> & Hf & Hpar).
        split.
        { rewrite lookup_insert_ne; [done|]. intros ->. apply Hnotin.
          apply list_elem_of_fmap. exists (q ++ [seg]). split; [done|].
          by eapply list_elem_of_lookup_2. }
        exists q, seg, par. split; [done|]. split.
        { rewrite lookup_app_l; [done|]. rewrite (inv_length _ _ _ Hinv).
          by eapply lookup_lt_Some. }
        destruct Hpar as [?|(j & Hj & Hq & ->)]; [by left|].
        right. exists j. split; [done|]. split; [|done].
        by apply lookup_app_l_Some.
      * destruct (i - length ks) as [|k] eqn:Hk; [|done]. simplify_eq/=.
        assert (i = length ks) as -> by lia.
        rewrite (inv_rand _ _ _ Hinv), Nat.add_0_r.
        split; [by rewrite Hcp', lookup_insert_eq|].
        exists done, part, cpid. split; [done|]. split.
        { rewrite lookup_app_r by (rewrite (inv_length _ _ _ Hinv); lia).
          by rewrite (inv_length _ _ _ Hinv), Nat.sub_diag. }
        destruct Hloc as [(-> & _ & ->)|(Hne & _ & j & Hj & ->)]; [by left|].
        right. exists j. split; [by eapply lookup_lt_Some|].
        split; [by apply lookup_app_l_Some|done].
    + right. split; [by destruct done|]. split; [done|].
      exists (length ks). rewrite lookup_app_r by lia. rewrite Nat.sub_diag.
      split; [done|]. simpl. rewrite lookup_insert_eq.
      by rewrite (inv_rand _ _ _ Hinv), Nat.add_0_r.
    + by right.
Qed.

Lemma forEachPart_fold r : ∀ todo done ks rs cpid cp,
  ResolverInv r ks rs -> locals r ks done cpid cp ->
  (todo ≠ [] -> okPrefix (done ++ todo)) ->
  ∃ ks', ResolverInv r ks' (fold_left forEachPart todo (rs, cpid, cp)).1.1 ∧
    ∀ p, p ∈ ks' ↔ p ∈ ks ∨ p ∈ (done ++.) <$> prefixes todo.
Proof.
  induction todo as [|part todo IH]; intros done ks rs cpid cp Hinv Hloc Hok.
  - exists ks. split; [done|]. intros p. simpl. rewrite elem_of_nil. tauto.
  - specialize (Hok ltac:(done)).
    assert (okPrefix (done ++ [part])) as Hok1.
    { apply (okPrefix_app_l _ todo); [by rewrite <- app_assoc|by destruct done]. }
    destruct (forEachPart_inv r ks rs cpid cp done part Hinv Hloc Hok1)
      as (ks1 & rs1 & cpid1 & cp1 & Hstep & Hinv1 & Hloc1 & Hks1).
    cbn [fold_left]. rewrite Hstep.
    destruct (IH (done ++ [part]) ks1 rs1 cpid1 cp1 Hinv1 Hloc1) as (ks' & Hinv' & Hks').
    { intros _. by rewrite <- app_assoc. }
    exists ks'. split; [done|]. intros p. rewrite Hks'.
    cbn [prefixes]. rewrite fmap_cons, elem_of_cons, <- list_fmap_compose.
    assert (((done ++ [part]) ++.) <$> prefixes todo
            = ((done ++.) ∘ (part ::.)) <$> prefixes todo) as ->.
    { apply list_fmap_ext. intros _ x _. simpl. by rewrite <- app_assoc. }
    destruct Hks1 as [[-> Hin]| ->].
    + split; [tauto|]. intros [?|[->|?]]; tauto.
    + rewrite elem_of_app, list_elem_of_singleton. tauto.
Qed.

Lemma leadingSegment_okPrefix f :
  leadingSegment f -> okPrefix (split "/" (Suggestion.path f)).
Proof.
  intros Hl. split; [apply split_sep_free|].
  pose proof (split_nonempty "/" (Suggestion.path f)) as Hne.
  unfold leadingSegment in Hl.
  destruct (split "/" (Suggestion.path f)) as [|x l]; [done|].
  exists x. split; [done|]. destruct x; [done|done].
Qed.

Lemma forEachFolder_fold r : ∀ fs ks rs,
  ResolverInv r ks rs -> Forall leadingSegment fs ->
  ∃ ks', ResolverInv r ks' (fold_left forEachFolder fs rs) ∧
    ∀ p, p ∈ ks' ↔ p ∈ ks ∨ p ∈ allPrefixes fs.
Proof.
  induction fs as [|f fs IH]; intros ks rs Hinv Hfs.
  - exists ks. split; [done|]. intros p. unfold allPrefixes. simpl.
    rewrite elem_of_nil. tauto.
  - inversion Hfs as [|? ? Hf Hfs']; subst.
    destruct (forEachPart_fold r (split "/" (Suggestion.path f)) [] ks rs None ""
                Hinv) as (ks1 & Hinv1 & Hks1).
    { by left. }
    { intros _. by apply leadingSegment_okPrefix. }
    destruct (IH ks1 _ Hinv1 Hfs') as (ks' & Hinv' & Hks').
    exists ks'. split; [done|]. intros p. rewrite Hks', Hks1.
    unfold allPrefixes. rewrite bind_cons, elem_of_app.
    rewrite list_fmap_id. tauto.
Qed.

Theorem resolveFolders_one_folder_per_prefix (r : Rand) (fs : list Suggestion.FolderEntry) :
  Forall leadingSegment fs ->
  let rs := resolveFolders r fs in
  ∃ ks : list (list string),
    NoDup (pathKey <$> ks) ∧
    (∀ p, p ∈ ks ↔ p ∈ allPrefixes fs) ∧
    length (newFolders rs) = length ks ∧
    (∀ κ, is_Some (pathMap rs !! κ) ↔ κ ∈ pathKey <$> ks) ∧
    ∀ i p, ks !! i = Some p ->
      pathMap rs !! pathKey p = Some (r i) ∧
      ∃ q seg par, p = q ++ [seg] ∧
        newFolders rs !! i = Some (Folder.mk (r i) seg par) ∧
        ((q = [] ∧ par = None) ∨ (∃ j, j < i ∧ ks !! j = Some q ∧ par = Some (r j))).
Proof.
  intros Hfs rs.
  destruct (forEachFolder_fold r fs [] _ (ResolverInv_init r) Hfs) as (ks & Hinv & Hks).
  exists ks. split; [apply Hinv|]. split.
  { intros p. rewrite Hks, elem_of_nil. tauto. }
  split; [apply Hinv|]. split; [apply Hinv|]. apply Hinv.
Qed.

(** The two paths of the specification's example. *)
Lemma resolveFolders_one_folder_per_prefix_witness :
  Forall leadingSegment [Suggestion.mkFolder "A/B/C" ""; Suggestion.mkFolder "A/B/D" ""] ∧
  ∃ ks : list (list string),
    (∀ p, p ∈ ks ↔ p ∈ allPrefixes [Suggestion.mkFolder "A/B/C" ""; Suggestion.mkFolder "A/B/D" ""]) ∧
    length (newFolders (resolveFolders tally
              [Suggestion.mkFolder "A/B/C" ""; Suggestion.mkFolder "A/B/D" ""])) = length ks.
Proof.
  assert (H : Forall leadingSegment
                [Suggestion.mkFolder "A/B/C" ""; Suggestion.mkFolder "A/B/D" ""]).
  { repeat constructor; discriminate. }
  split; [exact H|].
  destruct (resolveFolders_one_folder_per_prefix tally _ H) as (ks & _ & Hks & Hlen & _).
  exists ks. split; [exact Hks|exact Hlen].
Defined.

Example resolveFolders_shared_prefix (r : Rand) :
  newFolders (resolveFolders r
     [Suggestion.mkFolder "A/B/C" ""; Suggestion.mkFolder "A/B/D" ""]) =
  [ Folder.mk (r 0) "A" None; Folder.mk (r 1) "B" (Some (r 0));
    Folder.mk (r 2) "C" (Some (r 1)); Folder.mk (r 3) "D" (Some (r 1)) ].
Proof. reflexivity. Qed.

(** C3, where the code departs from it. The paths [/A] and [A] have three
    distinct prefixes (the empty segment, [/A] and [A]); the resolver
    creates two folders, gives the folder of the single segment [A] the
    folder of the empty segment as parent, and has no entry for [/A]: the
    test [currentPath ? ... : part] takes an empty path so far for no path
    so far. *)
Example resolveFolders_leading_slash (r : Rand) :
  let rs := resolveFolders r [Suggestion.mkFolder "/A" ""; Suggestion.mkFolder "A" ""] in
  newFolders rs = [ Folder.mk (r 0) "" None; Folder.mk (r 1) "A" (Some (r 0)) ]
  ∧ pathMap rs !! "/A" = None.
Proof. split; reflexivity. Qed.

(** ** The operations on the store *)

Lemma frame_refl W h : frame W h h.
Proof. by intros l o. Qed.

Lemma frame_trans W h1 h2 h3 : frame W h1 h2 -> frame W h2 h3 -> frame W h1 h3.
Proof. intros H12 H23 l o Hl HW. apply H23; [by apply H12|done]. Qed.

Lemma frame_mono (W W' : Store.loc -> Prop) h h' :
  (∀ l, W l -> W' l) -> frame W h h' -> frame W' h h'.
Proof. intros Hsub H l o Hl HW. apply H; [done|]. intros ?. by apply HW, Hsub. Qed.

Lemma frame_alloc W h o : frame W h (h ++ [o]).
Proof. intros l o' Hl _. by apply lookup_app_l_Some. Qed.

Lemma frame_store (W : Store.loc -> Prop) h l o : W l -> frame W h (<[l := o]> h).
Proof.
  intros HW l' o' Hl' HnW. rewrite list_lookup_insert_ne; [done|]. by intros ->.
Qed.

Lemma frame_length W h h' l : frame W h h' -> l < length h -> ¬ W l -> l < length h'.
Proof.
  intros Hf Hl HW. destruct (lookup_lt_is_Some_2 h l Hl) as [o Ho].
  eapply lookup_lt_Some, Hf; done.
Qed.

(** Reading is stable under a frame that leaves the read locations alone. *)
Lemma readBookmarks_frame (W : Store.loc -> Prop) h h' elems bs :
  frame W h h' -> Forall (λ l, ¬ W l) elems ->
  Store.readBookmarks h elems = Some bs -> Store.readBookmarks h' elems = Some bs.
Proof.
  unfold Store.readBookmarks. intros Hf HW. rewrite !mapM_Some. intros H2.
  induction H2 as [|l b elems bs Hl H2 IH]; [constructor|].
  inversion HW; subst. constructor; [|by apply IH].
  destruct (h !! l) as [o|] eqn:Ho; [|done].
  by rewrite (Hf _ _ Ho).
Qed.

Lemma readFolders_frame (W : Store.loc -> Prop) h h' elems fs :
  frame W h h' -> Forall (λ l, ¬ W l) elems ->
  Store.readFolders h elems = Some fs -> Store.readFolders h' elems = Some fs.
Proof.
  unfold Store.readFolders. intros Hf HW. rewrite !mapM_Some. intros H2.
  induction H2 as [|l b elems bs Hl H2 IH]; [constructor|].
  inversion HW; subst. constructor; [|by apply IH].
  destruct (h !! l) as [o|] eqn:Ho; [|done].
  by rewrite (Hf _ _ Ho).
Qed.

Lemma readArray_frame (W : Store.loc -> Prop) h h' l elems :
  frame W h h' -> ¬ W l -> Store.readArray h l = Some elems -> Store.readArray h' l = Some elems.
Proof.
  unfold Store.readArray. intros Hf HW. destruct (h !! l) as [o|] eqn:Ho; [|done].
  by rewrite (Hf _ _ Ho).
Qed.

Lemma readBookmarks_lt h elems bs :
  Store.readBookmarks h elems = Some bs -> Forall (λ l, l < length h) elems.
Proof.
  unfold Store.readBookmarks. rewrite mapM_Some. intros H2.
  induction H2 as [|l b elems bs Hl H2 IH]; constructor; [|done].
  destruct (h !! l) eqn:Ho; [|done]. by eapply lookup_lt_Some.
Qed.

Lemma readFolders_lt h elems fs :
  Store.readFolders h elems = Some fs -> Forall (λ l, l < length h) elems.
Proof.
  unfold Store.readFolders. rewrite mapM_Some. intros H2.
  induction H2 as [|l b elems bs Hl H2 IH]; constructor; [|done].
  destruct (h !! l) eqn:Ho; [|done]. by eapply lookup_lt_Some.
Qed.

Lemma readBookmarks_not_array h elems bs arr a :
  Store.readBookmarks h elems = Some bs -> h !! arr = Some (Store.OArray a) ->
  Forall (λ l, ¬ (l = arr)) elems.
Proof.
  unfold Store.readBookmarks. rewrite mapM_Some. intros H2 Harr.
  induction H2 as [|l b elems bs Hl H2 IH]; constructor; [|done].
  intros ->. by rewrite Harr in Hl.
Qed.

Lemma readFolders_not_array h elems fs arr a :
  Store.readFolders h elems = Some fs -> h !! arr = Some (Store.OArray a) ->
  Forall (λ l, ¬ (l = arr)) elems.
Proof.
  unfold Store.readFolders. rewrite mapM_Some. intros H2 Harr.
  induction H2 as [|l b elems bs Hl H2 IH]; constructor; [|done].
  intros ->. by rewrite Harr in Hl.
Qed.

Lemma readArray_Some h l elems : Store.readArray h l = Some elems -> h !! l = Some (Store.OArray elems).
Proof. unfold Store.readArray. by repeat case_match; intros; simplify_eq. Qed.

Lemma readBookmarks_lookup h elems bs i l :
  Store.readBookmarks h elems = Some bs -> elems !! i = Some l ->
  ∃ b, bs !! i = Some b ∧ h !! l = Some (Store.OBookmark b).
Proof.
  unfold Store.readBookmarks. rewrite mapM_Some. intros H2 Hi.
  destruct (Forall2_lookup_l _ _ _ _ _ H2 Hi) as (b & Hb & Hl).
  exists b. split; [done|]. by repeat case_match; simplify_eq.
Qed.

Lemma readBookmarks_app h e1 e2 b1 b2 :
  Store.readBookmarks h e1 = Some b1 -> Store.readBookmarks h e2 = Some b2 ->
  Store.readBookmarks h (e1 ++ e2) = Some (b1 ++ b2).
Proof. unfold Store.readBookmarks. rewrite !mapM_Some. apply Forall2_app. Qed.

Lemma readFolders_app h e1 e2 b1 b2 :
  Store.readFolders h e1 = Some b1 -> Store.readFolders h e2 = Some b2 ->
  Store.readFolders h (e1 ++ e2) = Some (b1 ++ b2).
Proof. unfold Store.readFolders. rewrite !mapM_Some. apply Forall2_app. Qed.

Lemma bind_Some {A B} (m : Store.M A) (k : A -> Store.M B) w a w' :
  m w = Some (a, w') -> Store.bind m k w = k a w'.
Proof. unfold Store.bind. by intros ->. Qed.

Lemma loadArray_Some w l elems :
  Store.readArray (Store.heap w) l = Some elems -> Store.loadArray l w = Some (elems, w).
Proof.
  intros H%readArray_Some. unfold Store.loadArray, Store.bind, Store.load. by rewrite H.
Qed.

Lemma loadBookmark_Some w l b :
  Store.heap w !! l = Some (Store.OBookmark b) -> Store.loadBookmark l w = Some (b, w).
Proof. intros H. unfold Store.loadBookmark, Store.bind, Store.load. by rewrite H. Qed.

Lemma readBookmarks_cons h l elems bs :
  Store.readBookmarks h (l :: elems) = Some bs ->
  ∃ b bs', bs = b :: bs' ∧ h !! l = Some (Store.OBookmark b) ∧ Store.readBookmarks h elems = Some bs'.
Proof.
  unfold Store.readBookmarks. rewrite mapM_Some. intros H2.
  inversion H2 as [|? b ? bs' Hl H2']; subst.
  exists b, bs'. split; [done|]. split; [by repeat case_match; simplify_eq|].
  by apply mapM_Some.
Qed.

Lemma findIndexFrom_spec id w : ∀ elems bs i,
  Store.readBookmarks (Store.heap w) elems = Some bs ->
  Store.findIndexFrom id elems i w =
    Some ((λ k, i + k) <$> findIndex (λ b, String.eqb (Bookmark.id b) id) bs, w).
Proof.
  induction elems as [|l elems IH]; intros bs i Hr.
  - assert (bs = []) as ->.
    { unfold Store.readBookmarks in Hr. apply mapM_Some in Hr. by inversion Hr. }
    done.
  - apply readBookmarks_cons in Hr as (b & bs' & -> & Hl & Hr).
    cbn [Store.findIndexFrom findIndex].
    rewrite (bind_Some _ _ _ _ _ (loadBookmark_Some _ _ _ Hl)).
    destruct (String.eqb (Bookmark.id b) id).
    + unfold Store.ret. simpl. do 3 f_equal. lia.
    + rewrite (IH _ _ Hr). do 2 f_equal.
      destruct (findIndex _ bs'); simpl; [f_equal; lia|done].
Qed.

Lemma forEachAssignment_sim pm ub a w elems bms :
  Store.readArray (Store.heap w) ub = Some elems -> Store.readBookmarks (Store.heap w) elems = Some bms ->
  ∃ w' elems',
    Store.forEachAssignment pm ub tt a w = Some (tt, w') ∧
    frame (eq ub) (Store.heap w) (Store.heap w') ∧ Store.random w' = Store.random w ∧
    Store.readArray (Store.heap w') ub = Some elems' ∧
    Store.readBookmarks (Store.heap w') elems' = Some (forEachAssignment pm bms a).
Proof.
  intros Harr Hbs.
  assert (∃ w' elems', Store.ret tt w = Some (tt, w') ∧
    frame (eq ub) (Store.heap w) (Store.heap w') ∧ Store.random w' = Store.random w ∧
    Store.readArray (Store.heap w') ub = Some elems' ∧
    Store.readBookmarks (Store.heap w') elems' = Some bms) as Hskip.
  { exists w, elems. split; [done|]. split; [apply frame_refl|done]. }
  unfold Store.forEachAssignment, forEachAssignment.
  destruct (pm !! Suggestion.folderPath a) as [folderId|]; [|done].
  destruct (truthy folderId); [|done].
  rewrite (bind_Some _ _ _ _ _ (loadArray_Some _ _ _ Harr)).
  rewrite (bind_Some _ _ _ _ _ (findIndexFrom_spec _ _ _ _ 0 Hbs)).
  destruct (findIndex _ bms) as [index|] eqn:Hfind; simpl; [|done].
  destruct (findIndex_Some _ _ _ Hfind) as (b & Hb & _).
  assert (∃ l, elems !! index = Some l ∧ Store.heap w !! l = Some (Store.OBookmark b)) as (l & Hl & Hlb).
  { unfold Store.readBookmarks in Hbs. apply mapM_Some in Hbs.
    destruct (Forall2_lookup_r _ _ _ _ _ Hbs Hb) as (l & Hl & Hlb).
    exists l. split; [done|]. by repeat case_match; simplify_eq. }
  rewrite Hl, Hb.
  rewrite (bind_Some _ _ _ _ _ (loadBookmark_Some _ _ _ Hlb)).
  unfold Store.bind, Store.alloc, Store.store. simpl.
  pose proof (readArray_Some _ _ _ Harr) as Hub.
  rewrite (lookup_app_l_Some _ _ _ _ Hub).
  set (b' := Bookmark.with_folder b (Some folderId)).
  set (h1 := Store.heap w ++ [Store.OBookmark b']).
  eexists _, _. split; [reflexivity|]. simpl.
  assert (frame (eq ub) (Store.heap w) (<[ub := Store.OArray (<[index := length (Store.heap w)]> elems)]> h1)) as Hf.
  { eapply frame_trans; [apply frame_alloc|]. by apply frame_store. }
  split; [done|]. split; [done|].
  assert (ub < length h1) as Hlt.
  { unfold h1. rewrite length_app. apply lookup_lt_Some in Hub. lia. }
  split.
  { unfold Store.readArray. by rewrite list_lookup_insert_eq. }
  unfold Store.readBookmarks. apply mapM_Some. apply Forall2_insert.
  - apply mapM_Some. change (Store.readBookmarks (<[ub := Store.OArray (<[index := length (Store.heap w)]> elems)]> h1) elems = Some bms).
    eapply readBookmarks_frame; [exact Hf| |done].
    eapply Forall_impl; [by eapply readBookmarks_not_array|]. simpl. intros ? ? ?. done.
  - rewrite list_lookup_insert_ne by (apply lookup_lt_Some in Hub; lia).
    unfold h1. rewrite lookup_app_r by lia. by rewrite Nat.sub_diag.
Qed.

Lemma forEachAssignment_loop pm ub : ∀ asg w elems bms,
  Store.readArray (Store.heap w) ub = Some elems -> Store.readBookmarks (Store.heap w) elems = Some bms ->
  ∃ w' elems',
    Store.forEach (Store.forEachAssignment pm ub) asg tt w = Some (tt, w') ∧
    frame (eq ub) (Store.heap w) (Store.heap w') ∧ Store.random w' = Store.random w ∧
    Store.readArray (Store.heap w') ub = Some elems' ∧
    Store.readBookmarks (Store.heap w') elems' = Some (fold_left (forEachAssignment pm) asg bms).
Proof.
  induction asg as [|a asg IH]; intros w elems bms Harr Hbs.
  - exists w, elems. split; [done|]. split; [apply frame_refl|done].
  - destruct (forEachAssignment_sim pm ub a w elems bms Harr Hbs)
      as (w1 & elems1 & Hrun & Hf1 & Hr1 & Harr1 & Hbs1).
    destruct (IH w1 elems1 _ Harr1 Hbs1) as (w' & elems' & Hrun' & Hf' & Hr' & Harr' & Hbs').
    exists w', elems'. cbn [Store.forEach fold_left].
    rewrite (bind_Some _ _ _ _ _ Hrun). split; [done|].
    split; [by eapply frame_trans|]. split; [congruence|]. done.
Qed.

Lemma forEachPart_sim nf rs cpid cp part w :
  holdsResolver nf rs w ->
  ∃ w', Store.forEachPart nf (pathMap rs, cpid, cp) part w =
          Some ((pathMap (forEachPart (rs, cpid, cp) part).1.1,
                 (forEachPart (rs, cpid, cp) part).1.2,
                 (forEachPart (rs, cpid, cp) part).2), w') ∧
        holdsResolver nf (forEachPart (rs, cpid, cp) part).1.1 w' ∧
        frame (eq nf) (Store.heap w) (Store.heap w').
Proof.
  intros [Hrand (elems & Harr & Hfs)].
  unfold Store.forEachPart, forEachPart.
  set (cp' := if truthy cp then cp +:+ "/" +:+ part else part).
  destruct (pathMap rs !! cp') as [v|] eqn:Hlook.
  - exists w. simpl. unfold Store.bind, Store.ret. rewrite Hlook.
    split; [done|]. split; [|apply frame_refl]. split; [done|by exists elems].
  - unfold Store.bind at 1. unfold Store.bind at 1. unfold Store.freshId. simpl.
    unfold Store.bind at 1. unfold Store.alloc at 1. simpl.
    unfold Store.push.
    set (f := Folder.mk (Store.random w 0) part cpid).
    set (h1 := Store.heap w ++ [Store.OFolder f]).
    assert (Store.readArray h1 nf = Some elems) as Harr1.
    { eapply (readArray_frame (λ _, False)); [apply frame_alloc|tauto|done]. }
    unfold Store.bind at 1.
    rewrite (bind_Some _ _ (Store.mkWorld h1 _) _ _ (loadArray_Some (Store.mkWorld h1 _) _ _ Harr1)).
    unfold Store.store. simpl.
    rewrite (readArray_Some _ _ _ Harr1). unfold Store.ret.
    eexists. split.
    { rewrite Hrand, !lookup_insert_eq. reflexivity. }
    simpl.
    assert (frame (eq nf) (Store.heap w)
              (<[nf := Store.OArray (elems ++ [length (Store.heap w)])]> h1)) as Hf.
    { eapply frame_trans; [apply frame_alloc|]. by apply frame_store. }
    split; [|done].
    split; [intros n; apply Hrand|]. simpl.
    exists (elems ++ [length (Store.heap w)]).
    pose proof (readArray_Some _ _ _ Harr) as Hnf.
    assert (nf < length h1) as Hlt.
    { unfold h1. rewrite length_app. apply lookup_lt_Some in Hnf. lia. }
    split; [unfold Store.readArray; by rewrite list_lookup_insert_eq|].
    apply readFolders_app.
    + eapply readFolders_frame; [exact Hf| |done].
      eapply Forall_impl; [by eapply readFolders_not_array|]. simpl. intros ? ? ?. done.
    + unfold Store.readFolders. simpl.
      rewrite list_lookup_insert_ne by (apply lookup_lt_Some in Hnf; lia).
      unfold h1. rewrite lookup_app_r by lia. rewrite Nat.sub_diag. simpl.
      unfold f. by rewrite Hrand.
Qed.

Lemma forEachPart_loop nf : ∀ parts rs cpid cp w,
  holdsResolver nf rs w ->
  ∃ w', Store.forEach (Store.forEachPart nf) parts (pathMap rs, cpid, cp) w =
          Some ((pathMap (fold_left forEachPart parts (rs, cpid, cp)).1.1,
                 (fold_left forEachPart parts (rs, cpid, cp)).1.2,
                 (fold_left forEachPart parts (rs, cpid, cp)).2), w') ∧
        holdsResolver nf (fold_left forEachPart parts (rs, cpid, cp)).1.1 w' ∧
        frame (eq nf) (Store.heap w) (Store.heap w').
Proof.
  induction parts as [|part parts IH]; intros rs cpid cp w Hh.
  - exists w. split; [done|]. split; [done|apply frame_refl].
  - destruct (forEachPart_sim nf rs cpid cp part w Hh) as (w1 & Hrun & Hh1 & Hf1).
    cbn [Store.forEach fold_left]. rewrite (bind_Some _ _ _ _ _ Hrun).
    destruct (forEachPart (rs, cpid, cp) part) as [[rs1 cpid1] cp1]. simpl in *.
    destruct (IH rs1 cpid1 cp1 w1 Hh1) as (w' & Hrun' & Hh' & Hf').
    exists w'. split; [done|]. split; [done|]. by eapply frame_trans.
Qed.

Lemma forEachFolder_loop nf : ∀ fs rs w,
  holdsResolver nf rs w ->
  ∃ w', Store.forEach (Store.forEachFolder nf) fs (pathMap rs) w =
          Some (pathMap (fold_left forEachFolder fs rs), w') ∧
        holdsResolver nf (fold_left forEachFolder fs rs) w' ∧
        frame (eq nf) (Store.heap w) (Store.heap w').
Proof.
  induction fs as [|f fs IH]; intros rs w Hh.
  - exists w. split; [done|]. split; [done|apply frame_refl].
  - destruct (forEachPart_loop nf (split "/" (Suggestion.path f)) rs None "" w Hh)
      as (w1 & Hrun & Hh1 & Hf1).
    cbn [Store.forEach fold_left]. unfold Store.forEachFolder at 1.
    unfold Store.bind at 1. unfold Store.bind at 1. rewrite Hrun. unfold Store.ret. simpl.
    destruct (IH _ w1 Hh1) as (w' & Hrun' & Hh' & Hf').
    exists w'. split; [done|]. split; [done|]. by eapply frame_trans.
Qed.

Lemma readLibrary_Some h l L :
  Store.readLibrary h l = Some L ->
  ∃ bl fl be fe, h !! l = Some (Store.OLibrary bl fl) ∧
    Store.readArray h bl = Some be ∧ Store.readBookmarks h be = Some (bookmarks L) ∧
    Store.readArray h fl = Some fe ∧ Store.readFolders h fe = Some (folders L).
Proof.
  unfold Store.readLibrary. destruct (h !! l) as [[| | |bl fl]|] eqn:Hl; try done.
  intros H. exists bl, fl.
  destruct (Store.readArray h bl) as [be|] eqn:Hbl; [|done]. simpl in H.
  destruct (Store.readBookmarks h be) as [bs|] eqn:Hbe; [|done]. simpl in H.
  destruct (Store.readArray h fl) as [fe|] eqn:Hfl; [|done]. simpl in H.
  destruct (Store.readFolders h fe) as [fs|] eqn:Hfe; [|done]. simpl in H.
  exists be, fe. by simplify_eq.
Qed.

Lemma readLibrary_intro h l bl fl be fe bs fs :
  h !! l = Some (Store.OLibrary bl fl) ->
  Store.readArray h bl = Some be -> Store.readBookmarks h be = Some bs ->
  Store.readArray h fl = Some fe -> Store.readFolders h fe = Some fs ->
  Store.readLibrary h l = Some {| bookmarks := bs; folders := fs |}.
Proof.
  intros Hl Hbl Hbe Hfl Hfe. unfold Store.readLibrary.
  rewrite Hl, Hbl. simpl. rewrite Hbe. simpl. rewrite Hfl. simpl. by rewrite Hfe.
Qed.

Lemma not_fresh h l o : h !! l = Some o -> ¬ fresh h l.
Proof. intros H%lookup_lt_Some. unfold fresh. lia. Qed.

Lemma Forall_not_fresh h elems : Forall (λ l, l < length h) elems -> Forall (λ l, ¬ fresh h l) elems.
Proof. intros H. eapply Forall_impl; [done|]. unfold fresh. intros; simpl in *; lia. Qed.

Lemma readLibrary_frame h h' l L :
  frame (fresh h) h h' -> Store.readLibrary h l = Some L -> Store.readLibrary h' l = Some L.
Proof.
  intros Hf (bl & fl & be & fe & Hl & Hbl & Hbe & Hfl & Hfe)%readLibrary_Some.
  destruct L as [bs fs]. simpl in *.
  eapply readLibrary_intro.
  - apply Hf; [done|by eapply not_fresh].
  - eapply readArray_frame; [done| |done]. eapply not_fresh, readArray_Some, Hbl.
  - eapply readBookmarks_frame; [done| |done]. by eapply Forall_not_fresh, readBookmarks_lt.
  - eapply readArray_frame; [done| |done]. eapply not_fresh, readArray_Some, Hfl.
  - eapply readFolders_frame; [done| |done]. by eapply Forall_not_fresh, readFolders_lt.
Qed.

Lemma frame_fresh_eq h0 h h' l :
  frame (eq l) h h' -> length h0 ≤ l -> frame (fresh h0) h h'.
Proof. intros Hf Hl. eapply frame_mono; [|done]. intros ? <-. done. Qed.

Lemma loadLibrary_Some w l bl fl :
  Store.heap w !! l = Some (Store.OLibrary bl fl) -> Store.loadLibrary l w = Some ((bl, fl), w).
Proof. intros H. unfold Store.loadLibrary, Store.bind, Store.load. by rewrite H. Qed.

Lemma applySuggestion_store w library L sug :
  Store.readLibrary (Store.heap w) library = Some L ->
  ∃ res w', Store.applySuggestion sug library w = Some (res, w') ∧
    frame (fresh (Store.heap w)) (Store.heap w) (Store.heap w') ∧
    length (Store.heap w) ≤ res ∧
    Store.readLibrary (Store.heap w') res =
      applySuggestion (Store.random w) (Some sug) (Some L).
Proof.
  intros HL.
  pose proof HL as (bl & fl & be & fe & Hl & Hbl & Hbe & Hfl & Hfe)%readLibrary_Some.
  destruct w as [h0 r]. simpl in *.
  unfold Store.applySuggestion.
  unfold Store.bind at 1. unfold Store.alloc at 1. simpl.
  set (nf := length h0). set (h1 := h0 ++ [Store.OArray []]).
  assert (frame (fresh h0) h0 h1) as Hf01 by apply frame_alloc.
  rewrite (bind_Some _ _ (Store.mkWorld h1 r) _ _
             (loadLibrary_Some (Store.mkWorld h1 r) library bl fl
                (lookup_app_l_Some _ _ _ _ Hl))). simpl.
  assert (Store.readArray h1 bl = Some be) as Hbl1.
  { eapply (readArray_frame (fresh h0)); [done| |done]. eapply not_fresh, readArray_Some, Hbl. }
  rewrite (bind_Some _ _ (Store.mkWorld h1 r) _ _ (loadArray_Some (Store.mkWorld h1 r) _ _ Hbl1)).
  unfold Store.bind at 1. unfold Store.alloc at 1. simpl.
  set (ub := length h1). set (h2 := h1 ++ [Store.OArray be]).
  assert (length h1 = S nf) as Hlen1 by (unfold h1; rewrite length_app; simpl; lia).
  assert (frame (fresh h0) h0 h2) as Hf02.
  { eapply frame_trans; [done|apply frame_alloc]. }
  (* the first loop *)
  assert (holdsResolver nf {| newFolders := []; pathMap := ∅; rand := r |}
            (Store.mkWorld h2 r)) as Hh2.
  { split; [done|]. exists []. split; [|done]. unfold Store.readArray. simpl.
    unfold h2. rewrite lookup_app_l by lia.
    unfold h1. rewrite lookup_app_r by lia. unfold nf. by rewrite Nat.sub_diag. }
  destruct (forEachFolder_loop nf (Suggestion.folders sug) _ _ Hh2)
    as (w3 & Hrun1 & [Hr3 (nfe & Hnf3 & Hnfe3)] & Hf23).
  simpl in Hrun1.
  rewrite (bind_Some _ _ _ _ _ Hrun1).
  fold (resolveFolders r (Suggestion.folders sug)) in *.
  set (rs := resolveFolders r (Suggestion.folders sug)) in *.
  (* the second loop *)
  assert (Store.readArray (Store.heap w3) ub = Some be) as Hub3.
  { eapply (readArray_frame (eq nf)); [exact Hf23|lia|]. unfold Store.readArray. simpl.
    unfold h2. rewrite lookup_app_r by lia. unfold ub. by rewrite Nat.sub_diag. }
  assert (Store.readBookmarks (Store.heap w3) be = Some (bookmarks L)) as Hbe3.
  { eapply (readBookmarks_frame (eq nf)); [exact Hf23| |].
    - eapply Forall_impl; [eapply readBookmarks_lt, Hbe|]. simpl. unfold nf. intros; lia.
    - eapply (readBookmarks_frame (fresh h0)); [exact Hf02| |done].
      by eapply Forall_not_fresh, readBookmarks_lt. }
  destruct (forEachAssignment_loop (pathMap rs) ub (Suggestion.assignments sug) w3 _ _ Hub3 Hbe3)
    as (w4 & be' & Hrun2 & Hf34 & Hr4 & Hub4 & Hbe4).
  rewrite (bind_Some _ _ _ _ _ Hrun2).
  unfold Store.alloc.
  eexists _, _. split; [reflexivity|]. simpl.
  assert (frame (fresh h0) h0 (Store.heap w4)) as Hf04.
  { eapply frame_trans; [exact Hf02|]. eapply frame_trans.
    - eapply frame_fresh_eq; [exact Hf23|done].
    - eapply frame_fresh_eq; [exact Hf34|]. unfold ub. lia. }
  split; [eapply frame_trans; [exact Hf04|apply frame_alloc]|].
  assert (ub < length (Store.heap w4)) as Hublt by (eapply lookup_lt_Some, readArray_Some, Hub4).
  split; [unfold ub in Hublt; lia|].
  destruct L as [bs fs]. simpl in *.
  eapply readLibrary_intro.
  - rewrite lookup_app_r by lia. by rewrite Nat.sub_diag.
  - eapply (readArray_frame (λ _, False)); [apply frame_alloc|tauto|exact Hub4].
  - eapply (readBookmarks_frame (λ _, False)); [apply frame_alloc| |exact Hbe4].
    apply Forall_forall. tauto.
  - eapply (readArray_frame (λ _, False)); [apply frame_alloc|tauto|].
    eapply (readArray_frame (eq ub)); [exact Hf34|lia|exact Hnf3].
  - eapply (readFolders_frame (λ _, False)); [apply frame_alloc|apply Forall_forall; tauto|].
    eapply (readFolders_frame (eq ub)); [exact Hf34| |exact Hnfe3].
    eapply Forall_impl; [eapply readFolders_not_array; [exact Hnfe3|]|].
    + apply readArray_Some, Hub3.
    + simpl. intros ? ? ?. done.
Qed.

Lemma mapMove_spec ids target : ∀ elems w bs,
  Store.readBookmarks (Store.heap w) elems = Some bs ->
  ∃ elems' w', Store.mapMove ids target elems w = Some (elems', w') ∧
    frame (λ _, False) (Store.heap w) (Store.heap w') ∧
    Store.random w' = Store.random w ∧
    Store.readBookmarks (Store.heap w') elems' =
      Some (map (λ b, if includes ids (Bookmark.id b)
                      then Bookmark.with_folder b (Some target) else b) bs).
Proof.
  induction elems as [|l elems IH]; intros w bs Hr.
  - assert (bs = []) as ->.
    { unfold Store.readBookmarks in Hr. apply mapM_Some in Hr. by inversion Hr. }
    exists [], w. split; [done|]. split; [apply frame_refl|done].
  - apply readBookmarks_cons in Hr as (b & bs' & -> & Hl & Hr).
    cbn [Store.mapMove map].
    rewrite (bind_Some _ _ _ _ _ (loadBookmark_Some _ _ _ Hl)).
    destruct (includes ids (Bookmark.id b)).
    + unfold Store.bind at 1. unfold Store.alloc at 1.
      set (b' := Bookmark.with_folder b (Some target)).
      set (w1 := Store.mkWorld (Store.heap w ++ [Store.OBookmark b']) (Store.random w)).
      assert (frame (λ _, False) (Store.heap w) (Store.heap w1)) as Hf1 by apply frame_alloc.
      destruct (IH w1 bs') as (elems' & w' & Hrun & Hf & Hrand & Hr').
      { eapply readBookmarks_frame; [exact Hf1|apply Forall_forall; tauto|done]. }
      rewrite (bind_Some _ _ _ _ _ Hrun). unfold Store.ret.
      eexists _, _. split; [reflexivity|]. split; [by eapply frame_trans|].
      split; [done|].
      change (length (Store.heap w) :: elems') with ([length (Store.heap w)] ++ elems').
      change (b' :: ?x) with ([b'] ++ x). apply readBookmarks_app; [|done].
      unfold Store.readBookmarks. simpl.
      rewrite (Hf _ (Store.OBookmark b')); [done| |tauto].
      simpl. rewrite lookup_app_r by lia. by rewrite Nat.sub_diag.
    + unfold Store.bind at 1. unfold Store.ret at 1.
      destruct (IH w bs' Hr) as (elems' & w' & Hrun & Hf & Hrand & Hr').
      rewrite (bind_Some _ _ _ _ _ Hrun). unfold Store.ret.
      eexists _, _. split; [reflexivity|]. split; [done|]. split; [done|].
      change (l :: elems') with ([l] ++ elems').
      change (b :: ?x) with ([b] ++ x). apply readBookmarks_app; [|done].
      unfold Store.readBookmarks. simpl. by rewrite (Hf _ _ Hl ltac:(tauto)).
Qed.

Lemma frame_none W h h' : frame (λ _, False) h h' -> frame W h h'.
Proof. apply frame_mono. by intros ? []. Qed.

Lemma readBookmarks_avoid h elems bs l o :
  Store.readBookmarks h elems = Some bs -> h !! l = Some o ->
  (∀ b, o ≠ Store.OBookmark b) -> Forall (λ x, ¬ l = x) elems.
Proof.
  unfold Store.readBookmarks. rewrite mapM_Some. intros H2 Hl Ho.
  induction H2 as [|x b elems bs Hx H2 IH]; constructor; [|done].
  intros <-. rewrite Hl in Hx. destruct o; simplify_eq. by eapply Ho.
Qed.

Lemma handleCommand_store w prev L action :
  Store.readLibrary (Store.heap w) prev = Some L ->
  ∃ next w', Store.handleCommand prev action w = Some (next, w') ∧
    frame (fresh (Store.heap w)) (Store.heap w) (Store.heap w') ∧
    length (Store.heap w) ≤ next ∧
    Store.readLibrary (Store.heap w') next =
      (handleCommand (Store.random w) (Some L) action).1.
Proof.
  intros HL.
  pose proof HL as (bl & fl & be & fe & Hl & Hbl & Hbe & Hfl & Hfe)%readLibrary_Some.
  destruct w as [h0 r]. simpl in *.
  unfold Store.handleCommand.
  rewrite (bind_Some _ _ _ _ _ (loadLibrary_Some (Store.mkWorld h0 r) prev bl fl Hl)).
  unfold Store.bind at 1. unfold Store.alloc at 1. simpl.
  set (next := length h0). set (h1 := h0 ++ [Store.OLibrary bl fl]).
  assert (h1 !! next = Some (Store.OLibrary bl fl)) as Hnext.
  { unfold h1. rewrite lookup_app_r by lia. unfold next. by rewrite Nat.sub_diag. }
  assert (frame (λ _, False) h0 h1) as Hf01 by apply frame_alloc.
  assert (length h1 = S next) as Hlen1 by (unfold h1; rewrite length_app; simpl; lia).
  destruct action as [name parentId|ids target].
  - (* CREATE_FOLDER *)
    unfold Store.bind at 1. unfold Store.bind at 1. unfold Store.freshId at 1. simpl.
    unfold Store.bind at 1. unfold Store.alloc at 1. simpl.
    set (f := Folder.mk (r 0) name parentId).
    set (h2 := h1 ++ [Store.OFolder f]).
    set (r' := λ n, r (S n)).
    assert (frame (λ _, False) h0 h2) as Hf02.
    { eapply frame_trans; [done|apply frame_alloc]. }
    rewrite (bind_Some _ _ _ _ _ (loadLibrary_Some (Store.mkWorld h2 r') next bl fl
               (lookup_app_l_Some _ _ _ _ Hnext))). simpl.
    assert (Store.readArray h2 fl = Some fe) as Hfl2.
    { eapply readArray_frame; [exact Hf02|tauto|done]. }
    rewrite (bind_Some _ _ _ _ _ (loadArray_Some (Store.mkWorld h2 r') _ _ Hfl2)).
    unfold Store.bind at 1. unfold Store.alloc at 1. simpl.
    unfold Store.store. simpl.
    assert (h2 !! next = Some (Store.OLibrary bl fl)) as Hnext2.
    { unfold h2. by apply lookup_app_l_Some. }
    rewrite (lookup_app_l_Some _ _ _ _ Hnext2). unfold Store.ret. simpl.
    set (h3 := h2 ++ _).
    eexists _, _. split; [reflexivity|]. simpl.
    assert (length h2 = S (S next)) as Hlen2 by (unfold h2; rewrite length_app; simpl; lia).
    assert (frame (fresh h0) h0 (<[next := Store.OLibrary bl (length h2)]> h3)) as Hf.
    { eapply frame_trans; [apply frame_none, Hf02|].
      eapply frame_trans; [apply frame_alloc|]. apply frame_store. unfold fresh, next. lia. }
    split; [done|]. split; [done|].
    assert (frame (eq next) h0 (<[next := Store.OLibrary bl (length h2)]> h3)) as Hf'.
    { eapply frame_trans; [apply frame_none, Hf02|].
      eapply frame_trans; [apply frame_alloc|]. by apply frame_store. }
    eapply readLibrary_intro.
    + apply list_lookup_insert_eq. unfold h3. rewrite length_app. lia.
    + eapply readArray_frame; [exact Hf'| |done].
      apply readArray_Some, lookup_lt_Some in Hbl. unfold next. lia.
    + eapply readBookmarks_frame; [exact Hf'| |done].
      eapply Forall_impl; [eapply readBookmarks_lt, Hbe|]. simpl. unfold next. intros; lia.
    + unfold Store.readArray. rewrite list_lookup_insert_ne by lia.
      unfold h3. rewrite lookup_app_r by lia. by rewrite Nat.sub_diag.
    + apply readFolders_app.
      * eapply readFolders_frame; [exact Hf'| |done].
        eapply Forall_impl; [eapply readFolders_lt, Hfe|]. simpl. unfold next. intros; lia.
      * unfold Store.readFolders. simpl. rewrite list_lookup_insert_ne by lia.
        unfold h3. rewrite lookup_app_l by lia.
        unfold h2. rewrite lookup_app_r by lia. by rewrite Nat.sub_diag.
  - (* MOVE_BOOKMARKS *)
    unfold Store.bind at 1.
    rewrite (bind_Some _ _ _ _ _ (loadLibrary_Some (Store.mkWorld h1 r) next bl fl Hnext)).
    simpl.
    assert (Store.readArray h1 bl = Some be) as Hbl1.
    { eapply readArray_frame; [exact Hf01|tauto|done]. }
    rewrite (bind_Some _ _ _ _ _ (loadArray_Some (Store.mkWorld h1 r) _ _ Hbl1)).
    destruct (mapMove_spec ids target be (Store.mkWorld h1 r) (bookmarks L))
      as (be' & [h2 r2] & Hrun & Hf12 & Hrand & Hbe').
    { eapply readBookmarks_frame; [exact Hf01|apply Forall_forall; tauto|done]. }
    simpl in *. subst r2.
    rewrite (bind_Some _ _ _ _ _ Hrun).
    unfold Store.bind at 1. unfold Store.alloc at 1. simpl.
    unfold Store.store. simpl.
    assert (h2 !! next = Some (Store.OLibrary bl fl)) as Hnext2 by (apply Hf12; [done|tauto]).
    rewrite (lookup_app_l_Some _ _ _ _ Hnext2). unfold Store.ret. simpl.
    set (h3 := h2 ++ _).
    eexists _, _. split; [reflexivity|]. simpl.
    assert (frame (λ _, False) h0 h3) as Hf03.
    { eapply frame_trans; [done|]. eapply frame_trans; [done|apply frame_alloc]. }
    assert (frame (eq next) h0 (<[next := Store.OLibrary (length h2) fl]> h3)) as Hf'.
    { eapply frame_trans; [apply frame_none, Hf03|]. by apply frame_store. }
    split.
    { eapply frame_mono; [|exact Hf']. intros ? <-. unfold fresh, next. lia. }
    split; [done|].
    assert (next < length h2) as Hlt2 by (by eapply lookup_lt_Some).
    eapply readLibrary_intro.
    + apply list_lookup_insert_eq. unfold h3. rewrite length_app. lia.
    + unfold Store.readArray. rewrite list_lookup_insert_ne by lia.
      unfold h3. rewrite lookup_app_r by lia. by rewrite Nat.sub_diag.
    + eapply (readBookmarks_frame (eq next)); [| |exact Hbe'].
      * eapply frame_trans; [apply frame_none, frame_alloc|].
        by apply frame_store.
      * eapply readBookmarks_avoid; [exact Hbe'|exact Hnext2|done].
    + eapply readArray_frame; [exact Hf'| |done].
      apply readArray_Some, lookup_lt_Some in Hfl. unfold next. lia.
    + eapply readFolders_frame; [exact Hf'| |done].
      eapply Forall_impl; [eapply readFolders_lt, Hfe|]. simpl. unfold next. intros; lia.
Qed.

Lemma frame_fresh_all h h' :
  frame (fresh h) h h' -> ∀ l o, h !! l = Some o -> h' !! l = Some o.
Proof. intros Hf l o Hl. apply Hf; [done|by eapply not_fresh]. Qed.

(** C9. Applying a proposal or an action to a library stored at
    [library] changes no object of the store: the library read at
    [library] afterwards is the one read before, and the result is another
    object, which holds what the pure function computes. *)
Theorem operations_leave_input_library_unchanged
    (w : Store.World) (library : Store.loc) (L : BookmarkLibrary) :
  Store.readLibrary (Store.heap w) library = Some L ->
  (∀ suggestion, ∃ res w',
      Store.applySuggestion suggestion library w = Some (res, w') ∧
      (∀ l o, Store.heap w !! l = Some o -> Store.heap w' !! l = Some o) ∧
      Store.readLibrary (Store.heap w') library = Some L ∧
      res ≠ library ∧
      Store.readLibrary (Store.heap w') res =
        applySuggestion (Store.random w) (Some suggestion) (Some L))
  ∧
  (∀ action, ∃ next w',
      Store.handleCommand library action w = Some (next, w') ∧
      (∀ l o, Store.heap w !! l = Some o -> Store.heap w' !! l = Some o) ∧
      Store.readLibrary (Store.heap w') library = Some L ∧
      next ≠ library ∧
      Store.readLibrary (Store.heap w') next =
        (handleCommand (Store.random w) (Some L) action).1).
Proof.
  intros HL.
  assert (library < length (Store.heap w)) as Hlt.
  { apply readLibrary_Some in HL as (? & ? & ? & ? & Hl & _). by eapply lookup_lt_Some. }
  split.
  - intros sug.
    destruct (applySuggestion_store w library L sug HL) as (res & w' & Hrun & Hf & Hres & Hread).
    exists res, w'. split; [done|]. split; [by apply frame_fresh_all|].
    split; [by eapply readLibrary_frame|]. split; [lia|done].
  - intros action.
    destruct (handleCommand_store w library L action HL) as (res & w' & Hrun & Hf & Hres & Hread).
    exists res, w'. split; [done|]. split; [by apply frame_fresh_all|].
    split; [by eapply readLibrary_frame|]. split; [lia|done].
Qed.

(** A move in [store_example], whose library is stored at 5. *)
Lemma operations_leave_input_library_unchanged_witness :
  Store.readLibrary (Store.heap store_example) 5 = Some library_example ∧
  ∃ next w',
    Store.handleCommand 5 (MOVE_BOOKMARKS ["b1"] "x") store_example = Some (next, w') ∧
    Store.readLibrary (Store.heap w') 5 = Some library_example.
Proof.
  split; [reflexivity|].
  destruct (operations_leave_input_library_unchanged store_example 5 library_example eq_refl)
    as [_ H].
  destruct (H (MOVE_BOOKMARKS ["b1"] "x")) as (next & w' & Hrun & _ & Hread & _).
  exists next, w'. split; [exact Hrun|exact Hread].
Defined.

(** ** The auto-sort listener *)

Lemma BookmarkTreeNode_ind' (P : BookmarkTreeNode -> Prop) :
  (∀ id title url children,
      (∀ cs, children = Some cs -> Forall P cs) -> P (TreeNode id title url children)) ->
  ∀ n, P n.
Proof.
  intros Hstep. fix IH 1. intros [id title url [cs|]].
  - assert (Forall P cs) as Hcs.
    { induction cs as [|c cs IHcs]; constructor; [apply IH|apply IHcs]. }
    apply Hstep. by intros ? [= <-].
  - apply Hstep. by intros ? [=].
Qed.

Lemma indexHolds_push acc names id title :
  indexHolds acc names ->
  indexHolds (acc ++ [(id, title)])
             (<[title := default [] (names !! title) ++ [id]]> names).
Proof.
  intros Hacc name. rewrite List.filter_app, fmap_app. simpl.
  destruct (String.eqb_spec title name) as [->|Hne].
  - rewrite lookup_insert_eq, (Hacc name). simpl.
    by destruct (fst <$> List.filter _ acc).
  - rewrite lookup_insert_ne by done. rewrite (Hacc name). simpl. by rewrite app_nil_r.
Qed.

Lemma plainNames_app a b : plainNames (a ++ b) = plainNames a && plainNames b.
Proof. apply forallb_app. Qed.

(** An index of folders with plain names has no own property under a
    name of the prototype. *)
Lemma indexHolds_inherited acc names name :
  indexHolds acc names → plainNames acc = true → inherited name = true →
  names !! name = None.
Proof.
  intros Hacc Hplain Hname. rewrite (Hacc name).
  assert (List.filter (λ p : string * string, String.eqb p.2 name) acc = []) as ->; [|done].
  clear Hacc. induction acc as [|[i t] acc IH]; [done|].
  cbn [plainNames forallb snd] in Hplain. apply andb_true_iff in Hplain as [Ht Hplain].
  cbn [List.filter snd]. destruct (String.eqb_spec t name) as [->|_]; [|by apply IH].
  by rewrite Hname in Ht.
Qed.

Lemma indexed_getProperty acc ix name :
  indexed acc ix →
  getProperty (folderNameMap ix) name =
  if inherited name then Inherited name
  else match fst <$> List.filter (λ p, String.eqb p.2 name) acc with
       | [] => Absent
       | ids => Own ids
       end.
Proof.
  intros (Hacc & _ & _ & Hplain). unfold getProperty.
  destruct (inherited name) eqn:Hname.
  - by rewrite (indexHolds_inherited acc _ name Hacc Hplain Hname).
  - rewrite (Hacc name). by destruct (fst <$> List.filter _ acc).
Qed.

Lemma fold_traverse_None (f : BookmarkTreeNode → FolderIndex → option FolderIndex) cs :
  fold_left (λ acc child, ix ← acc; f child ix) cs None = None.
Proof. by induction cs. Qed.

(** [traverse] returns exactly when no folder it meets bears a name of the
    prototype, and then it has indexed the folders of the node. *)
Lemma traverse_indexed node : ∀ parentId ix acc,
  parentId ≠ Some "0" → indexed acc ix →
  match traverse node parentId ix with
  | Some ix' => plainNames (preorder node) = true ∧ indexed (acc ++ preorder node) ix'
  | None => plainNames (preorder node) = false
  end.
Proof.
  induction node as [id title url children IH] using BookmarkTreeNode_ind'.
  intros parentId ix acc Hp Hix. cbn [traverse preorder].
  set (here := if negb (truthy_opt url) && negb (String.eqb id "0") then [(id, title)] else []).
  set (first := if negb (truthy_opt url) && negb (String.eqb id "0") then _ else Some ix).
  assert (match first with
          | Some ix1 => plainNames here = true ∧ indexed (acc ++ here) ix1
          | None => plainNames here = false
          end) as Hfirst.
  { subst first here. destruct (negb (truthy_opt url) && negb (String.eqb id "0")) eqn:E;
      [|by rewrite app_nil_r].
    rewrite (indexed_getProperty acc ix title Hix).
    destruct Hix as (Hacc & Hfs & Hoff & Hplain).
    cbn [plainNames forallb snd]. destruct (inherited title) eqn:Ht; [done|].
    assert (offRoot (Folder.mk id title parentId)) as Hnew.
    { split; [|done]. cbn. apply andb_true_iff in E as [_ E]. apply negb_true_iff in E.
      by apply String.eqb_neq in E. }
    pose proof (indexHolds_push acc _ id title Hacc) as Hpush. rewrite (Hacc title) in Hpush.
    assert (plainNames (acc ++ [(id, title)]) = true) as Hplain'.
    { rewrite plainNames_app, Hplain. cbn [plainNames forallb snd andb]. by rewrite Ht. }
    destruct (fst <$> List.filter _ acc) as [|i ids] eqn:Eids; cbn [default] in Hpush.
    all: split; [done|]. all: split; [exact Hpush|]. all: cbn [indexFolders].
    all: rewrite fmap_app, Hfs. all: split; [done|].
    all: split; [|done]. all: apply Forall_app; split; [done|by apply Forall_singleton]. }
  destruct first as [ix1|]; cbn [mbind option_bind].
  - destruct Hfirst as [Hhere Hix1]. rewrite plainNames_app, Hhere, app_assoc. cbn [andb].
    destruct children as [cs|]; [|by rewrite app_nil_r].
    specialize (IH cs eq_refl).
    assert ((if String.eqb id "0" then None else Some id) ≠ Some "0") as Hq.
    { destruct (String.eqb_spec id "0"); [done|]. by intros [=]. }
    generalize dependent (acc ++ here). generalize ix1.
    induction IH as [|c cs Hc _ IHcs]; intros ix' acc' Hacc'; cbn [fold_left flat_map].
    + by rewrite app_nil_r.
    + cbn [mbind option_bind]. specialize (Hc _ ix' acc' Hq Hacc').
      rewrite plainNames_app.
      destruct (traverse c _ ix') as [ix2|].
      * destruct Hc as [Hc1 Hc2]. rewrite Hc1, app_assoc. by apply IHcs.
      * rewrite Hc. by rewrite fold_traverse_None.
  - rewrite plainNames_app, Hfirst. done.
Qed.

Lemma buildIndex_indexed tree :
  match buildIndex tree with
  | Some ix => plainNames (flat_map preorder tree) = true ∧ indexed (flat_map preorder tree) ix
  | None => plainNames (flat_map preorder tree) = false
  end.
Proof.
  unfold buildIndex.
  assert (∀ ix acc, indexed acc ix →
            match fold_left (λ acc node, ix ← acc; traverse node None ix) tree (Some ix) with
            | Some ix' => plainNames (flat_map preorder tree) = true ∧
                          indexed (acc ++ flat_map preorder tree) ix'
            | None => plainNames (flat_map preorder tree) = false
            end) as Hgen.
  { induction tree as [|n tree IH]; intros ix acc Hix; cbn [fold_left flat_map].
    - by rewrite app_nil_r.
    - cbn [mbind option_bind]. pose proof (traverse_indexed n None ix acc) as Hn.
      rewrite plainNames_app.
      destruct (traverse n None ix) as [ix1|].
      + destruct Hn as [Hn1 Hn2]; [done..|]. rewrite Hn1, app_assoc. by apply IH.
      + rewrite Hn by done. by rewrite fold_traverse_None. }
  apply (Hgen (mkIndex [] ∅) []). split; [|done]. intros name. apply lookup_empty.
Qed.

Lemma buildIndex_lookup tree ix name ids :
  buildIndex tree = Some ix →
  folderNameMap ix !! name = Some ids →
  ids = idsNamed name tree ∧ ids ≠ [] ∧ inherited name = false.
Proof.
  intros Hix. pose proof (buildIndex_indexed tree) as Hb. rewrite Hix in Hb.
  destruct Hb as [_ Hb]. destruct (inherited name) eqn:Hname.
  - destruct Hb as (Hacc & _ & _ & Hplain).
    by rewrite (indexHolds_inherited _ _ name Hacc Hplain Hname).
  - destruct Hb as (Hacc & _). rewrite (Hacc name). unfold idsNamed.
    destruct (fst <$> List.filter _ _); [done|]. by intros [= <-].
Qed.

Lemma getProperty_own {A} (m : gmap string A) k a :
  m !! k = Some a → getProperty m k = Own a.
Proof. intros Hk. unfold getProperty. by rewrite Hk. Qed.

Lemma getProperty_none {A} (m : gmap string A) k :
  m !! k = None → getProperty m k = if inherited k then Inherited k else Absent.
Proof. intros Hk. unfold getProperty. by rewrite Hk. Qed.

(** The look-up of a name that the prototype does not define is the one
    of the own properties. *)
Lemma truthyProperty_plain (created : gmap string string) target :
  inherited target = false →
  truthyProperty (getProperty created target) = truthy_opt (created !! target).
Proof. intros Hname. unfold getProperty. destruct (created !! target); [done|]. by rewrite Hname. Qed.

Lemma resolveTarget_created created names target id :
  created !! target = Some id → truthy id = true →
  resolveTarget created names target = Some (VString id, []).
Proof.
  intros Hc Ht. unfold resolveTarget. by rewrite (getProperty_own _ _ _ Hc), Ht.
Qed.

Lemma resolveTarget_inherited created names target :
  created !! target = None → inherited target = true →
  resolveTarget created names target = Some (VInherited target, []).
Proof.
  intros Hc Hname. unfold resolveTarget. by rewrite (getProperty_none _ _ Hc), Hname.
Qed.

(** When the session gives nothing for the target, the name index
    decides. *)
Lemma resolveTarget_fromNames created names target :
  truthyProperty (getProperty created target) = false →
  resolveTarget created names target =
  match getProperty names target with
  | Own ids =>
      if length ids =? 1 then Some (firstOf ids, [])
      else Some (firstOf ids, [ambiguousWarning target ids])
  | Inherited name =>
      match inheritedLength name with
      | Some 1 => Some (VUndefined, [])
      | _ => None
      end
  | Absent => Some (VString target, [])
  end.
Proof.
  intros Hc. unfold resolveTarget.
  destruct (getProperty created target) as [id|name|]; cbn in Hc; [by rewrite Hc|done|done].
Qed.

Lemma onAction_move {H} `{BookmarksApi H} bid btitle names (s : Session H) ids target v w :
  resolveTarget (createdFolders s) names target = Some (v, w) →
  ∃ s', onAction bid btitle names s (MOVE_BOOKMARKS ids target) = Some s' ∧
        createdFolders s' = createdFolders s ∧
        (∀ line, line ∈ w → line ∈ console s') ∧
        host s' = if includes ids bid && truthyValue v
                  then afterMove (host s) (move (host s) bid v)
                  else host s.
Proof.
  intros Hres. unfold onAction. rewrite Hres.
  destruct (includes ids bid && truthyValue v).
  - destruct (move (host s) bid v); eexists; (split; [reflexivity|]); cbn;
      (split; [done|]); (split; [|done]); intros line Hl;
      rewrite !elem_of_app; tauto.
  - eexists. split; [reflexivity|]. cbn. split; [done|]. split; [|done].
    intros line Hl. rewrite !elem_of_app. tauto.
Qed.

(** C5. The handler of the application keeps no index: on the batch of
    the claim, which creates [Dev] and moves [b2] to [Dev], it writes the
    name [Dev] into the folder field of [b2], while the folder just created
    has the identifier [i]: the bookmark is in no folder of the library.
    The listener resolves the same batch to the created folder. *)
Lemma handleCommand_batch_takes_target_literally :
  (handleCommand
     (handleCommand tally (Some library_example) (CREATE_FOLDER "Dev" None)).2
     (handleCommand tally (Some library_example) (CREATE_FOLDER "Dev" None)).1
     (MOVE_BOOKMARKS ["b2"] "Dev")).1 =
  Some {| bookmarks := [ Bookmark.mk "b1" "T1" "u1" None None None (Some "old");
                         Bookmark.mk "b2" "T2" "u2" None None None (Some "Dev") ];
          folders := [ Folder.mk "old" "Old" None; Folder.mk "i" "Dev" None ] |}.
Proof. reflexivity. Qed.

(** C6, as amended. Once the index is built, when it has more than one
    identifier for the target and the session has created no folder of
    that name, the identifiers are those of the folders of that name in
    pre-order, the target resolves to the first of them, the warning is
    logged, and the action returns; the bookmark, if the action lists it,
    is moved to that first folder. *)
Theorem ambiguous_name_takes_first {H} `{BookmarksApi H}
    (tree : list BookmarkTreeNode) (ix : FolderIndex) (created : gmap string string)
    (target : string) (ids : list string) :
  buildIndex tree = Some ix ->
  folderNameMap ix !! target = Some ids ->
  1 < length ids ->
  truthy_opt (created !! target) = false ->
  ids = idsNamed target tree
  ∧ ∃ first, head ids = Some first
    ∧ resolveTarget created (folderNameMap ix) target =
        Some (VString first, [ambiguousWarning target ids])
    ∧ ∀ bid btitle (s : Session H) bookmarkIds,
        createdFolders s = created ->
        ∃ s', onAction bid btitle (folderNameMap ix) s
                       (MOVE_BOOKMARKS bookmarkIds target) = Some s'
          ∧ ambiguousWarning target ids ∈ console s'
          ∧ (includes bookmarkIds bid = true -> truthy first = true ->
             host s' = afterMove (host s) (move (host s) bid (VString first))).
Proof.
  intros Hix Hn Hlen Hc.
  destruct (buildIndex_lookup _ _ _ _ Hix Hn) as (Hids & _ & Hname). split; [done|].
  destruct ids as [|first rest]; [simpl in Hlen; lia|].
  exists first. split; [done|].
  assert (resolveTarget created (folderNameMap ix) target =
            Some (VString first, [ambiguousWarning target (first :: rest)])) as Hres.
  { rewrite resolveTarget_fromNames by (by rewrite truthyProperty_plain).
    rewrite (getProperty_own _ _ _ Hn).
    destruct (length (first :: rest) =? 1) eqn:Hl; [|done].
    apply Nat.eqb_eq in Hl. lia. }
  split; [done|].
  intros bid btitle s bookmarkIds <-.
  destruct (onAction_move bid btitle (folderNameMap ix) s bookmarkIds target _ _ Hres)
    as (s' & Hrun & _ & Hw & Hhost).
  exists s'. split; [done|]. split; [apply Hw; by left|].
  intros Hin Hfirst. rewrite Hhost, Hin. cbn. by rewrite Hfirst.
Qed.

(** Two folders named [Dev]: the first in pre-order is taken. *)
Lemma ambiguous_name_takes_first_witness :
  ∃ ix, buildIndex twoDevs = Some ix ∧
        folderNameMap ix !! "Dev" = Some ["5"; "7"] ∧
        resolveTarget ∅ (folderNameMap ix) "Dev" =
          Some (VString "5", [ambiguousWarning "Dev" ["5"; "7"]]).
Proof.
  destruct (buildIndex twoDevs) as [ix|] eqn:E; [|by vm_compute in E].
  exists ix. split; [done|].
  assert (folderNameMap ix !! "Dev" = Some ["5"; "7"]) as Hn.
  { vm_compute in E. injection E as <-. reflexivity. }
  split; [done|].
  destruct (@ambiguous_name_takes_first SimpleHost _ twoDevs ix ∅ "Dev" ["5"; "7"])
    as (_ & first & Hfirst & Hres & _).
  - exact E.
  - exact Hn.
  - simpl. lia.
  - reflexivity.
  - simpl in Hfirst. injection Hfirst as <-. exact Hres.
Defined.

(** C6 as the specification states it fails when the session has created
    a folder of the same name: the created folder is taken, and no warning
    is logged. *)
Lemma ambiguous_name_shadowed_by_created_folder :
  ¬ (∀ (ix : FolderIndex) (created : gmap string string) (target : string)
       (ids : list string),
       buildIndex twoDevs = Some ix ->
       folderNameMap ix !! target = Some ids ->
       1 < length ids ->
       ∃ warning, resolveTarget created (folderNameMap ix) target =
                    Some (firstOf ids, [ConsoleWarn warning])).
Proof.
  intros Hall.
  destruct (buildIndex twoDevs) as [ix|] eqn:E; [|by vm_compute in E].
  vm_compute in E. injection E as <-.
  destruct (Hall _ {["Dev" := "99"]} "Dev" ["5"; "7"] eq_refl) as [warning Hres].
  - reflexivity.
  - simpl. lia.
  - vm_compute in Hres. discriminate Hres.
Qed.

(** X18. The resolution of the target in the listener, look-up by
    look-up: a non-empty identifier the session has created under the
    target wins; a target that is a name of the prototype and that the
    session has not created resolves to what the prototype defines, not to
    the target; otherwise the name index gives its first identifier, or
    the target stands for itself when the index has no entry. The move is
    asked of the host for whatever value the resolution gives, and the
    callback that runs after the one that created [Dev] moves to the folder
    just created. *)
Theorem listener_target_resolution {H} `{BookmarksApi H}
    (created : gmap string string) (names : gmap string (list string))
    (target : string) :
  (∀ id, created !! target = Some id -> truthy id = true ->
         resolveTarget created names target = Some (VString id, []))
  ∧ (created !! target = None -> inherited target = true ->
       resolveTarget created names target = Some (VInherited target, []))
  ∧ (∀ ids, truthy_opt (created !! target) = false -> inherited target = false ->
            names !! target = Some ids ->
            ∃ w, resolveTarget created names target = Some (firstOf ids, w))
  ∧ (truthy_opt (created !! target) = false -> inherited target = false ->
       names !! target = None ->
       resolveTarget created names target = Some (VString target, []))
  ∧ (∀ bid btitle (s : Session H) ids v w,
       createdFolders s = created -> includes ids bid = true ->
       resolveTarget created names target = Some (v, w) -> truthyValue v = true ->
       ∃ s', onAction bid btitle names s (MOVE_BOOKMARKS ids target) = Some s' ∧
             host s' = afterMove (host s) (move (host s) bid v))
  ∧ (∀ bid btitle (s : Session H) ids fid h1,
       create (host s) "Dev" "1" = Some (fid, h1) -> truthy fid = true ->
       includes ids bid = true ->
       ∃ s1 s', onAction bid btitle names s (CREATE_FOLDER "Dev" None) = Some s1 ∧
                onAction bid btitle names s1 (MOVE_BOOKMARKS ids "Dev") = Some s' ∧
                createdFolders s' !! "Dev" = Some fid ∧
                host s' = afterMove h1 (move h1 bid (VString fid))).
Proof.
  split; [|split; [|split; [|split; [|split]]]].
  - intros id Hid Ht. by apply resolveTarget_created.
  - intros Hc Hname. by apply resolveTarget_inherited.
  - intros ids Hc Hname Hn.
    rewrite resolveTarget_fromNames by (by rewrite truthyProperty_plain).
    rewrite (getProperty_own _ _ _ Hn). destruct (length ids =? 1); by eexists.
  - intros Hc Hname Hn.
    rewrite resolveTarget_fromNames by (by rewrite truthyProperty_plain).
    by rewrite (getProperty_none _ _ Hn), Hname.
  - intros bid btitle s ids v w <- Hin Hres Hv.
    destruct (onAction_move bid btitle names s ids target v w Hres)
      as (s' & Hrun & _ & _ & Hhost).
    exists s'. split; [done|]. by rewrite Hhost, Hin, Hv.
  - intros bid btitle s ids fid h1 Hcreate Hfid Hin.
    set (s1 := mkSession (setProperty (createdFolders s) "Dev" fid) h1
                 (console s ++ [ConsoleLog ("Created folder " +:+ "Dev" +:+ " with ID " +:+ fid)])).
    assert (createdFolders s1 !! "Dev" = Some fid) as Hdev by apply lookup_insert_eq.
    destruct (onAction_move bid btitle names s1 ids "Dev" (VString fid) [])
      as (s' & Hrun & Hcf & _ & Hhost).
    { by apply resolveTarget_created. }
    exists s1, s'. split; [|split; [done|split]].
    + unfold onAction. cbn [orElse]. by rewrite Hcreate.
    + by rewrite Hcf.
    + rewrite Hhost, Hin. cbn. by rewrite Hfid.
Qed.

(** A target that is a name of the prototype: the host is asked to move
    the bookmark to the function [Object], and refuses. *)
Lemma listener_hands_over_inherited_value :
  resolveTarget ∅ ∅ "constructor" = Some (VInherited "constructor", []) ∧
  onAction "6" "News" ∅ (mkSession ∅ (mkHost ["1"; "2"] ∅ 8) [])
           (MOVE_BOOKMARKS ["6"] "constructor")
  = Some (mkSession ∅ (mkHost ["1"; "2"] ∅ 8)
            [ConsoleError ("Failed to move bookmark to function Object() { [native code] }: "
                           +:+ "TypeError: Error in invocation of bookmarks.move")]).
Proof. split; reflexivity. Qed.

Lemma filter_folderEntry name (fs : list Folder.t) :
  fst <$> List.filter (λ p : string * string, String.eqb p.2 name) (folderEntry <$> fs)
  = Folder.id <$> List.filter (λ f, String.eqb (Folder.name f) name) fs.
Proof.
  induction fs as [|f fs IH]; [done|]. cbn.
  destruct (String.eqb (Folder.name f) name); cbn; by rewrite IH.
Qed.

Lemma plainNames_false acc :
  plainNames acc = false ↔ ∃ id title, (id, title) ∈ acc ∧ inherited title = true.
Proof.
  induction acc as [|[i t] acc IH].
  - split; [done|]. intros (id & title & Hin & _). by apply elem_of_nil in Hin.
  - cbn [plainNames forallb snd]. fold (plainNames acc). rewrite andb_false_iff, IH.
    rewrite negb_false_iff. split.
    + intros [Ht|(id & title & Hin & Ht)].
      * exists i, t. split; [left|done].
      * exists id, title. split; [by right|done].
    + intros (id & title & [Heq|Hin]%elem_of_cons & Ht).
      * injection Heq as -> ->. by left.
      * right. by exists id, title.
Qed.

(** X10. [traverse] throws exactly when a folder of the tree bears a name
    that the prototype of the name index defines. When it returns, the two
    structures it has built agree: a look-up of a name in the index gives
    the identifiers of the folders of the context library that bear it, in
    the order of the library, nothing when no folder bears it, and what the
    prototype defines for one of its names; the first identifier of an
    entry always exists. The root [0] is no folder of the library and no
    folder's parent. *)
Theorem buildIndex_names_agree_with_folders (tree : list BookmarkTreeNode) :
  (buildIndex tree = None ↔
   ∃ id title, (id, title) ∈ flat_map preorder tree ∧ inherited title = true)
  ∧ ∀ ix, buildIndex tree = Some ix →
      (∀ name,
         getProperty (folderNameMap ix) name =
         if inherited name then Inherited name
         else match Folder.id <$> List.filter (λ f, String.eqb (Folder.name f) name)
                                    (indexFolders ix) with
              | [] => Absent
              | ids => Own ids
              end)
      ∧ (∀ name ids, getProperty (folderNameMap ix) name = Own ids →
           ∃ f, f ∈ indexFolders ix ∧ Folder.name f = name ∧ head ids = Some (Folder.id f))
      ∧ (∀ f, f ∈ indexFolders ix → Folder.id f ≠ "0" ∧ Folder.parentId f ≠ Some "0").
Proof.
  pose proof (buildIndex_indexed tree) as Hb.
  pose proof (plainNames_false (flat_map preorder tree)) as Hplain.
  split.
  - rewrite <- Hplain. destruct (buildIndex tree) as [ix|]; [|done].
    destruct Hb as [Hb _]. by rewrite Hb.
  - intros ix Hix. rewrite Hix in Hb. destruct Hb as [_ Hb].
    assert (∀ name,
              getProperty (folderNameMap ix) name =
              if inherited name then Inherited name
              else match Folder.id <$> List.filter (λ f, String.eqb (Folder.name f) name)
                                         (indexFolders ix) with
                   | [] => Absent
                   | ids => Own ids
                   end) as Hmap.
    { intros name. rewrite (indexed_getProperty _ _ name Hb).
      destruct Hb as (_ & <- & _). by rewrite filter_folderEntry. }
    split; [done|]. split.
    + intros name ids. rewrite Hmap. destruct (inherited name); [done|].
      destruct (List.filter _ _) as [|f fs] eqn:Ef; [done|]. cbn. intros [= <-].
      assert (In f (List.filter (λ f, String.eqb (Folder.name f) name) (indexFolders ix)))
        as Hin by (rewrite Ef; by left).
      apply filter_In in Hin as [Hin Hname]. exists f. split; [by apply list_elem_of_In|].
      split; [by apply String.eqb_eq|done].
    + intros f Hf. destruct Hb as (_ & _ & Hoff & _).
      by apply (proj1 (Forall_forall _ _) Hoff).
Qed.

(** The index of [twoDevs] is built; a folder titled [constructor] makes
    [traverse] throw. *)
Lemma buildIndex_names_agree_with_folders_witness :
  buildIndex constructorTree = None ∧
  ∃ ix, buildIndex twoDevs = Some ix ∧
        getProperty (folderNameMap ix) "Dev" = Own ["5"; "7"] ∧
        getProperty (folderNameMap ix) "toString" = Inherited "toString".
Proof.
  split.
  - apply (proj1 (buildIndex_names_agree_with_folders constructorTree)).
    exists "5", "constructor". split; [|reflexivity]. cbn. right. left.
  - destruct (buildIndex twoDevs) as [ix|] eqn:E; [|by vm_compute in E].
    exists ix. split; [done|].
    destruct (proj2 (buildIndex_names_agree_with_folders twoDevs) ix E) as (Hmap & _).
    rewrite !Hmap. vm_compute in E. injection E as <-. split; reflexivity.
Defined.

(** X14. The earlier listener collects nothing from a tree whose roots
    bear the identifier [0], as the tree of the host does: its context
    library has no folder and its name index no entry. A move that lists
    the new bookmark, towards a name the session has not created, then
    asks the host for a move to that very name, even when a folder of the
    tree bears it, and, for a name of the prototype, to what the prototype
    defines under it. *)
Theorem earlier_listener_skips_the_root {H} `{BookmarksApi H}
    (tree : list BookmarkTreeNode) (bid btitle : string) (s : Session H)
    (ids : list string) (target : string) :
  Forall (λ node, nodeId node = "0") tree →
  includes ids bid = true →
  createdFolders s !! target = None →
  let ix := Earlier.buildIndex tree in
  Earlier.indexFolders ix = [] ∧ Earlier.folderNameMap ix = ∅ ∧
  ∃ s', Earlier.onAction bid btitle (Earlier.folderNameMap ix) s
          (MOVE_BOOKMARKS ids target) = Some s'
        ∧ createdFolders s' = createdFolders s
        ∧ host s' = afterMove (host s)
                      (move (host s) bid
                         (if inherited target then VInherited target else VString target)).
Proof.
  intros Hroot Hin Hc. cbn zeta.
  assert (Earlier.buildIndex tree = Earlier.mkIndex [] ∅) as ->.
  { unfold Earlier.buildIndex. generalize (Earlier.mkIndex [] ∅).
    induction Hroot as [|[id title url children] tree Hid _ IH]; intros ix; [done|].
    cbn [fold_left]. cbn in Hid. subst id. cbn [Earlier.traverse].
    rewrite String.eqb_refl, andb_false_r. apply IH. }
  split; [done|]. split; [done|].
  unfold Earlier.onAction. cbn [Earlier.folderNameMap]. rewrite Hin.
  assert (Earlier.resolveTarget (createdFolders s) ∅ target
          = if inherited target then VInherited target else VString target) as ->.
  { unfold Earlier.resolveTarget. rewrite (getProperty_none _ _ Hc).
    rewrite (getProperty_none (∅ : gmap string string) target) by apply lookup_empty.
    by destruct (inherited target). }
  destruct (move (host s) bid _); eexists; (split; [reflexivity|done]).
Qed.

(** The folder [Dev] of the tree is not found: the host is asked for a
    move to [Dev], refuses, and the bookmark stays where it was. *)
Lemma earlier_listener_skips_the_root_witness :
  Earlier.indexFolders (Earlier.buildIndex twoDevs) = [] ∧
  ∃ s', Earlier.onAction "6" "News" (Earlier.folderNameMap (Earlier.buildIndex twoDevs))
          (mkSession ∅ (mkHost ["1"; "2"; "5"; "7"] ∅ 8) []) (MOVE_BOOKMARKS ["6"] "Dev")
        = Some s' ∧
        host s' = mkHost ["1"; "2"; "5"; "7"] ∅ 8.
Proof.
  destruct (earlier_listener_skips_the_root twoDevs "6" "News"
              (mkSession ∅ (mkHost ["1"; "2"; "5"; "7"] ∅ 8) []) ["6"] "Dev")
    as (Hfs & _ & s' & Hrun & _ & Hhost).
  - repeat constructor.
  - reflexivity.
  - reflexivity.
  - split; [exact Hfs|]. exists s'. split; [exact Hrun|]. exact Hhost.
Defined.

(** ** Escaping *)

Lemma replaceAll_app c by_ a b :
  replaceAll c by_ (a +:+ b) = replaceAll c by_ a +:+ replaceAll c by_ b.
Proof.
  induction a as [|x a IH]; [done|].
  rewrite string_app_cons. simpl. rewrite IH.
  destruct (Ascii.eqb x c); [by rewrite string_app_assoc|done].
Qed.

Lemma escapeHtml_cons x s :
  escapeHtml (String x s) = escapeHtml (String x "") +:+ escapeHtml s.
Proof.
  unfold escapeHtml.
  change (String x s) with (String x "" +:+ s).
  by rewrite !replaceAll_app.
Qed.

Lemma escapeHtml_char x : escapeHtml (String x "") = escapeChar x.
Proof.
  unfold escapeHtml, escapeChar. simpl.
  destruct (Ascii.eqb_spec x "&") as [->|H1]; [done|]. simpl.
  destruct (Ascii.eqb_spec x "<") as [->|H2]; [done|]. simpl.
  destruct (Ascii.eqb_spec x ">") as [->|H3]; [done|]. simpl.
  destruct (Ascii.eqb_spec x "034") as [->|H4]; [done|]. simpl.
  destruct (Ascii.eqb_spec x "'") as [->|H5]; done.
Qed.

Lemma escapeHtml_spec s : escapeHtml s = escapeSpec s.
Proof.
  induction s as [|x s IH]; [done|].
  rewrite escapeHtml_cons, escapeHtml_char, IH. done.
Qed.

Lemma markup_app a b : markup (a +:+ b) = markup a +:+ markup b.
Proof.
  induction a as [|x a IH]; [done|].
  rewrite string_app_cons. simpl. rewrite IH. by destruct (_ || _).
Qed.

Lemma markup_escapeChar c : markup (escapeChar c) = "".
Proof.
  unfold escapeChar.
  destruct (Ascii.eqb_spec c "&") as [->|H1]; [done|].
  destruct (Ascii.eqb_spec c "<") as [->|H2]; [done|].
  destruct (Ascii.eqb_spec c ">") as [->|H3]; [done|].
  destruct (Ascii.eqb_spec c "034") as [->|H4]; [done|].
  destruct (Ascii.eqb_spec c "'") as [->|H5]; [done|].
  simpl.
  apply Ascii.eqb_neq in H2, H3, H4, H5. by rewrite H2, H3, H4, H5.
Qed.

Lemma markup_escapeHtml s : markup (escapeHtml s) = "".
Proof.
  rewrite escapeHtml_spec. induction s as [|x s IH]; [done|].
  simpl. by rewrite markup_app, markup_escapeChar, IH.
Qed.

Lemma prefix_app p a b : String.prefix p a = true -> String.prefix p (a +:+ b) = true.
Proof.
  revert a. induction p as [|x p IH]; intros a.
  - intros _. by destruct (a +:+ b).
  - destruct a as [|y a]; simpl; [done|]. rewrite ?string_app_cons. simpl.
    destruct (ascii_dec x y); [apply IH|done].
Qed.

Lemma startsEntity_app a b : startsEntity a = true -> startsEntity (a +:+ b) = true.
Proof.
  unfold startsEntity. rewrite !orb_true_iff.
  intros [[[[H|H]|H]|H]|H]; apply (prefix_app _ _ b) in H; tauto.
Qed.

Lemma ampsOk_app a b : ampsOk a = true -> ampsOk b = true -> ampsOk (a +:+ b) = true.
Proof.
  induction a as [|x a IH]; [done|].
  rewrite string_app_cons. simpl. rewrite !andb_true_iff. intros [Hx Ha] Hb.
  split; [|by apply IH].
  destruct (Ascii.eqb x "&"); [by apply startsEntity_app|done].
Qed.

Ltac string_app := rewrite ?string_app_cons, ?string_app_nil_l.

Lemma ampsOk_entity e s :
  startsEntity e = true -> ampsOk e = true -> ampsOk s = true ->
  ampsOk (String "&" e +:+ s) = true.
Proof.
  intros He Hok Hs. rewrite string_app_cons. simpl.
  rewrite (startsEntity_app _ _ He). by apply ampsOk_app.
Qed.

Lemma ampsOk_escapeChar c s : ampsOk s = true -> ampsOk (escapeChar c +:+ s) = true.
Proof.
  intros Hs. unfold escapeChar.
  destruct (Ascii.eqb_spec c "&") as [->|H1]; [by apply ampsOk_entity|].
  destruct (Ascii.eqb_spec c "<") as [->|H2]; [by apply ampsOk_entity|].
  destruct (Ascii.eqb_spec c ">") as [->|H3]; [by apply ampsOk_entity|].
  destruct (Ascii.eqb_spec c "034") as [->|H4]; [by apply ampsOk_entity|].
  destruct (Ascii.eqb_spec c "'") as [->|H5]; [by apply ampsOk_entity|].
  string_app. simpl. apply Ascii.eqb_neq in H1. by rewrite H1, Hs.
Qed.

Lemma ampsOk_escapeHtml s : ampsOk (escapeHtml s) = true.
Proof.
  rewrite escapeHtml_spec. induction s as [|x s IH]; [done|].
  simpl. by apply ampsOk_escapeChar.
Qed.

Lemma ampsOk_spaces n : ampsOk (repeat_string " " n) = true.
Proof. induction n as [|n IH]; [done|]. simpl. by string_app. Qed.

Lemma markup_folderOpen space f :
  markup (folderOpen space f) = markup (folderOpen space (blankFolder f)).
Proof. unfold folderOpen. by rewrite !markup_app, !markup_escapeHtml. Qed.

Lemma ampsOk_folderOpen space f :
  ampsOk space = true -> ampsOk (folderOpen space f) = true.
Proof.
  intros Hs. unfold folderOpen.
  repeat (apply ampsOk_app; [done || apply ampsOk_escapeHtml|]). done.
Qed.

Lemma ampsOk_folderClose space : ampsOk space = true -> ampsOk (folderClose space) = true.
Proof. intros Hs. unfold folderClose. by repeat (apply ampsOk_app; [done|]). Qed.

Lemma markup_optAttr attr v : markup (optAttr attr v) = markup (optAttr attr (blankOpt v)).
Proof.
  unfold optAttr, blankOpt. destruct v as [s|]; [|done]. simpl.
  destruct (truthy s); [|done]. simpl. by rewrite !markup_app, !markup_escapeHtml.
Qed.

Lemma ampsOk_optAttr attr v : ampsOk attr = true -> ampsOk (optAttr attr v) = true.
Proof.
  intros Ha. unfold optAttr. destruct v as [s|]; [|done].
  destruct (truthy s); [|done].
  repeat (apply ampsOk_app; [done || apply ampsOk_escapeHtml|]). done.
Qed.

Lemma markup_bookmarkLine space b :
  markup (bookmarkLine space b) = markup (bookmarkLine space (blankBookmark b)).
Proof.
  unfold bookmarkLine. rewrite !markup_app, !markup_escapeHtml. simpl.
  by rewrite <- !markup_optAttr.
Qed.

Lemma ampsOk_bookmarkLine space b :
  ampsOk space = true -> ampsOk (bookmarkLine space b) = true.
Proof.
  intros Hs. unfold bookmarkLine.
  repeat (apply ampsOk_app;
          [done || apply ampsOk_escapeHtml || (by apply ampsOk_optAttr)|]).
  done.
Qed.

Lemma filter_blankFolder p (fs : list Folder.t) :
  filter (λ f, Folder.parentId f = p) (blankFolder <$> fs)
  = blankFolder <$> filter (λ f, Folder.parentId f = p) fs.
Proof.
  induction fs as [|f fs IH]; [done|]. rewrite fmap_cons, !filter_cons. simpl.
  destruct (decide (Folder.parentId f = p)); by rewrite IH.
Qed.

Lemma filter_blankBookmark p (bs : list Bookmark.t) :
  filter (λ b, Bookmark.folder b = p) (blankBookmark <$> bs)
  = blankBookmark <$> filter (λ b, Bookmark.folder b = p) bs.
Proof.
  induction bs as [|b bs IH]; [done|]. rewrite fmap_cons, !filter_cons. simpl.
  destruct (decide (Bookmark.folder b = p)); by rewrite IH.
Qed.

Lemma bookmarkLines_markup space bs :
  ampsOk space = true ->
  markup (concat (bookmarkLine space <$> bs))
    = markup (concat (bookmarkLine space <$> (blankBookmark <$> bs)))
  ∧ ampsOk (concat (bookmarkLine space <$> bs)) = true.
Proof.
  intros Hs. induction bs as [|b bs [IH1 IH2]]; [done|].
  rewrite !fmap_cons. cbn [concat].
  rewrite !markup_app, IH1, <- markup_bookmarkLine. split; [done|].
  apply ampsOk_app; [by apply ampsOk_bookmarkLine|done].
Qed.

Lemma mapM_sameMarkup {A} (F G : A -> option string) (h : A -> A) (l : list A) :
  (∀ x, sameMarkup (F x) (G (h x))) ->
  sameMarkup (concat <$> mapM F l) (concat <$> mapM G (h <$> l)).
Proof.
  intros HFG. induction l as [|x l IH]; [done|].
  rewrite fmap_cons. cbn [mapM]. specialize (HFG x).
  destruct (F x) as [a|], (G (h x)) as [b|]; try done; simpl.
  destruct (mapM F l) as [xs|], (mapM G (h <$> l)) as [ys|]; try done; simpl in *.
  destruct HFG as [Hm Ha], IH as [IHm IHa]. rewrite !markup_app, Hm, IHm.
  split; [done|by apply ampsOk_app].
Qed.

Lemma renderItems_sameMarkup fuel library : ∀ parentId indent,
  sameMarkup (renderItems fuel library parentId indent)
             (renderItems fuel (blankLibrary library) parentId indent).
Proof.
  induction fuel as [|fuel IH]; intros parentId indent; [done|].
  cbn [renderItems].
  set (space := repeat_string " " indent).
  assert (ampsOk space = true) as Hs by apply ampsOk_spaces.
  cbn [blankLibrary folders bookmarks].
  rewrite filter_blankFolder, filter_blankBookmark.
  set (F := λ f : Folder.t,
         inner ← renderItems fuel library (Some (Folder.id f)) (indent + 4);
         Some (folderOpen space f +:+ inner +:+ folderClose space)).
  set (G := λ f : Folder.t,
         inner ← renderItems fuel (blankLibrary library) (Some (Folder.id f)) (indent + 4);
         Some (folderOpen space f +:+ inner +:+ folderClose space)).
  pose proof (mapM_sameMarkup F G blankFolder
                (filter (λ f, Folder.parentId f = parentId) (folders library))) as Hmap.
  destruct (bookmarkLines_markup space
              (filter (λ b, Bookmark.folder b = parentId) (bookmarks library)) Hs) as [Hb1 Hb2].
  assert (∀ x, sameMarkup (F x) (G (blankFolder x))) as HFG.
  { intros f. unfold F, G. cbn [blankFolder Folder.id].
    specialize (IH (Some (Folder.id f)) (indent + 4)).
    destruct (renderItems fuel library _ _) as [a|],
             (renderItems fuel (blankLibrary library) _ _) as [b|]; try done; simpl.
    destruct IH as [IHm IHa]. rewrite !markup_app, IHm, <- markup_folderOpen.
    split; [done|].
    apply ampsOk_app; [by apply ampsOk_folderOpen|].
    apply ampsOk_app; [done|by apply ampsOk_folderClose]. }
  specialize (Hmap HFG).
  destruct (mapM F _) as [xs|], (mapM G _) as [ys|]; try done; simpl in *.
  destruct Hmap as [Hm Ha]. rewrite !markup_app, Hm, Hb1.
  split; [done|by apply ampsOk_app].
Qed.

Lemma ampsOk_exportHeader : ampsOk exportHeader = true.
Proof. vm_compute. reflexivity. Qed.

Lemma exportToHTML_sameMarkup fuel library :
  sameMarkup (exportToHTML fuel library) (exportToHTML fuel (blankLibrary library)).
Proof.
  unfold exportToHTML.
  pose proof (renderItems_sameMarkup fuel library None 4) as H.
  destruct (renderItems fuel library None 4) as [a|],
           (renderItems fuel (blankLibrary library) None 4) as [b|].
  - cbn [mbind option_bind sameMarkup].
    destruct H as [Hm Ha].
    rewrite (markup_app exportHeader), (markup_app a).
    rewrite (markup_app exportHeader), (markup_app b), Hm. split; [reflexivity|].
    apply ampsOk_app; [apply ampsOk_exportHeader|].
    apply ampsOk_app; [exact Ha|]. vm_compute. reflexivity.
  - destruct H.
  - destruct H.
  - exact I.
Qed.

(** C4. [escapeHtml] replaces each of the five characters by its
    reference and leaves no markup character; every name, title, URL, date
    and icon enters the file through it; the file of any library has the
    markup characters of the file of the same library with every text
    emptied, and each of its ampersands starts one of the five references;
    the title [Tom & Jerry <test>] is exported as
    [Tom &amp; Jerry &lt;test&gt;]. *)
Theorem exported_fields_are_escaped :
  (∀ s, escapeHtml s = escapeSpec s)
  ∧ (∀ s, markup (escapeHtml s) = "" ∧ ampsOk (escapeHtml s) = true)
  ∧ (∀ fuel library html,
       exportToHTML fuel library = Some html ->
       ampsOk html = true
       ∧ ∃ html0, exportToHTML fuel (blankLibrary library) = Some html0
                  ∧ markup html = markup html0)
  ∧ (∀ space b,
       bookmarkLine space b =
         space +:+ "<DT><A HREF=" +:+ dquote +:+ escapeSpec (Bookmark.url b) +:+ dquote +:+
         optAttr "ADD_DATE" (Bookmark.addDate b) +:+ optAttr "ICON" (Bookmark.icon b) +:+
         ">" +:+ escapeSpec (Bookmark.title b) +:+ "</A>" +:+ newline)
  ∧ (∀ attr s, truthy s = true ->
       optAttr attr (Some s) = " " +:+ attr +:+ "=" +:+ dquote +:+ escapeSpec s +:+ dquote)
  ∧ (∀ space f,
       folderOpen space f =
         space +:+ "<DT><H3>" +:+ escapeSpec (Folder.name f) +:+ "</H3>" +:+ newline +:+
         space +:+ "<DL><p>" +:+ newline)
  ∧ exportToHTML 1
      {| bookmarks := [Bookmark.mk "b1" "Tom & Jerry <test>" "http://x.com" None None None None];
         folders := [] |}
    = Some (exportHeader +:+ "    <DT><A HREF=" +:+ dquote +:+ "http://x.com" +:+ dquote +:+
            ">Tom &amp; Jerry &lt;test&gt;</A>" +:+ newline +:+ "</DL><p>").
Proof.
  split; [apply escapeHtml_spec|].
  split; [intros s; split; [apply markup_escapeHtml|apply ampsOk_escapeHtml]|].
  split.
  { intros fuel library html Hhtml.
    pose proof (exportToHTML_sameMarkup fuel library) as H. rewrite Hhtml in H.
    destruct (exportToHTML fuel (blankLibrary library)) as [html0|]; [|done].
    destruct H as [Hm Ha]. split; [done|]. by exists html0. }
  split; [intros; unfold bookmarkLine; by rewrite !escapeHtml_spec|].
  split; [intros attr s Hs; unfold optAttr; by rewrite Hs, escapeHtml_spec|].
  split; [intros; unfold folderOpen; by rewrite !escapeHtml_spec|].
  vm_compute. reflexivity.
Qed.

(** ** Bookmarks outside the tree of the root *)

Lemma mapM_ext_in {A B} (f g : A -> option B) (l : list A) :
  (∀ x, x ∈ l -> f x = g x) -> mapM f l = mapM g l.
Proof.
  induction l as [|x l IH]; intros Hfg; [done|]. cbn [mapM].
  rewrite (Hfg x) by left. rewrite IH; [done|]. intros y Hy. apply Hfg. by right.
Qed.

Lemma rendered_child library parentId f :
  rendered library parentId -> f ∈ folders library -> Folder.parentId f = parentId ->
  rendered library (Some (Folder.id f)).
Proof.
  intros Hr Hf Hp. destruct parentId as [p|]; simpl in *.
  - by eapply reachable_child.
  - by apply reachable_root.
Qed.

(** Two libraries with the same folders whose bookmarks differ only in
    bookmarks that no rendered context holds render alike. *)
Lemma renderItems_same_bookmarks fuel library library' :
  folders library' = folders library ->
  (∀ parentId, rendered library parentId ->
     filter (λ b, Bookmark.folder b = parentId) (bookmarks library')
     = filter (λ b, Bookmark.folder b = parentId) (bookmarks library)) ->
  ∀ parentId indent, rendered library parentId ->
    renderItems fuel library' parentId indent = renderItems fuel library parentId indent.
Proof.
  intros Hf Hb. induction fuel as [|fuel IH]; intros parentId indent Hr; [done|].
  cbn [renderItems]. rewrite Hf, (Hb parentId Hr).
  erewrite mapM_ext_in; [reflexivity|].
  intros f [Hin Hp]%list_elem_of_filter. cbn beta.
  by rewrite IH by (by eapply rendered_child).
Qed.

Lemma filter_dangling (pre post : list Bookmark.t) b parentId :
  Bookmark.folder b ≠ parentId ->
  filter (λ b, Bookmark.folder b = parentId) (pre ++ post)
  = filter (λ b, Bookmark.folder b = parentId) (pre ++ b :: post).
Proof.
  intros Hne. rewrite !filter_app, filter_cons.
  by destruct (decide (Bookmark.folder b = parentId)).
Qed.

(** C10. A bookmark whose folder is an identifier that no folder reachable
    from the root bears is not in the exported file: the file is the one
    of the library without that bookmark. *)
Theorem dangling_bookmark_not_exported (fuel : nat) (library : BookmarkLibrary)
    (pre post : list Bookmark.t) (b : Bookmark.t) (x : string) :
  bookmarks library = pre ++ b :: post ->
  Bookmark.folder b = Some x ->
  ¬ reachable library x ->
  exportToHTML fuel library =
  exportToHTML fuel {| bookmarks := pre ++ post; folders := folders library |}.
Proof.
  intros Hb Hx Hnr. unfold exportToHTML.
  rewrite <- (renderItems_same_bookmarks fuel library
                {| bookmarks := pre ++ post; folders := folders library |});
    [reflexivity|reflexivity| |exact I].
  intros parentId Hr. cbn [bookmarks]. rewrite Hb. apply filter_dangling.
  rewrite Hx. intros <-. by apply Hnr.
Qed.

Lemma not_reachable_gone : ¬ reachable danglingLibrary "gone".
Proof.
  intros H. inversion H as [f Hf Hp Hid|f p Hf Hp Hr Hid];
    apply list_elem_of_singleton in Hf; subst f; discriminate.
Qed.

(** The bookmark of [danglingLibrary] in the folder [gone]. *)
Lemma dangling_bookmark_not_exported_witness :
  exportToHTML 2 danglingLibrary =
  exportToHTML 2 {| bookmarks := [ Bookmark.mk "b1" "Kept" "http://a.example" None None None None ];
                    folders := [ Folder.mk "f1" "Dev" None ] |}.
Proof.
  apply (dangling_bookmark_not_exported 2 danglingLibrary
           [ Bookmark.mk "b1" "Kept" "http://a.example" None None None None ] []
           (Bookmark.mk "b2" "Lost" "http://b.example" None None None (Some "gone")) "gone").
  - reflexivity.
  - reflexivity.
  - exact not_reachable_gone.
Defined.

(** ** Parsing without a list *)

Lemma pushFlatLink_fold links : ∀ bs fs r,
  parsedBookmarks (fold_left pushFlatLink links (mkParsed bs fs r))
    = bs ++ imap (λ i link, flatBookmark (r i) link) links
  ∧ parsedFolders (fold_left pushFlatLink links (mkParsed bs fs r)) = fs.
Proof.
  induction links as [|link links IH]; intros bs fs r.
  - simpl. by rewrite app_nil_r.
  - cbn [fold_left].
    change (pushFlatLink (mkParsed bs fs r) link)
      with (mkParsed (bs ++ [flatBookmark (r 0) link]) fs (λ n, r (S n))).
    destruct (IH (bs ++ [flatBookmark (r 0) link]) fs (λ n, r (S n))) as [Hb Hf].
    rewrite Hb, Hf. split; [|done]. by rewrite <- app_assoc.
Qed.

(** C8. A document without a [dl] element is read as a library without
    folders whose bookmarks are the links of the document, in document
    order, each at the root; [<a href='http://x.com'>X</a>] gives one
    bookmark, at the root, and no folder. *)
Theorem fallback_parse_flat (r : Rand) (html : string) :
  (querySelector "dl" (parseFromString html) = None ->
   parseBookmarksHTML r html =
     {| bookmarks := imap (λ i link, flatBookmark (r i) link)
                          (querySelectorAll "a" (parseFromString html));
        folders := [] |})
  ∧ parseBookmarksHTML r "<a href='http://x.com'>X</a>" =
      {| bookmarks := [Bookmark.mk (r 0) "X" "http://x.com" None None None None];
         folders := [] |}.
Proof.
  split; [|vm_compute; reflexivity].
  intros Hdl. unfold parseBookmarksHTML, parseDocument. rewrite Hdl.
  destruct (pushFlatLink_fold (querySelectorAll "a" (parseFromString html)) [] [] r)
    as [Hb Hf].
  by rewrite Hb, Hf.
Qed.

(** A paragraph with two links and no [dl]. *)
Lemma fallback_parse_flat_witness :
  querySelector "dl" (parseFromString "<p>See <a href=x>this</a> and <a>that</a>") = None ∧
  parseBookmarksHTML hostId "<p>See <a href=x>this</a> and <a>that</a>" =
    {| bookmarks := [ Bookmark.mk "0" "this" "x" None None None None;
                      Bookmark.mk "1" "that" "" None None None None ];
       folders := [] |}.
Proof.
  split; [vm_compute; reflexivity|].
  destruct (fallback_parse_flat hostId "<p>See <a href=x>this</a> and <a>that</a>") as [H _].
  rewrite H; [|vm_compute; reflexivity]. vm_compute. reflexivity.
Defined.

(** ** The round trip

    The exported text as the text of a tree of items. *)

Lemma mapM_fmap_in {A B C} (F : A → option C) (G : A → option B) (φ : B → C) l :
  (∀ x, x ∈ l → F x = φ <$> G x) → mapM F l = fmap φ <$> mapM G l.
Proof.
  induction l as [|a l IH]; intros H; [done|].
  cbn. rewrite (H a) by left. rewrite IH by (intros; apply H; by right).
  destruct (G a); [|done]. cbn. by destruct (mapM G l).
Qed.

Lemma concat_app a b : concat (a ++ b) = concat a +:+ concat b.
Proof.
  induction a as [|x a IH]; cbn [concat app].
  - by rewrite string_app_nil_l.
  - by rewrite IH, string_app_assoc.
Qed.

Lemma renderItems_itemsOf fuel L parentId indent :
  renderItems fuel L parentId indent = renderTree indent <$> itemsOf fuel L parentId.
Proof.
  revert parentId indent. induction fuel as [|fuel IH]; intros parentId indent; [done|].
  cbn [renderItems itemsOf].
  rewrite (mapM_fmap_in _ (λ f, inner ← itemsOf fuel L (Some (Folder.id f));
                              Some (IFolder f inner)) (renderItem indent)).
  2:{ intros f _. rewrite IH. by destruct (itemsOf fuel L (Some (Folder.id f))). }
  destruct (mapM _ _) as [fs|]; [|done].
  cbn. f_equal. unfold renderTree. rewrite map_app, concat_app. f_equal.
  by rewrite <- list_fmap_compose.
Qed.

(** *** The tokens of an exported file *)

Lemma tokRun_app st a b :
  tokRun st (a +:+ b) =
  (let '(st1, o1) := tokRun st a in
   let '(st2, o2) := tokRun st1 b in (st2, o1 ++ o2)).
Proof.
  revert st. induction a as [|c a IH]; intros st.
  - rewrite string_app_nil_l. cbn [tokRun]. by destruct (tokRun st b).
  - rewrite string_app_cons. cbn [tokRun]. destruct (tokStep st c) as [st1 o1].
    rewrite IH. destruct (tokRun st1 a) as [st2 o2].
    destruct (tokRun st2 b) as [st3 o3]. by rewrite app_assoc.
Qed.

Lemma tokRun_step st a b st1 o1 st2 o2 :
  tokRun st a = (st1, o1) → tokRun st1 b = (st2, o2) →
  tokRun st (a +:+ b) = (st2, o1 ++ o2).
Proof. intros Ha Hb. by rewrite tokRun_app, Ha, Hb. Qed.

Lemma tokensFrom_tokRun st a b st1 o1 :
  tokRun st a = (st1, o1) → tokensFrom st (a +:+ b) = o1 ++ tokensFrom st1 b.
Proof.
  revert st st1 o1. induction a as [|c a IH]; intros st st1 o1.
  - rewrite string_app_nil_l. cbn [tokRun]. by intros [= <- <-].
  - rewrite string_app_cons. cbn [tokRun tokensFrom].
    destruct (tokStep st c) as [st' o']. destruct (tokRun st' a) as [st2 o2] eqn:E.
    intros [= <- <-]. rewrite (IH _ _ _ E). by rewrite app_assoc.
Qed.

Lemma chars_app a b : chars (a +:+ b) = chars a ++ chars b.
Proof.
  unfold chars. induction a as [|c a IH].
  - by rewrite string_app_nil_l.
  - rewrite string_app_cons. cbn. by rewrite IH.
Qed.

Lemma chars_cons c s : chars (String c s) = TChar c :: chars s.
Proof. done. Qed.

(** Text without [&] and [<] is read as its characters. *)
Lemma tokRun_text s :
  occurs "&" s = false → occurs "<" s = false →
  tokRun (SText None) s = (SText None, chars s).
Proof.
  induction s as [|c s IH]; [done|].
  cbn [occurs]. intros [H1 H2]%orb_false_elim [H3 H4]%orb_false_elim.
  cbn [tokRun tokStep stepText]. rewrite H1, H3, (IH H2 H4). done.
Qed.

Lemma occurs_repeat_space c n :
  Ascii.eqb " " c = false → occurs c (repeat_string " " n) = false.
Proof.
  intros H. induction n as [|n IH]; [done|].
  cbn [repeat_string]. rewrite string_app_cons, string_app_nil_l. cbn [occurs].
  by rewrite H, IH.
Qed.

Lemma tokRun_spaces n :
  tokRun (SText None) (repeat_string " " n) = (SText None, chars (repeat_string " " n)).
Proof. apply tokRun_text; by apply occurs_repeat_space. Qed.

Lemma tokRun_escapeChar c :
  tokRun (SText None) (escapeChar c) = (SText None, [TChar c]).
Proof.
  unfold escapeChar.
  destruct (Ascii.eqb_spec c "&") as [->|H1]; [done|].
  destruct (Ascii.eqb_spec c "<") as [->|H2]; [done|].
  destruct (Ascii.eqb_spec c ">") as [->|H3]; [done|].
  destruct (Ascii.eqb_spec c "034") as [->|H4]; [done|].
  destruct (Ascii.eqb_spec c "'") as [->|H5]; [done|].
  cbn [tokRun tokStep stepText].
  apply Ascii.eqb_neq in H1, H2. by rewrite H1, H2.
Qed.

(** Escaped text is read back as the text. *)
Lemma tokRun_escapeHtml s :
  tokRun (SText None) (escapeHtml s) = (SText None, chars s).
Proof.
  rewrite escapeHtml_spec. induction s as [|c s IH]; [done|].
  cbn [escapeSpec]. rewrite (tokRun_step _ _ _ _ _ _ _ (tokRun_escapeChar c) IH). done.
Qed.

Lemma tokRun_attr_escapeChar t name v c :
  Ascii.eqb c "000" = false →
  tokRun (SAttrValue DoubleQuoted t name v) (escapeChar c)
  = (SAttrValue DoubleQuoted t name (v +:+ String c ""), []).
Proof.
  intros H0. unfold escapeChar.
  destruct (Ascii.eqb_spec c "&") as [->|H1]; [done|].
  destruct (Ascii.eqb_spec c "<") as [->|H2]; [done|].
  destruct (Ascii.eqb_spec c ">") as [->|H3]; [done|].
  destruct (Ascii.eqb_spec c "034") as [->|H4]; [done|].
  destruct (Ascii.eqb_spec c "'") as [->|H5]; [done|].
  cbn [tokRun tokStep stepAttrValue].
  apply Ascii.eqb_neq in H1, H4. rewrite H1, H4. unfold snocNul, snoc. by rewrite H0.
Qed.

(** An escaped attribute value is read back as the value. *)
Lemma tokRun_attr_escapeHtml t name v s :
  occurs "000" s = false →
  tokRun (SAttrValue DoubleQuoted t name v) (escapeHtml s)
  = (SAttrValue DoubleQuoted t name (v +:+ s), []).
Proof.
  rewrite escapeHtml_spec. revert v. induction s as [|c s IH]; intros v H.
  - by rewrite string_app_nil_r.
  - cbn [occurs] in H. apply orb_false_elim in H as [H1 H2].
    cbn [escapeSpec].
    rewrite (tokRun_step _ _ _ _ _ _ _ (tokRun_attr_escapeChar t name v c H1) (IH _ H2)).
    rewrite string_app_assoc. done.
Qed.

Lemma tokenizes_app a b x y :
  tokenizes a x → tokenizes b y → tokenizes (a +:+ b) (x ++ y).
Proof. apply tokRun_step. Qed.

Lemma tokenizes_nil : tokenizes "" [].
Proof. done. Qed.

Lemma tokRun_optAttr NAME name attrs o :
  (∀ t, tokRun (SAfterAttrValue t) (" " +:+ NAME +:+ "=" +:+ dquote)
        = (SAttrValue DoubleQuoted t name "", [])) →
  existsb (λ a, String.eqb a.1 name) attrs = false →
  plainOpt o →
  tokRun (SAfterAttrValue (mkTag false "a" attrs)) (optAttr NAME o)
  = (SAfterAttrValue (mkTag false "a" (attrs ++ optTokenAttr name o)), []).
Proof.
  intros Hname Hfresh Ho. unfold optAttr, optTokenAttr.
  destruct o as [s|]; [|by rewrite app_nil_r].
  destruct (truthy s); [|by rewrite app_nil_r].
  destruct Ho as [Ho _].
  replace (" " +:+ NAME +:+ "=" +:+ dquote +:+ escapeHtml s +:+ dquote)
    with ((" " +:+ NAME +:+ "=" +:+ dquote) +:+ escapeHtml s +:+ dquote)
    by (by rewrite !string_app_assoc).
  assert (Hq : ∀ v, tokRun (SAttrValue DoubleQuoted (mkTag false "a" attrs) name v) dquote
               = (SAfterAttrValue (mkTag false "a" (attrs ++ [(name, v)])), [])).
  { intros v. cbn [tokRun tokStep stepAttrValue dquote].
    replace (Ascii.eqb "034" "034") with true by done.
    unfold addAttr. cbn [tattrs isEnd tname]. by rewrite Hfresh. }
  rewrite (tokRun_step _ _ _ _ _ _ _ (Hname _)
             (tokRun_step _ _ _ _ _ _ _ (tokRun_attr_escapeHtml _ _ _ _ Ho) (Hq _))).
  by rewrite string_app_nil_l.
Qed.

Lemma tokenizes_bookmark indent b :
  plainBookmark b →
  tokenizes (renderItem indent (IBookmark b)) (itemTokens indent (IBookmark b)).
Proof.
  intros (Ht & Hu & Hd & Hi). cbn [renderItem itemTokens]. unfold bookmarkLine.
  apply tokenizes_app; [apply tokRun_spaces|].
  set (t0 := mkTag false "a" []).
  assert (H1 : tokRun (SText None) ("<DT><A HREF=" +:+ dquote)
               = (SAttrValue DoubleQuoted t0 "href" "", [TStartTag "dt" [] false]))
    by (vm_compute; reflexivity).
  replace ("<DT><A HREF=" +:+ dquote +:+ escapeHtml (Bookmark.url b) +:+ dquote +:+
           optAttr "ADD_DATE" (Bookmark.addDate b) +:+ optAttr "ICON" (Bookmark.icon b) +:+
           ">" +:+ escapeHtml (Bookmark.title b) +:+ "</A>" +:+ newline)
    with (("<DT><A HREF=" +:+ dquote) +:+ escapeHtml (Bookmark.url b) +:+ dquote +:+
           optAttr "ADD_DATE" (Bookmark.addDate b) +:+ optAttr "ICON" (Bookmark.icon b) +:+
           ">" +:+ escapeHtml (Bookmark.title b) +:+ "</A>" +:+ newline)
    by (by rewrite !string_app_assoc).
  unfold tokenizes.
  assert (H2 : tokRun (SAttrValue DoubleQuoted t0 "href" (Bookmark.url b)) dquote
               = (SAfterAttrValue (mkTag false "a" [("href", Bookmark.url b)]), []))
    by done.
  assert (H3 := tokRun_optAttr "ADD_DATE" "add_date" [("href", Bookmark.url b)]
                  (Bookmark.addDate b) (λ t, eq_refl) eq_refl Hd).
  assert (H4 := tokRun_optAttr "ICON" "icon"
                  ([("href", Bookmark.url b)] ++ optTokenAttr "add_date" (Bookmark.addDate b))
                  (Bookmark.icon b) (λ t, eq_refl)).
  rewrite <- app_assoc in H4. fold (linkAttrs b) in H4.
  specialize (H4 ltac:(by destruct (Bookmark.addDate b) as [d|]; cbn; [destruct (truthy d)|])
                 Hi).
  assert (H5 : tokRun (SAfterAttrValue (mkTag false "a" (linkAttrs b))) ">"
               = (SText None, [TStartTag "a" (linkAttrs b) false])) by done.
  assert (H6 : tokRun (SText None) "</A>" = (SText None, [TEndTag "a"])) by done.
  assert (H7 : tokRun (SText None) newline = (SText None, chars newline)) by done.
  destruct Hu as [Hu _].
  assert (H8 := tokRun_attr_escapeHtml t0 "href" "" _ Hu).
  rewrite string_app_nil_l in H8.
  rewrite (tokRun_step _ _ _ _ _ _ _ H1
          (tokRun_step _ _ _ _ _ _ _ H8
          (tokRun_step _ _ _ _ _ _ _ H2
          (tokRun_step _ _ _ _ _ _ _ H3
          (tokRun_step _ _ _ _ _ _ _ H4
          (tokRun_step _ _ _ _ _ _ _ H5
          (tokRun_step _ _ _ _ _ _ _ (tokRun_escapeHtml _)
          (tokRun_step _ _ _ _ _ _ _ H6 H7)))))))).
  done.
Qed.

Lemma Item_ind' (P : Item → Prop) :
  (∀ b, P (IBookmark b)) →
  (∀ f inner, Forall P inner → P (IFolder f inner)) →
  ∀ it, P it.
Proof.
  intros Hb Hf. fix IH 1. intros [f inner|b]; [|apply Hb].
  apply Hf. induction inner as [|i inner IHl]; constructor; [apply IH|apply IHl].
Qed.

Lemma plainItem_folder f inner :
  plainItem (IFolder f inner) ↔ plainFolder f ∧ Forall plainItem inner.
Proof.
  cbn [plainItem]. apply and_iff_compat_l.
  induction inner as [|i inner IH]; [by split; [constructor|]|].
  rewrite Forall_cons, IH. done.
Qed.

Lemma tokenizes_item indent it :
  plainItem it →
  tokenizes (renderItem indent it) (itemTokens indent it).
Proof.
  revert indent. induction it as [b|f inner IH] using Item_ind'; intros indent Hp.
  { by apply tokenizes_bookmark. }
  apply plainItem_folder in Hp as [Hf Hin].
  assert (Hinner : tokenizes (concat (map (renderItem (indent + 4)) inner))
                     (flat_map (itemTokens (indent + 4)) inner)).
  { clear Hf. induction inner as [|i inner IHl]; [done|].
    apply Forall_cons in IH as [IH1 IH2]. apply Forall_cons in Hin as [Hin1 Hin2].
    cbn [map concat flat_map]. apply tokenizes_app; [by apply IH1|by apply IHl]. }
  cbn [renderItem itemTokens]. unfold folderOpen, folderClose.
  rewrite !string_app_assoc.
  repeat first
    [ apply (tokenizes_app _ _ (chars (repeat_string " " indent)));
        [apply tokRun_spaces|]
    | apply (tokenizes_app "<DT><H3>" _ [TStartTag "dt" [] false; TStartTag "h3" [] false]);
        [done|]
    | apply (tokenizes_app _ _ (chars (Folder.name f))); [apply tokRun_escapeHtml|]
    | apply (tokenizes_app "</H3>" _ [TEndTag "h3"]); [done|]
    | rewrite (chars_app newline);
      rewrite <- (app_assoc (chars newline) (chars (repeat_string " " indent)));
      apply (tokenizes_app newline _ (chars newline)); [done|]
    | apply (tokenizes_app "<DL><p>" _ [TStartTag "dl" [] false; TStartTag "p" [] false]);
        [done|]
    | apply (tokenizes_app newline _ (chars newline)); [done|]
    | apply (tokenizes_app _ _ _ _ Hinner)
    | apply (tokenizes_app "</DL><p>" _ [TEndTag "dl"; TStartTag "p" [] false]);
        [done|] ].
  done.
Qed.

Lemma tokenizes_tree indent items :
  Forall plainItem items →
  tokenizes (renderTree indent items) (flat_map (itemTokens indent) items).
Proof.
  unfold renderTree. induction 1 as [|i items Hi _ IH]; [done|].
  cbn [map concat flat_map]. apply tokenizes_app; [by apply tokenizes_item|done].
Qed.

Lemma openOf_folder indent f inner :
  openOf indent (IFolder f inner)
  = OpenFolder [listNode (indent + 4) (repeat_string " " indent) inner;
                Text (newline +:+ repeat_string " " indent); headingNode f].
Proof. reflexivity. Qed.

Lemma occurs_app c a b : occurs c (a +:+ b) = occurs c a || occurs c b.
Proof.
  induction a as [|x a IH]; [by rewrite string_app_nil_l|].
  rewrite string_app_cons. cbn [occurs]. by rewrite IH, orb_assoc.
Qed.

Lemma normalizeNewlines_id s : occurs "013" s = false → normalizeNewlines s = s.
Proof.
  induction s as [|c s IH]; [done|]. cbn [occurs normalizeNewlines].
  intros [H1 H2]%orb_false_elim. by rewrite H1, IH.
Qed.

Lemma occurs_cr_escapeChar x : occurs "013" (escapeChar x) = Ascii.eqb x "013".
Proof.
  unfold escapeChar.
  destruct (Ascii.eqb_spec x "&") as [->|H1]; [done|].
  destruct (Ascii.eqb_spec x "<") as [->|H2]; [done|].
  destruct (Ascii.eqb_spec x ">") as [->|H3]; [done|].
  destruct (Ascii.eqb_spec x "034") as [->|H4]; [done|].
  destruct (Ascii.eqb_spec x "'") as [->|H5]; [done|].
  cbn [occurs]. by rewrite orb_false_r.
Qed.

Lemma occurs_cr_escapeHtml s : occurs "013" (escapeHtml s) = occurs "013" s.
Proof.
  rewrite escapeHtml_spec. induction s as [|x s IH]; [done|].
  cbn [escapeSpec occurs]. by rewrite occurs_app, occurs_cr_escapeChar, IH.
Qed.

Lemma occurs_cr_optAttr name o :
  occurs "013" name = false → plainOpt o → occurs "013" (optAttr name o) = false.
Proof.
  intros Hn Ho. destruct o as [s|]; [|done]. unfold optAttr.
  destruct (truthy s); [|done]. destruct Ho as [_ Ho].
  by rewrite !occurs_app, occurs_cr_escapeHtml, Hn, Ho.
Qed.

Lemma occurs_cr_item indent it :
  plainItem it → occurs "013" (renderItem indent it) = false.
Proof.
  revert indent. induction it as [b|f inner IH] using Item_ind'; intros indent Hp.
  - destruct Hp as ([_ Ht] & [_ Hu] & Hd & Hi). cbn [renderItem]. unfold bookmarkLine.
    rewrite !occurs_app, !occurs_cr_escapeHtml, Ht, Hu.
    rewrite (occurs_repeat_space "013" indent eq_refl).
    rewrite (occurs_cr_optAttr "ADD_DATE" _ eq_refl Hd).
    by rewrite (occurs_cr_optAttr "ICON" _ eq_refl Hi).
  - apply plainItem_folder in Hp as [[_ Hf] Hin].
    cbn [renderItem]. unfold folderOpen, folderClose.
    rewrite !occurs_app, !occurs_cr_escapeHtml, Hf.
    rewrite (occurs_repeat_space "013" indent eq_refl).
    cbn. rewrite !orb_false_r.
    induction inner as [|i inner IHl]; [done|].
    apply Forall_cons in IH as [IH1 IH2]. apply Forall_cons in Hin as [Hin1 Hin2].
    cbn [map concat]. rewrite occurs_app, IH1, IHl; done.
Qed.

Lemma occurs_cr_tree indent items :
  Forall plainItem items → occurs "013" (renderTree indent items) = false.
Proof.
  unfold renderTree. induction 1 as [|i items Hi _ IH]; [done|].
  cbn [map concat]. by rewrite occurs_app, occurs_cr_item, IH.
Qed.

(** *** The document of an exported file *)

(** The tree builder run over tokens. *)
Lemma build_app ts1 ts2 b :
  fold_left treeStep (ts1 ++ ts2) b = fold_left treeStep ts2 (fold_left treeStep ts1 b).
Proof. apply fold_left_app. Qed.

Lemma build_chars_text s tag attrs t kids rest dk :
  occurs "000" s = false →
  fold_left treeStep (chars s)
    (mkBuilder InBody (mkFrame tag attrs (Text t :: kids) :: rest) dk)
  = mkBuilder InBody (mkFrame tag attrs (Text (t +:+ s) :: kids) :: rest) dk.
Proof.
  revert t. induction s as [|c s IH]; intros t H.
  - by rewrite string_app_nil_r.
  - cbn [occurs] in H. apply orb_false_elim in H as [H1 H2].
    rewrite chars_cons. cbn [fold_left].
    unfold treeStep at 2. cbn [mode inBody stack docKids insertChar fkids ftag fattrs].
    rewrite H1. rewrite (IH _ H2). unfold snoc. by rewrite string_app_assoc.
Qed.

Lemma build_chars_fresh s tag attrs rest dk :
  occurs "000" s = false →
  fold_left treeStep (chars s) (mkBuilder InBody (mkFrame tag attrs [] :: rest) dk)
  = mkBuilder InBody (mkFrame tag attrs (textKids s) :: rest) dk.
Proof.
  destruct s as [|c s]; [done|]. intros H.
  cbn [occurs] in H. apply orb_false_elim in H as [H1 H2].
  rewrite chars_cons. cbn [fold_left].
  unfold treeStep at 2. cbn [mode inBody stack docKids insertChar fkids ftag fattrs addKid].
  rewrite H1. unfold addKid. cbn [ftag fattrs fkids]. by rewrite (build_chars_text _ _ _ _ _ _ _ H2).
Qed.

Lemma build_chars_after s tag attrs tag' attrs' kids' kids rest dk :
  occurs "000" s = false → s ≠ "" →
  fold_left treeStep (chars s)
    (mkBuilder InBody (mkFrame tag attrs (Element tag' attrs' kids' :: kids) :: rest) dk)
  = mkBuilder InBody
      (mkFrame tag attrs (Text s :: Element tag' attrs' kids' :: kids) :: rest) dk.
Proof.
  destruct s as [|c s]; [done|]. intros H _.
  cbn [occurs] in H. apply orb_false_elim in H as [H1 H2].
  rewrite chars_cons. cbn [fold_left].
  unfold treeStep at 2. cbn [mode inBody stack docKids insertChar fkids ftag fattrs addKid].
  rewrite H1. unfold addKid. cbn [ftag fattrs fkids]. by rewrite (build_chars_text _ _ _ _ _ _ _ H2).
Qed.

Lemma build_chars_open s (l : ListState) rest dk :
  occurs "000" s = false →
  fold_left treeStep (chars s) (mkBuilder InBody (listFrames l rest) dk)
  = mkBuilder InBody (listFrames (mkList (lopen l) (ltext l +:+ s) (lkids l)) rest) dk.
Proof.
  intros H. destruct l as [[| |] t K]; unfold listFrames; cbn [openFrames lopen ltext lkids app];
    by rewrite build_chars_text.
Qed.

Lemma occurs_spaces_nul n : occurs "000" (repeat_string " " n) = false.
Proof. by apply occurs_repeat_space. Qed.

Lemma closeP_none st : noOpenP st → closeP st = st.
Proof. unfold noOpenP, closeP. by intros ->. Qed.

Lemma noOpenP_cons tag attrs kids rest :
  String.eqb "p" tag = false → buttonBoundary tag = false →
  noOpenP rest → noOpenP (mkFrame tag attrs kids :: rest).
Proof. unfold noOpenP. cbn [inScope ftag]. by intros -> ->. Qed.

(** [<DT>] closes the open item and opens a [dt] in the list. *)
Lemma build_dt (l : ListState) rest dk :
  noOpenP rest →
  treeStep (mkBuilder InBody (listFrames l rest) dk) (TStartTag "dt" [] false)
  = mkBuilder InBody
      (mkFrame "dt" [] [] ::
       mkFrame "dl" [] (closedItem (lopen l) (ltext l) :: lkids l) :: rest) dk.
Proof.
  intros H.
  change (treeStep (mkBuilder InBody (listFrames l rest) dk) (TStartTag "dt" [] false))
    with (mkBuilder InBody
            (insertElement "dt" [] (closeP (closeItem ["dd"; "dt"] (listFrames l rest)))) dk).
  destruct l as [[|k|a] t K]; unfold listFrames;
    cbn [openFrames lopen ltext lkids app closedItem].
  - reflexivity.
  - change (closeItem ["dd"; "dt"] _)
      with (mkFrame "dl" [] (Element "dt" [] (rev (Element "p" [] [Text t] :: k)) :: K) :: rest).
    rewrite closeP_none; [done|by apply noOpenP_cons].
  - change (closeItem ["dd"; "dt"] _)
      with (mkFrame "dl" [] (Element "dt" [] [a; Text t] :: K) :: rest).
    rewrite closeP_none; [done|by apply noOpenP_cons].
Qed.

(** The indentation and [</DL>] close the open item and the list. *)
Lemma build_end_dl space ts (l : ListState) g rest dk :
  occurs "000" space = false →
  fold_left treeStep (chars space ++ TEndTag "dl" :: ts)
    (mkBuilder InBody (listFrames l (g :: rest)) dk)
  = fold_left treeStep ts (mkBuilder InBody (addKid (closeList space l) g :: rest) dk).
Proof.
  intros H. rewrite fold_left_app, build_chars_open by done.
  destruct l as [[|k|a] t K]; reflexivity.
Qed.

Lemma build_cons tok ts b :
  fold_left treeStep (tok :: ts) b = fold_left treeStep ts (treeStep b tok).
Proof. done. Qed.

Lemma build_bookmark indent b (l : ListState) rest dk :
  plainBookmark b → noOpenP rest →
  fold_left treeStep (itemTokens indent (IBookmark b))
    (mkBuilder InBody (listFrames l rest) dk)
  = mkBuilder InBody (listFrames (listStep indent l (IBookmark b)) rest) dk.
Proof.
  intros ([Ht _] & _) Hrest. cbn [itemTokens].
  rewrite build_app, build_chars_open by apply occurs_spaces_nul.
  rewrite build_app, build_cons, build_dt by done. cbn [lopen ltext lkids].
  rewrite build_cons.
  set (K := closedItem _ _ :: _).
  change (treeStep _ (TStartTag "a" (linkAttrs b) false))
    with (mkBuilder InBody
            (mkFrame "a" (linkAttrs b) [] :: mkFrame "dt" [] [] :: mkFrame "dl" [] K :: rest) dk).
  cbn [fold_left]. rewrite build_app, build_chars_fresh by done.
  rewrite build_app, build_cons.
  change (treeStep _ (TEndTag "a"))
    with (mkBuilder InBody
            (mkFrame "dt" [] [Element "a" (linkAttrs b) (rev (textKids (Bookmark.title b)))]
               :: mkFrame "dl" [] K :: rest) dk).
  cbn [fold_left]. rewrite build_chars_after by done.
  unfold listStep, listFrames. cbn [lopen ltext lkids openOf openFrames app].
  unfold linkNode. by destruct (Bookmark.title b).
Qed.

Lemma build_items indent inner (l : ListState) rest dk :
  Forall (λ it, ∀ indent l rest dk, plainItem it → noOpenP rest →
            fold_left treeStep (itemTokens indent it)
              (mkBuilder InBody (listFrames l rest) dk)
            = mkBuilder InBody (listFrames (listStep indent l it) rest) dk) inner →
  Forall plainItem inner → noOpenP rest →
  fold_left treeStep (flat_map (itemTokens indent) inner)
    (mkBuilder InBody (listFrames l rest) dk)
  = mkBuilder InBody (listFrames (fold_left (listStep indent) inner l) rest) dk.
Proof.
  intros IH Hp Hrest. revert l. induction inner as [|i inner IHl]; intros l; [done|].
  apply Forall_cons in IH as [IH1 IH2]. apply Forall_cons in Hp as [Hp1 Hp2].
  cbn [flat_map fold_left]. rewrite build_app, IH1 by done. by apply IHl.
Qed.

Lemma build_item it indent (l : ListState) rest dk :
  plainItem it → noOpenP rest →
  fold_left treeStep (itemTokens indent it) (mkBuilder InBody (listFrames l rest) dk)
  = mkBuilder InBody (listFrames (listStep indent l it) rest) dk.
Proof.
  revert indent l rest dk.
  induction it as [b|f inner IH] using Item_ind'; intros indent l rest dk Hp Hrest.
  { by apply build_bookmark. }
  apply plainItem_folder in Hp as [[Hf _] Hin].
  cbn [itemTokens].
  rewrite build_app, build_chars_open by apply occurs_spaces_nul.
  rewrite build_app, build_cons, build_dt by done. cbn [lopen ltext lkids].
  rewrite build_cons.
  set (K := closedItem _ _ :: _).
  assert (Hdt : noOpenP (mkFrame "dt" [] [] :: mkFrame "dl" [] K :: rest))
    by (by do 2 (apply noOpenP_cons; [done|done|])).
  change (treeStep _ (TStartTag "h3" [] false))
    with (mkBuilder InBody
            (insertElement "h3" []
               (let st1 := closeP (mkFrame "dt" [] [] :: mkFrame "dl" [] K :: rest) in
                if currentIs isHeading st1 then popNode st1 else st1)) dk).
  rewrite (closeP_none _ Hdt). cbn [currentIs ftag]. 
  change (isHeading "dt") with false. cbv iota zeta. unfold insertElement.
  cbn [fold_left]. rewrite build_app, build_chars_fresh by done.
  rewrite build_app, build_cons.
  change (treeStep _ (TEndTag "h3"))
    with (mkBuilder InBody
            (mkFrame "dt" [] [Element "h3" [] (rev (textKids (Folder.name f)))]
               :: mkFrame "dl" [] K :: rest) dk).
  cbn [fold_left].
  assert (Hsp : occurs "000" (newline +:+ repeat_string " " indent) = false)
    by apply (occurs_spaces_nul (S indent)).
  rewrite build_app, build_chars_after by done.
  set (dt := mkFrame "dt" [] _).
  assert (Hrest' : noOpenP (dt :: mkFrame "dl" [] K :: rest))
    by (by do 2 (apply noOpenP_cons; [done|done|])).
  rewrite build_app, 2!build_cons.
  change (treeStep (mkBuilder InBody (dt :: mkFrame "dl" [] K :: rest) dk)
            (TStartTag "dl" [] false))
    with (mkBuilder InBody
            (insertElement "dl" [] (closeP (dt :: mkFrame "dl" [] K :: rest))) dk).
  rewrite (closeP_none _ Hrest').
  change (treeStep _ (TStartTag "p" [] false))
    with (mkBuilder InBody
            (insertElement "p" []
               (closeP (mkFrame "dl" [] [] :: dt :: mkFrame "dl" [] K :: rest))) dk).
  rewrite closeP_none by (by apply noOpenP_cons).
  cbn [fold_left]. unfold insertElement.
  rewrite build_app, build_chars_fresh by done.
  change (mkFrame "p" [] (textKids newline) :: mkFrame "dl" [] [] :: dt :: mkFrame "dl" [] K :: rest)
    with (listFrames (mkList OpenP newline []) (dt :: mkFrame "dl" [] K :: rest)).
  rewrite build_app, (build_items _ _ _ _ _ IH Hin Hrest').
  cbn [app]. rewrite build_end_dl by apply occurs_spaces_nul.
  rewrite build_cons.
  set (inside := closeList _ _).
  change (treeStep _ (TStartTag "p" [] false))
    with (mkBuilder InBody
            (insertElement "p" [] (closeP (addKid inside dt :: mkFrame "dl" [] K :: rest))) dk).
  rewrite closeP_none by (by do 2 (apply noOpenP_cons; [done|done|])).
  unfold insertElement. rewrite build_chars_fresh by done.
  unfold listStep, listFrames. rewrite openOf_folder.
  cbn [lopen ltext lkids openFrames app].
  subst dt inside K. unfold addKid, headingNode, listNode, listState.
  cbn [ftag fattrs fkids]. by destruct (Folder.name f).
Qed.

Lemma headerTokens_run : tokRun (SText None) exportHeader = (SText None, headerTokens).
Proof. vm_compute. reflexivity. Qed.

Lemma headerBuilder_open :
  fold_left treeStep headerTokens (mkBuilder Initial [] [])
  = mkBuilder InBody (listFrames (mkList OpenP newline []) headerFrames)
              (docKids headerBuilder).
Proof. vm_compute. reflexivity. Qed.

Lemma headerFrames_noOpenP : noOpenP headerFrames.
Proof. vm_compute. reflexivity. Qed.

Lemma headerFrames_cons : ∃ g rest, headerFrames = g :: rest.
Proof. eexists _, _. vm_compute. reflexivity. Qed.

Lemma occurs_cr_header : occurs "013" exportHeader = false.
Proof. vm_compute. reflexivity. Qed.

Lemma tokenize_exported items :
  Forall plainItem items →
  tokenize (exportHeader +:+ renderTree 4 items +:+ "</DL><p>")
  = headerTokens ++ flat_map (itemTokens 4) items
    ++ chars "" ++ TEndTag "dl" :: [TStartTag "p" [] false; TEOF].
Proof.
  intros Hp. unfold tokenize.
  rewrite normalizeNewlines_id
    by (by rewrite !occurs_app, occurs_cr_header, occurs_cr_tree).
  rewrite (tokensFrom_tokRun _ _ _ _ _ headerTokens_run).
  rewrite (tokensFrom_tokRun _ _ _ _ _ (tokenizes_tree 4 items Hp)).
  reflexivity.
Qed.

Lemma build_exported items g rest dk :
  Forall plainItem items → noOpenP (g :: rest) →
  fold_left treeStep
    (flat_map (itemTokens 4) items
     ++ chars "" ++ TEndTag "dl" :: [TStartTag "p" [] false; TEOF])
    (mkBuilder InBody (listFrames (mkList OpenP newline []) (g :: rest)) dk)
  = mkBuilder InBody
      (insertElement "p" [] (addKid (listNode 4 "" items) g :: rest)) dk.
Proof.
  intros Hp Hno. rewrite build_app.
  assert (Hall : Forall (λ it, ∀ indent l rest dk, plainItem it → noOpenP rest →
            fold_left treeStep (itemTokens indent it)
              (mkBuilder InBody (listFrames l rest) dk)
            = mkBuilder InBody (listFrames (listStep indent l it) rest) dk) items).
  { apply Forall_forall. intros it _ indent l rest' dk'. apply build_item. }
  rewrite (build_items _ _ _ _ _ Hall Hp Hno).
  rewrite (build_end_dl "" _ _ g rest _ eq_refl).
  rewrite build_cons. fold (listState 4 items). fold (listNode 4 "" items).
  generalize (listNode 4 "" items). intros dl.
  change (treeStep _ (TStartTag "p" [] false))
    with (mkBuilder InBody (insertElement "p" [] (closeP (addKid dl g :: rest))) dk).
  rewrite closeP_none; [reflexivity|].
  unfold noOpenP in *. cbn [inScope addKid ftag] in *. exact Hno.
Qed.

(** The document the parser builds from an exported file. *)
Lemma parseFromString_exported items :
  Forall plainItem items →
  parseFromString (exportHeader +:+ renderTree 4 items +:+ "</DL><p>")
  = exportedDocument items.
Proof.
  intros Hp. unfold parseFromString. rewrite (tokenize_exported _ Hp).
  unfold buildTree. rewrite (build_app headerTokens), headerBuilder_open.
  unfold exportedDocument. destruct headerFrames_cons as (g & rest & Hg).
  assert (Hno := headerFrames_noOpenP). rewrite Hg in *.
  by rewrite (build_exported _ _ _ _ Hp Hno).
Qed.

Lemma querySelector_exported items :
  querySelector "dl" (exportedDocument items) = Some (listNode 4 "" items).
Proof. reflexivity. Qed.

(** *** [processNode] on the document of an exported file *)

Lemma closeList_fold indent space items s :
  closeList space (fold_left (listStep indent) items s)
  = Element "dl" [] (rev (lkids s) ++ trailFrom indent space (lopen s) (ltext s) items).
Proof.
  revert s. induction items as [|i items IH]; intros s; [done|].
  cbn [fold_left trailFrom]. rewrite IH. unfold listStep at 1 2 3.
  cbn [lkids lopen ltext rev]. by rewrite <- app_assoc.
Qed.

Lemma listNode_trail indent space items :
  listNode indent space items
  = Element "dl" [] (trailFrom indent space OpenP newline items).
Proof. unfold listNode, listState. by rewrite closeList_fold. Qed.

Lemma flat_map_filter {A B} (f : A → list B) (p : A → bool) l :
  flat_map f (List.filter p l) = flat_map (λ x, if p x then f x else []) l.
Proof.
  induction l as [|x l IH]; [done|]. cbn [List.filter flat_map].
  destruct (p x); cbn [flat_map app]; by rewrite IH.
Qed.

Lemma scopeDtChildren_element tag t attrs kids :
  scopeDtChildren tag (Element t attrs kids) = flat_map (dtMatches tag) kids.
Proof. unfold scopeDtChildren. cbn [childNodes]. by rewrite flat_map_filter. Qed.

Lemma filter_rev_tail {A} (p : A → bool) (k : list A) x :
  p x = false → List.filter p (rev (x :: k)) = List.filter p (rev k).
Proof. intros H. cbn [rev]. rewrite List.filter_app. cbn. by rewrite H, app_nil_r. Qed.

(** What the closed items contribute to the two queries does not depend on
    the white space that closes them. *)
Lemma links_closed_P t : snd <$> dtMatches "a" (closedItem OpenP t) = [].
Proof. done. Qed.

Lemma links_closed_bookmark indent b t :
  snd <$> dtMatches "a" (closedItem (openOf indent (IBookmark b)) t) = [linkNode b].
Proof. done. Qed.

Lemma links_closed_folder indent f inner t :
  snd <$> dtMatches "a" (closedItem (openOf indent (IFolder f inner)) t) = [].
Proof. done. Qed.

Lemma headings_closed_P t : headingView <$> dtMatches "h3" (closedItem OpenP t) = [].
Proof. done. Qed.

Lemma headings_closed_bookmark indent b t :
  headingView <$> dtMatches "h3" (closedItem (openOf indent (IBookmark b)) t) = [].
Proof. done. Qed.

Lemma headings_closed_folder indent f inner t :
  headingView <$> dtMatches "h3" (closedItem (openOf indent (IFolder f inner)) t)
  = [(textContent (headingNode f),
      Some (listNode (indent + 4) (repeat_string " " indent) inner))].
Proof.
  rewrite openOf_folder. rewrite listNode_trail.
  unfold headingView, dtMatches, headingNode.
  cbn. by destruct (Folder.name f).
Qed.

Lemma links_open indent it t :
  snd <$> dtMatches "a" (closedItem (openOf indent it) t) = linkOf it.
Proof. by destruct it. Qed.

Lemma headings_open indent it t :
  headingView <$> dtMatches "h3" (closedItem (openOf indent it) t) = headingOf indent it.
Proof.
  destruct it; [apply headings_closed_folder|apply headings_closed_bookmark].
Qed.

Lemma fmap_flat_map {A B C} (g : B → C) (f : A → list B) l :
  g <$> flat_map f l = flat_map (λ x, g <$> f x) l.
Proof.
  induction l as [|x l IH]; [done|]. cbn [flat_map]. by rewrite fmap_app, IH.
Qed.

Lemma links_trail indent space o t items X :
  (∀ t, snd <$> dtMatches "a" (closedItem o t) = X) →
  snd <$> flat_map (dtMatches "a") (trailFrom indent space o t items)
  = X ++ flat_map linkOf items.
Proof.
  revert o t X. induction items as [|i items IH]; intros o t X HX.
  - cbn [trailFrom flat_map]. by rewrite !app_nil_r, HX.
  - cbn [trailFrom flat_map]. rewrite fmap_app, HX.
    by rewrite (IH _ _ (linkOf i) (links_open indent i)).
Qed.

Lemma headings_trail indent space o t items X :
  (∀ t, headingView <$> dtMatches "h3" (closedItem o t) = X) →
  headingView <$> flat_map (dtMatches "h3") (trailFrom indent space o t items)
  = X ++ flat_map (headingOf indent) items.
Proof.
  revert o t X. induction items as [|i items IH]; intros o t X HX.
  - cbn [trailFrom flat_map]. by rewrite !app_nil_r, HX.
  - cbn [trailFrom flat_map]. rewrite fmap_app, HX.
    by rewrite (IH _ _ (headingOf indent i) (headings_open indent i)).
Qed.

Lemma listNode_links indent space items :
  snd <$> scopeDtChildren "a" (listNode indent space items) = flat_map linkOf items.
Proof.
  rewrite listNode_trail, scopeDtChildren_element.
  by rewrite (links_trail _ _ _ _ _ [] links_closed_P).
Qed.

Lemma listNode_headings indent space items :
  headingView <$> scopeDtChildren "h3" (listNode indent space items)
  = flat_map (headingOf indent) items.
Proof.
  rewrite listNode_trail, scopeDtChildren_element.
  by rewrite (headings_trail _ _ _ _ _ [] headings_closed_P).
Qed.

Lemma fold_left_fmap {A B C} (f : A → C → A) (g : B → C) l a :
  fold_left f (g <$> l) a = fold_left (λ a x, f a (g x)) l a.
Proof. revert a. induction l as [|x l IH]; intros a; [done|]. cbn. apply IH. Qed.

Lemma faithfulItem_folder f inner :
  faithfulItem (IFolder f inner) ↔ faithfulFolder f ∧ Forall faithfulItem inner.
Proof.
  cbn [faithfulItem]. apply and_iff_compat_l.
  induction inner as [|i inner IH]; [by split; [constructor|]|].
  rewrite Forall_cons, IH. done.
Qed.

Lemma walkItem_folder f inner cur p :
  walkItem (IFolder f inner) cur p
  = walkList inner (Some (parsedRand p 0))
      (mkParsed (parsedBookmarks p)
         (parsedFolders p ++ [Folder.mk (parsedRand p 0) (Folder.name f) cur])
         (λ n, parsedRand p (S n))).
Proof. reflexivity. Qed.

Lemma getAttribute_optTokenAttr_other name other o rest :
  String.eqb other name = false →
  List.find (λ a : string * string, String.eqb a.1 name) (optTokenAttr other o ++ rest)
  = List.find (λ a : string * string, String.eqb a.1 name) rest.
Proof.
  intros H. destruct o as [s|]; [|done]. cbn. destruct (truthy s); [|done].
  cbn. by rewrite H.
Qed.

Lemma pushLink_linkNode cur p b :
  faithfulBookmark b → pushLink cur p (linkNode b) = pushBookmark cur p b.
Proof.
  intros (Ht & Hd & Hi). unfold pushLink, pushBookmark.
  destruct (randomId (parsedRand p)) as [id r]. f_equal. f_equal. f_equal.
  destruct b as [bid title url addDate icon tags folder]; cbn in *.
  f_equal.
  - destruct title; [done|]. cbn. by rewrite string_app_nil_r.
  - unfold linkAttrs. cbn. by destruct url.
  - unfold linkAttrs. cbn. destruct addDate as [[|c d]|]; [done| |].
    + done.
    + by destruct icon as [[|c i]|].
  - unfold linkAttrs. cbn.
    destruct addDate as [[|c d]|]; [done| |]; by destruct icon as [[|c' i]|].
Qed.

Lemma processNode_S fuel node cur p :
  processNode (S fuel) node cur p
  = fold_left (pushHeading fuel cur) (headingView <$> scopeDtChildren "h3" node)
      (fold_left (pushLink cur) (snd <$> scopeDtChildren "a" node) p).
Proof. rewrite fold_left_fmap. reflexivity. Qed.

Lemma pushLinks_items cur items p :
  Forall faithfulItem items →
  fold_left (pushLink cur) (flat_map linkOf items) p
  = fold_left (pushBookmark cur) (bookmarksIn items) p.
Proof.
  intros H. revert p. induction H as [|i items Hi _ IH]; intros p; [done|].
  destruct i as [f inner|b]; cbn [flat_map bookmarksIn linkOf app fold_left].
  - apply IH.
  - rewrite pushLink_linkNode by done. apply IH.
Qed.

Lemma list_max_cons_le x l n : list_max (x :: l) ≤ n ↔ x ≤ n ∧ list_max l ≤ n.
Proof. unfold list_max. cbn [fold_right]. lia. Qed.

Lemma processNode_listNode fuel items indent space cur p :
  Forall faithfulItem items →
  list_max (map itemDepth items) ≤ fuel →
  processNode (S fuel) (listNode indent space items) cur p = walkList items cur p.
Proof.
  revert items indent space cur p.
  induction fuel as [fuel IH] using lt_wf_ind. intros items indent space cur p Hf Hd.
  rewrite processNode_S, listNode_links, listNode_headings, pushLinks_items by done.
  unfold walkList. generalize (fold_left (pushBookmark cur) (bookmarksIn items) p).
  clear p. induction Hf as [|i items Hi Hf IHl]; intros p; [done|].
  cbn [map] in Hd. apply list_max_cons_le in Hd as [Hd1 Hd2].
  destruct i as [f inner|b]; cbn [flat_map headingOf app fold_left].
  - rewrite <- (IHl Hd2). f_equal.
    apply faithfulItem_folder in Hi as [Hn Hin].
    rewrite walkItem_folder. unfold pushHeading.
    cbn [randomId fst snd]. cbn [itemDepth] in Hd1.
    destruct fuel as [|fuel]; [lia|].
    rewrite IH by (done || lia). unfold headingNode.
    unfold faithfulFolder in Hn. destruct (Folder.name f) as [|c n]; [done|].
    cbn [textKids textContent map concat]. rewrite string_app_nil_r. done.
  - cbn [walkItem]. apply (IHl Hd2).
Qed.

Lemma height_element tag attrs kids :
  height (Element tag attrs kids) = S (list_max (map height kids)).
Proof. reflexivity. Qed.

Lemma list_max_cons x l : list_max (x :: l) = Nat.max x (list_max l).
Proof. reflexivity. Qed.

Lemma list_max_app_le a b : list_max b ≤ list_max (a ++ b).
Proof. rewrite list_max_app. lia. Qed.

Lemma depth_trail indent space items :
  Forall (λ it, ∀ indent t, itemDepth it ≤ height (closedItem (openOf indent it) t)) items →
  ∀ o t d, (∀ t', d ≤ height (closedItem o t')) →
  Nat.max d (list_max (map itemDepth items))
  ≤ list_max (map height (trailFrom indent space o t items)).
Proof.
  induction 1 as [|i items Hi _ IH]; intros o t d Hd.
  - cbn [map trailFrom]. rewrite !list_max_cons. specialize (Hd (t +:+ space)).
    unfold list_max at 1 2. cbn [fold_right]. lia.
  - cbn [map trailFrom]. rewrite !list_max_cons.
    specialize (IH (openOf indent i) newline (itemDepth i) (Hi indent)).
    specialize (Hd (t +:+ repeat_string " " indent)). lia.
Qed.

Lemma depth_closed it indent t :
  itemDepth it ≤ height (closedItem (openOf indent it) t).
Proof.
  revert indent t. induction it as [b|f inner IH] using Item_ind'; intros indent t.
  { cbn [itemDepth]. lia. }
  rewrite openOf_folder, listNode_trail. cbn [itemDepth closedItem].
  rewrite height_element. apply le_n_S.
  cbn [rev app map]. rewrite !list_max_cons, height_element.
  pose proof (depth_trail (indent + 4) (repeat_string " " indent) inner IH
                OpenP newline 0 ltac:(lia)).
  lia.
Qed.

Lemma depth_listNode indent space items :
  list_max (map itemDepth items) ≤ height (listNode indent space items).
Proof.
  rewrite listNode_trail, height_element.
  pose proof (depth_trail indent space items
                ltac:(apply Forall_forall; intros it _; apply depth_closed)
                OpenP newline 0 ltac:(lia)).
  lia.
Qed.

(** Parsing an exported file, in terms of its items. *)
Lemma parseBookmarksHTML_exported r items :
  Forall plainItem items → Forall faithfulItem items →
  parseBookmarksHTML r (exportHeader +:+ renderTree 4 items +:+ "</DL><p>")
  = {| bookmarks := parsedBookmarks (walkList items None (mkParsed [] [] r));
       folders := parsedFolders (walkList items None (mkParsed [] [] r)) |}.
Proof.
  intros Hp Hf. unfold parseBookmarksHTML, parseDocument.
  rewrite parseFromString_exported, querySelector_exported by done.
  rewrite processNode_listNode; [done|done|apply depth_listNode].
Qed.

(** *** The tree of a library holds each folder and each bookmark once *)

Section Buckets.
Context {A C : Type}.

Lemma filter_none (P : A → Prop) `{∀ x, Decision (P x)} (l : list A) :
  (∀ x, x ∈ l → ¬ P x) → filter P l = [].
Proof.
  induction l as [|x l IH]; intros Hn; [done|].
  rewrite filter_cons_False by (apply Hn; left).
  apply IH. intros y Hy. apply Hn. by right.
Qed.

Lemma filter_ext_in (P Q : A → Prop) `{∀ x, Decision (P x)} `{∀ x, Decision (Q x)}
    (l : list A) :
  (∀ x, x ∈ l → P x ↔ Q x) → filter P l = filter Q l.
Proof.
  induction l as [|x l IH]; intros HPQ; [done|].
  assert (IH' : filter P l = filter Q l) by (apply IH; intros y Hy; apply HPQ; by right).
  rewrite !filter_cons.
  destruct (decide (P x)) as [HP|HP], (decide (Q x)) as [HQ|HQ]; rewrite ?IH'; try done.
  - destruct HQ. apply HPQ; [left|done].
  - destruct HP. apply HPQ; [left|done].
Qed.

(** Two predicates that no element of [l] satisfies together. *)
Lemma filter_split (P Q : A → Prop) `{∀ x, Decision (P x)} `{∀ x, Decision (Q x)}
    (l : list A) :
  (∀ x, x ∈ l → P x → Q x → False) →
  filter (λ x, P x ∨ Q x) l ≡ₚ filter P l ++ filter Q l.
Proof.
  induction l as [|x l IH]; intros Hd; [done|].
  assert (IH' : filter (λ x, P x ∨ Q x) l ≡ₚ filter P l ++ filter Q l)
    by (apply IH; intros y Hy; apply Hd; by right).
  rewrite !filter_cons.
  destruct (decide (P x)) as [HP|HP], (decide (Q x)) as [HQ|HQ].
  - destruct (Hd x); [left|done|done].
  - rewrite decide_True by tauto. cbn. by rewrite IH'.
  - rewrite decide_True by tauto. rewrite IH'. apply Permutation_middle.
  - rewrite decide_False by tauto. done.
Qed.

(** Buckets: the predicates [Q c], of which an element of [l] satisfies
    at most one. *)
Lemma filter_buckets (Q : C → A → Prop) `{∀ c x, Decision (Q c x)}
    (cs : list C) (l : list A) :
  NoDup cs →
  (∀ x c c', x ∈ l → c ∈ cs → c' ∈ cs → Q c x → Q c' x → c = c') →
  filter (λ x, Exists (λ c, Q c x) cs) l ≡ₚ mjoin ((λ c, filter (Q c) l) <$> cs).
Proof.
  induction cs as [|c cs IH]; intros Hnd Hone.
  - cbn. rewrite filter_none; [done|]. intros x _ Hx. by apply Exists_nil in Hx.
  - apply NoDup_cons in Hnd as [Hc Hnd]. cbn [fmap list_fmap mjoin list_join].
    rewrite <- IH; [|done|].
    2:{ intros x c1 c2 Hx H1 H2. apply Hone; [done|by right|by right]. }
    rewrite <- filter_split.
    + erewrite filter_ext_in; [done|]. intros x _. cbn. by rewrite Exists_cons.
    + intros x Hx HQ (c' & Hc' & HQ')%Exists_exists.
      assert (c = c') as -> by (apply (Hone x); [done|left|by right|done|done]).
      done.
Qed.
End Buckets.

Section Hierarchy.
Variable L : BookmarkLibrary.
Hypothesis Hids : NoDup (Folder.id <$> folders L).

Lemma findFolder_Some x f :
  findFolder L x = Some f → f ∈ folders L ∧ Folder.id f = x.
Proof.
  unfold findFolder. intros H. apply find_some in H as [H1 H2].
  split; [by apply list_elem_of_In|by apply String.eqb_eq].
Qed.

Lemma findFolder_elem f : f ∈ folders L → findFolder L (Folder.id f) = Some f.
Proof using Hids.
  unfold findFolder. revert Hids. induction (folders L) as [|g l IH]; intros Hnd Hf.
  - by apply elem_of_nil in Hf.
  - cbn [fmap list_fmap] in Hnd. apply NoDup_cons in Hnd as [Hg Hnd].
    cbn [List.find]. destruct (String.eqb_spec (Folder.id g) (Folder.id f)) as [E|E].
    + apply elem_of_cons in Hf as [->|Hf]; [done|].
      exfalso. apply Hg. rewrite E. by apply list_elem_of_fmap_2.
    + apply elem_of_cons in Hf as [->|Hf]; [done|]. by apply IH.
Qed.

Lemma up_add j k c : up L (j + k) c = up L j c ≫= up L k.
Proof.
  induction k as [|k IH].
  - rewrite Nat.add_0_r. cbn [up]. by destruct (up L j c).
  - rewrite Nat.add_succ_r. cbn [up]. rewrite IH. by destruct (up L j c).
Qed.

Lemma up_S_l k c : up L (S k) c = parentOf L c ≫= up L k.
Proof. change (S k) with (1 + k). by rewrite up_add. Qed.

Lemma up_None k : 0 < k → up L k None = None.
Proof. destruct k; [lia|]. intros _. by rewrite up_S_l. Qed.

Lemma parentOf_child c : c ∈ folders L → parentOf L (Some (Folder.id c)) = Some (Folder.parentId c).
Proof using Hids. intros H. cbn [parentOf]. by rewrite findFolder_elem. Qed.

Lemma up_S_inv k c ctx :
  up L (S k) c = Some ctx →
  ∃ g, g ∈ folders L ∧ up L k c = Some (Some (Folder.id g)) ∧ Folder.parentId g = ctx.
Proof.
  cbn [up]. destruct (up L k c) as [[x|]|]; [|done|done]. cbn.
  destruct (findFolder L x) as [g|] eqn:E; [|done]. cbn. intros [= <-].
  apply findFolder_Some in E as [E1 <-]. by exists g.
Qed.

(** A context that lies above itself has folders at every depth. *)
Lemma cycle_unbounded d ctx m :
  0 < d → up L d ctx = Some ctx →
  ∃ g, g ∈ folders L ∧ up L (d - 1 + m * d) (Folder.parentId g) = Some ctx.
Proof using Hids.
  intros Hd Hc. destruct ctx as [x|]; [|by rewrite up_None in Hc].
  destruct d as [|d]; [lia|]. rewrite up_S_l in Hc.
  cbn [parentOf] in Hc. destruct (findFolder L x) as [g|] eqn:E; [|done].
  cbn in Hc. apply findFolder_Some in E as [Hg <-].
  exists g. split; [done|]. replace (S d - 1) with d by lia.
  induction m as [|m IH]; [by rewrite Nat.add_0_r|].
  replace (d + S m * S d) with ((d + m * S d) + S d) by lia.
  rewrite up_add, IH. cbn [mbind option_bind].
  rewrite up_S_l, parentOf_child by done. done.
Qed.

Lemma bounded_acyclic n ctx d : bounded L n ctx → 0 < d → up L d ctx ≠ Some ctx.
Proof using Hids.
  intros Hb Hd Hc. destruct (cycle_unbounded d ctx n Hd Hc) as (g & Hg & Hup).
  apply Hb in Hup; [|done]. nia.
Qed.

Lemma depth_unique n ctx c k k' :
  bounded L n ctx → up L k c = Some ctx → up L k' c = Some ctx → k = k'.
Proof using Hids.
  intros Hb. revert k k'.
  assert (H : ∀ k k', k < k' → up L k c = Some ctx → up L k' c = Some ctx → False).
  { intros k k' Hlt H1 H2. replace k' with (k + (k' - k)) in H2 by lia.
    rewrite up_add, H1 in H2. cbn in H2.
    by apply (bounded_acyclic n ctx (k' - k) Hb ltac:(lia)). }
  intros k k' H1 H2. destruct (Nat.lt_total k k') as [Hlt|[->|Hlt]]; [|done|].
  - by destruct (H k k' Hlt).
  - by destruct (H k' k Hlt).
Qed.

Lemma bounded_child n ctx c :
  bounded L (S n) ctx → c ∈ folders L → Folder.parentId c = ctx →
  bounded L n (Some (Folder.id c)).
Proof using Hids.
  intros Hb Hc Hp f k Hf Hup.
  assert (up L (S k) (Folder.parentId f) = Some ctx) as H%Hb; [|lia|done].
  cbn [up]. rewrite Hup. cbn. by rewrite findFolder_elem, <- Hp.
Qed.

Lemma within_true n ctx c :
  within L n ctx c = true ↔ ∃ k, k < n ∧ up L k c = Some ctx.
Proof.
  unfold within. rewrite existsb_exists. split.
  - intros (k & Hk & H). apply in_seq in Hk. apply bool_decide_eq_true in H.
    exists k. split; [lia|done].
  - intros (k & Hk & H). exists k. split; [apply in_seq; lia|by apply bool_decide_eq_true].
Qed.

Lemma bounded_mono n m ctx : n ≤ m → bounded L n ctx → bounded L m ctx.
Proof. intros Hle Hb f k Hf Hup. specialize (Hb f k Hf Hup). lia. Qed.

Lemma children_elem c ctx :
  c ∈ children L ctx ↔ c ∈ folders L ∧ Folder.parentId c = ctx.
Proof. unfold children. rewrite list_elem_of_filter. tauto. Qed.

Lemma folders_NoDup : NoDup (folders L).
Proof using Hids. by apply (NoDup_fmap_1 Folder.id). Qed.

Lemma children_NoDup ctx : NoDup (children L ctx).
Proof using Hids. apply NoDup_filter, folders_NoDup. Qed.

Lemma id_inj f g : f ∈ folders L → g ∈ folders L → Folder.id f = Folder.id g → f = g.
Proof using Hids.
  intros Hf Hg E. apply findFolder_elem in Hf, Hg. rewrite E in Hf. congruence.
Qed.

(** One level at a time. *)
Lemma within_S n ctx p :
  within L (S n) ctx p = true ↔
  p = ctx ∨ ∃ c, c ∈ children L ctx ∧ within L n (Some (Folder.id c)) p = true.
Proof using Hids.
  rewrite within_true. split.
  - intros ([|k] & Hk & Hup).
    + left. cbn in Hup. congruence.
    + right. apply up_S_inv in Hup as (g & Hg & Hup & Hp). exists g.
      split; [by apply children_elem|]. apply within_true. exists k. split; [lia|done].
  - intros [->|(c & [Hc Hp]%children_elem & (k & Hk & Hup)%within_true)].
    + exists 0. split; [lia|done].
    + exists (S k). split; [lia|]. cbn [up]. rewrite Hup. cbn.
      by rewrite findFolder_elem, <- Hp.
Qed.

Lemma within_child_up n ctx c p :
  c ∈ children L ctx → within L n (Some (Folder.id c)) p = true →
  ∃ k, up L k p = Some (Some (Folder.id c)) ∧ up L (S k) p = Some ctx.
Proof using Hids.
  intros [Hc Hp]%children_elem (k & Hk & Hup)%within_true. exists k. split; [done|].
  cbn [up]. rewrite Hup. cbn. by rewrite findFolder_elem, <- Hp.
Qed.

Lemma within_not_both n m ctx c p :
  bounded L m ctx → c ∈ children L ctx →
  p = ctx → within L n (Some (Folder.id c)) p = true → False.
Proof using Hids.
  intros Hb Hc -> (k & _ & Hk)%(within_child_up _ ctx); [|done].
  by pose proof (depth_unique m ctx ctx 0 (S k) Hb eq_refl Hk).
Qed.

Lemma within_one_child n m ctx c c' p :
  bounded L m ctx → c ∈ children L ctx → c' ∈ children L ctx →
  within L n (Some (Folder.id c)) p = true →
  within L n (Some (Folder.id c')) p = true → c = c'.
Proof using Hids.
  intros Hb Hc Hc' (k & Hk1 & Hk)%(within_child_up _ ctx) (k' & Hk1' & Hk')%(within_child_up _ ctx);
    [|done|done].
  pose proof (depth_unique m ctx p (S k) (S k') Hb Hk Hk') as [= <-].
  rewrite Hk1 in Hk1'. injection Hk1' as E.
  apply children_elem in Hc as [Hc _], Hc' as [Hc' _]. by apply id_inj.
Qed.

Lemma bounded_0_children ctx : bounded L 0 ctx → children L ctx = [].
Proof.
  intros Hb. unfold children. apply filter_none. intros f Hf Hp.
  specialize (Hb f 0 Hf). cbn in Hb. rewrite Hp in Hb. specialize (Hb eq_refl). lia.
Qed.

Lemma itemsOf_S n ctx T :
  itemsOf (S n) L ctx = Some T ↔
  ∃ fs, Forall2 (λ c it, ∃ Tc, itemsOf n L (Some (Folder.id c)) = Some Tc
                                ∧ it = IFolder c Tc) (children L ctx) fs
        ∧ T = fs ++ (IBookmark <$> filter (λ b, Bookmark.folder b = ctx) (bookmarks L)).
Proof.
  cbn [itemsOf]. fold (children L ctx).
  destruct (mapM _ (children L ctx)) as [fs|] eqn:E; cbn.
  - pose proof E as E'. apply mapM_Some in E'. split.
    + intros [= <-]. exists fs. split; [|done].
      eapply Forall2_impl; [exact E'|]. intros c it Hc. cbn in Hc.
      destruct (itemsOf n L (Some (Folder.id c))) as [Tc|]; [|done].
      injection Hc as <-. by exists Tc.
    + intros (fs' & Hfs & ->). f_equal. f_equal.
      assert (Forall2 (λ c it, (inner ← itemsOf n L (Some (Folder.id c));
                                Some (IFolder c inner)) = Some it) (children L ctx) fs') as H.
      { eapply Forall2_impl; [exact Hfs|]. intros c it (Tc & -> & ->). done. }
      apply mapM_Some in H. congruence.
  - split; [done|]. intros (fs' & Hfs & _).
    assert (Forall2 (λ c it, (inner ← itemsOf n L (Some (Folder.id c));
                              Some (IFolder c inner)) = Some it) (children L ctx) fs') as H.
    { eapply Forall2_impl; [exact Hfs|]. intros c it (Tc & -> & ->). done. }
    apply mapM_Some in H. congruence.
Qed.

Section Gather.
Context {A : Type} (ptr : A → option string) (l : list A).
Context (collect : Item → list A) (own : Folder.t → list A) (ownB : Bookmark.t → list A).
Hypothesis collect_folder :
  ∀ f inner, collect (IFolder f inner) = own f ++ flat_map collect inner.
Hypothesis collect_bookmark : ∀ b, collect (IBookmark b) = ownB b.
Hypothesis own_ctx : ∀ ctx,
  filter (λ a, ptr a = ctx) l
  ≡ₚ flat_map own (children L ctx)
     ++ flat_map ownB (filter (λ b, Bookmark.folder b = ctx) (bookmarks L)).

Lemma gather_children (W : Folder.t → list A) n cs fs :
  Forall2 (λ c it, ∃ Tc, itemsOf n L (Some (Folder.id c)) = Some Tc
                         ∧ it = IFolder c Tc) cs fs →
  (∀ c Tc, c ∈ cs → itemsOf n L (Some (Folder.id c)) = Some Tc →
           flat_map collect Tc ≡ₚ W c) →
  flat_map collect fs ≡ₚ flat_map own cs ++ mjoin (W <$> cs).
Proof using collect_folder.
  induction 1 as [|c it cs fs (Tc & HTc & ->) _ IH]; intros HW; [done|].
  cbn [flat_map fmap list_fmap mjoin list_join]. rewrite collect_folder.
  rewrite IH by (intros c' Tc' Hc'; apply HW; by right).
  rewrite (HW c Tc) by (done || left).
  rewrite <- !app_assoc. f_equiv. rewrite !app_assoc.
  apply Permutation_app; [apply Permutation_app_comm|done].
Qed.

Lemma gather n ctx T :
  bounded L n ctx → itemsOf (S n) L ctx = Some T →
  flat_map collect T ≡ₚ filter (λ a, within L (S n) ctx (ptr a) = true) l.
Proof using Hids collect_folder collect_bookmark own_ctx.
  revert ctx T. induction n as [n IH] using lt_wf_ind. intros ctx T Hb HT.
  apply itemsOf_S in HT as (fs & Hfs & ->).
  assert (Hchild : ∀ c Tc, c ∈ children L ctx →
             itemsOf n L (Some (Folder.id c)) = Some Tc →
             flat_map collect Tc
             ≡ₚ filter (λ a, within L n (Some (Folder.id c)) (ptr a) = true) l).
  { intros c Tc Hc HTc. destruct n as [|n'].
    - rewrite bounded_0_children in Hc by done. by apply elem_of_nil in Hc.
    - apply IH; [lia| |done]. apply children_elem in Hc as [Hc Hp].
      by apply (bounded_child n' ctx). }
  rewrite flat_map_app.
  rewrite (gather_children _ _ _ _ Hfs Hchild).
  assert (Hb' : flat_map collect (IBookmark <$> filter (λ b, Bookmark.folder b = ctx)
                                                   (bookmarks L))
                = flat_map ownB (filter (λ b, Bookmark.folder b = ctx) (bookmarks L))).
  { induction (filter _ (bookmarks L)) as [|b bs IHb]; [done|].
    cbn [fmap list_fmap flat_map]. by rewrite collect_bookmark, IHb. }
  rewrite Hb'.
  rewrite (filter_ext_in _
             (λ a, ptr a = ctx ∨
                   Exists (λ c, within L n (Some (Folder.id c)) (ptr a) = true)
                          (children L ctx))).
  2:{ intros a _. rewrite within_S, Exists_exists. done. }
  rewrite filter_split.
  2:{ intros a _ Hp (c & Hc & Hw)%Exists_exists.
      by apply (within_not_both n n ctx c (ptr a)). }
  rewrite own_ctx, filter_buckets.
  - rewrite <- !app_assoc. f_equiv. apply Permutation_app_comm.
  - apply children_NoDup.
  - intros a c c' _ Hc Hc'. by apply (within_one_child n n ctx).
Qed.
End Gather.

Lemma flat_map_singleton {A} (l : list A) : flat_map (λ x, [x]) l = l.
Proof. induction l as [|x l IH]; [done|]. cbn. by rewrite IH. Qed.

Lemma flat_map_nil {A B} (l : list A) : flat_map (λ _, @nil B) l = [].
Proof. by induction l. Qed.

Lemma filter_all {A} (P : A → Prop) `{∀ x, Decision (P x)} (l : list A) :
  (∀ x, x ∈ l → P x) → filter P l = l.
Proof.
  induction l as [|x l IH]; intros Hall; [done|].
  rewrite filter_cons_True by (apply Hall; left).
  f_equal. apply IH. intros y Hy. apply Hall. by right.
Qed.

(** The folders of the tree of a context are the folders below it. *)
Lemma itemFolders_within n ctx T :
  bounded L n ctx → itemsOf (S n) L ctx = Some T →
  flat_map itemFolders T
  ≡ₚ filter (λ f, within L (S n) ctx (Folder.parentId f) = true) (folders L).
Proof using Hids.
  apply (gather Folder.parentId (folders L) itemFolders (λ f, [f]) (λ _, [])); try done.
  intros c. by rewrite flat_map_singleton, flat_map_nil, app_nil_r.
Qed.

Lemma itemBookmarks_within n ctx T :
  bounded L n ctx → itemsOf (S n) L ctx = Some T →
  flat_map itemBookmarks T
  ≡ₚ filter (λ b, within L (S n) ctx (Bookmark.folder b) = true) (bookmarks L).
Proof using Hids.
  apply (gather Bookmark.folder (bookmarks L) itemBookmarks (λ _, []) (λ b, [b])); try done.
  intros c. by rewrite flat_map_singleton, flat_map_nil.
Qed.

Lemma Forall2_exists {A B} (R : A → B → Prop) (l : list A) :
  (∀ x, x ∈ l → ∃ y, R x y) → ∃ k, Forall2 R l k.
Proof.
  induction l as [|x l IH]; intros H; [by exists []|].
  destruct (H x) as [y Hy]; [left|].
  destruct IH as [k Hk]; [intros z Hz; apply H; by right|].
  exists (y :: k). by constructor.
Qed.

(** The recursion of [renderItems] ends on a context whose folders are
    at a bounded depth. *)
Lemma itemsOf_total n ctx : bounded L n ctx → is_Some (itemsOf (S n) L ctx).
Proof using Hids.
  revert ctx. induction n as [n IH] using lt_wf_ind. intros ctx Hb.
  destruct (Forall2_exists
              (λ c it, ∃ Tc, itemsOf n L (Some (Folder.id c)) = Some Tc ∧ it = IFolder c Tc)
              (children L ctx)) as [fs Hfs].
  { intros c Hc. destruct n as [|n'].
    - rewrite bounded_0_children in Hc by done. by apply elem_of_nil in Hc.
    - apply children_elem in Hc as [Hc Hp].
      destruct (IH n' ltac:(lia) (Some (Folder.id c))) as [Tc HTc].
      { by apply (bounded_child n' ctx). }
      by exists (IFolder c Tc), Tc. }
  eexists. apply itemsOf_S. by exists fs.
Qed.

Lemma reachable_elem x : reachable L x → ∃ f, f ∈ folders L ∧ Folder.id f = x.
Proof. intros [f Hf _|f p Hf _ _]; by exists f. Qed.

Lemma reachable_up x :
  reachable L x → ∀ f, f ∈ folders L → Folder.id f = x →
  ∃ k, up L k (Folder.parentId f) = Some None.
Proof using Hids.
  induction 1 as [g Hg Hp|g p Hg Hp Hr IH]; intros f Hf E.
  - apply (id_inj f g Hf Hg) in E as ->. exists 0. cbn. by rewrite Hp.
  - apply (id_inj f g Hf Hg) in E as ->.
    destruct (reachable_elem p Hr) as (h & Hh & Eh).
    destruct (IH h Hh Eh) as [k Hk]. exists (S k).
    rewrite up_S_l, Hp, <- Eh, parentOf_child by done. done.
Qed.

Lemma root_depth_unique c k k' :
  up L k c = Some None → up L k' c = Some None → k = k'.
Proof.
  assert (H : ∀ k k', k < k' → up L k c = Some None → up L k' c = Some None → False).
  { intros j j' Hlt H1 H2. replace j' with (j + (j' - j)) in H2 by lia.
    rewrite up_add, H1 in H2. cbn in H2. by rewrite up_None in H2 by lia. }
  intros H1 H2. destruct (Nat.lt_total k k') as [Hlt|[->|Hlt]]; [|done|].
  - by destruct (H k k' Hlt).
  - by destruct (H k' k Hlt).
Qed.

Lemma depth_bound (l : list Folder.t) :
  (∀ f, f ∈ l → ∃ k, up L k (Folder.parentId f) = Some None) →
  ∃ n, ∀ f, f ∈ l → ∃ k, k < n ∧ up L k (Folder.parentId f) = Some None.
Proof.
  induction l as [|g l IH]; intros H.
  - exists 0. intros f Hf. by apply elem_of_nil in Hf.
  - destruct IH as [n Hn]; [intros f Hf; apply H; by right|].
    destruct (H g) as [k Hk]; [left|].
    exists (Nat.max n (S k)). intros f [->|Hf]%elem_of_cons.
    + exists k. split; [lia|done].
    + destruct (Hn f Hf) as (j & Hj & Hup). exists j. split; [lia|done].
Qed.

(** The recursion of [renderItems] ends only on a context whose folders
    are at a bounded depth. *)
Lemma itemsOf_bounded n ctx T : itemsOf (S n) L ctx = Some T → bounded L n ctx.
Proof using Hids.
  revert ctx T. induction n as [|n IH]; intros ctx T (fs & Hfs & _)%itemsOf_S f k Hf Hup.
  - exfalso. assert (∃ g, g ∈ children L ctx) as [g Hg].
    { destruct k as [|k].
      - exists f. apply children_elem. cbn in Hup. split; [done|congruence].
      - apply up_S_inv in Hup as (g & Hg & _ & Hp). exists g. by apply children_elem. }
    apply list_elem_of_lookup_1 in Hg as [i Hi].
    by destruct (Forall2_lookup_l _ _ _ _ _ Hfs Hi) as (it & _ & Tc & HTc & _).
  - destruct k as [|k]; [lia|].
    apply up_S_inv in Hup as (g & Hg & Hup & Hp).
    assert (g ∈ children L ctx) as [i Hi]%list_elem_of_lookup_1 by (by apply children_elem).
    destruct (Forall2_lookup_l _ _ _ _ _ Hfs Hi) as (it & _ & Tc & HTc & _).
    apply IH in HTc. specialize (HTc f k Hf Hup). lia.
Qed.

(** A library whose folders all descend from the root: the tree of the
    root holds each folder once and each bookmark of the root or of a
    folder once, and the recursion that builds it ends. *)
Lemma itemsOf_root fuel T :
  (∀ f, f ∈ folders L → reachable L (Folder.id f)) →
  (∀ b, b ∈ bookmarks L → rendered L (Bookmark.folder b)) →
  itemsOf fuel L None = Some T →
  flat_map itemFolders T ≡ₚ folders L ∧ flat_map itemBookmarks T ≡ₚ bookmarks L.
Proof using Hids.
  intros Hf Hb HT. destruct fuel as [|n]; [done|].
  pose proof (itemsOf_bounded n None T HT) as Hbound.
  assert (Hn : ∀ f, f ∈ folders L → ∃ k, k < n ∧ up L k (Folder.parentId f) = Some None).
  { intros f Hin. destruct (reachable_up (Folder.id f) (Hf f Hin) f Hin eq_refl) as [k Hk].
    exists k. split; [by apply (Hbound f)|done]. }
  split.
  - rewrite (itemFolders_within n None T Hbound HT). rewrite filter_all; [done|].
    intros f Hin. apply within_true. destruct (Hn f Hin) as (j & Hj & Hup).
    exists j. split; [lia|done].
  - rewrite (itemBookmarks_within n None T Hbound HT). rewrite filter_all; [done|].
    intros b Hin. apply within_true. specialize (Hb b Hin).
    destruct (Bookmark.folder b) as [x|]; [|exists 0; split; [lia|done]].
    cbn in Hb. destruct (reachable_elem x Hb) as (f & Hfin & E).
    destruct (Hn f Hfin) as (j & Hj & Hup). exists (S j). split; [lia|].
    rewrite up_S_l, <- E, parentOf_child by done. done.
Qed.

Lemma itemsOf_root_total :
  (∀ f, f ∈ folders L → reachable L (Folder.id f)) →
  ∃ fuel, is_Some (itemsOf fuel L None).
Proof using Hids.
  intros Hf.
  destruct (depth_bound (folders L)) as [n Hn].
  { intros f Hin. by apply (reachable_up (Folder.id f)); [apply Hf|..]. }
  exists (S n). apply itemsOf_total.
  intros f k Hin Hup. destruct (Hn f Hin) as (j & Hj & Hup').
  by rewrite (root_depth_unique _ _ _ Hup Hup').
Qed.
End Hierarchy.

(** *** The walk of the parser and the renaming it makes *)

Lemma consistent_folder ctx f inner :
  consistent ctx (IFolder f inner)
  ↔ Folder.parentId f = ctx ∧ Forall (consistent (Some (Folder.id f))) inner.
Proof.
  cbn [consistent]. apply and_iff_compat_l.
  induction inner as [|i inner IH]; [by split; [constructor|]|].
  rewrite Forall_cons, IH. done.
Qed.

Lemma linked_mono FP FP' ctx cur old new :
  FP ⊆ FP' → linked FP ctx cur old new → linked FP' ctx cur old new.
Proof.
  intros Hsub [H|(fg & Hfg & H)]; [by left|]. right. exists fg. split; [by apply Hsub|done].
Qed.

Lemma walks_refl ctx cur p : walks ctx cur p p [] [].
Proof.
  exists [], [], [], 0. cbn. rewrite !app_nil_r.
  repeat split; try done; constructor.
Qed.

Lemma walks_perm ctx cur p p' FS BS FS' BS' :
  FS ≡ₚ FS' → BS ≡ₚ BS' → walks ctx cur p p' FS BS → walks ctx cur p p' FS' BS'.
Proof.
  intros HF HB (FP & BP & idx & k & H1 & H2 & H3 & H4 & H5 & H).
  exists FP, BP, idx, k. rewrite <- HF, <- HB. done.
Qed.

Lemma walks_trans ctx cur p p1 p2 FS1 BS1 FS2 BS2 :
  walks ctx cur p p1 FS1 BS1 → walks ctx cur p1 p2 FS2 BS2 →
  walks ctx cur p p2 (FS1 ++ FS2) (BS1 ++ BS2).
Proof.
  intros (FP1 & BP1 & idx1 & k1 & Hb1 & Hf1 & Hr1 & HF1 & HB1 & HFP1 & HBP1 & Hnd1 & Hlt1 & Hid1)
         (FP2 & BP2 & idx2 & k2 & Hb2 & Hf2 & Hr2 & HF2 & HB2 & HFP2 & HBP2 & Hnd2 & Hlt2 & Hid2).
  exists (FP1 ++ FP2), (BP1 ++ BP2), (idx1 ++ ((λ i, k1 + i) <$> idx2)), (k1 + k2).
  rewrite !fmap_app. repeat split.
  - by rewrite Hb2, Hb1, app_assoc.
  - by rewrite Hf2, Hf1, app_assoc.
  - intros n. rewrite Hr2, Hr1. f_equal. lia.
  - by rewrite HF1, HF2.
  - by rewrite HB1, HB2.
  - apply Forall_app. split.
    + eapply Forall_impl; [exact HFP1|]. intros fg [? Hl]. split; [done|].
      eapply linked_mono; [|exact Hl]. set_solver.
    + eapply Forall_impl; [exact HFP2|]. intros fg [? Hl]. split; [done|].
      eapply linked_mono; [|exact Hl]. set_solver.
  - apply Forall_app. split.
    + eapply Forall_impl; [exact HBP1|]. intros fg [? Hl]. split; [done|].
      eapply linked_mono; [|exact Hl]. set_solver.
    + eapply Forall_impl; [exact HBP2|]. intros fg [? Hl]. split; [done|].
      eapply linked_mono; [|exact Hl]. set_solver.
  - apply NoDup_app. split; [done|]. split.
    + intros i Hi (j & -> & Hj)%list_elem_of_fmap.
      rewrite Forall_forall in Hlt1. specialize (Hlt1 _ Hi). lia.
    + apply NoDup_fmap_2; [|done]. intros i j. lia.
  - apply Forall_app. split.
    + eapply Forall_impl; [exact Hlt1|]. intros i. cbn. lia.
    + apply Forall_fmap. eapply Forall_impl; [exact Hlt2|]. intros i. cbn. lia.
  - rewrite Hid1, Hid2, <- list_fmap_compose. f_equal.
    apply list_fmap_ext. intros _ i _. cbn. rewrite Hr1. done.
Qed.

Lemma walks_pushBookmark ctx cur p b :
  Bookmark.folder b = ctx → walks ctx cur p (pushBookmark cur p b) [] [b].
Proof.
  intros Hb.
  exists [],
    [(b, Bookmark.mk (parsedRand p 0) (Bookmark.title b) (Bookmark.url b)
           (Bookmark.addDate b) (Bookmark.icon b) None cur)], [], 1.
  cbn. rewrite app_nil_r. repeat split; try done; try constructor; try done.
  cbn. split; [done|]. by left.
Qed.

Lemma walks_pushBookmarks ctx cur p bs :
  Forall (λ b, Bookmark.folder b = ctx) bs →
  walks ctx cur p (fold_left (pushBookmark cur) bs p) [] bs.
Proof.
  intros H. revert p. induction H as [|b bs Hb _ IH]; intros p; [apply walks_refl|].
  cbn [fold_left].
  apply (walks_trans ctx cur p _ _ [] [b] [] bs (walks_pushBookmark ctx cur p b Hb) (IH _)).
Qed.

(** A folder: its own entry, then the walk of its items. *)
Lemma walks_folder ctx cur p p' f FS BS :
  Folder.parentId f = ctx →
  walks (Some (Folder.id f)) (Some (parsedRand p 0))
        (mkParsed (parsedBookmarks p)
           (parsedFolders p ++ [Folder.mk (parsedRand p 0) (Folder.name f) cur])
           (λ n, parsedRand p (S n)))
        p' FS BS →
  walks ctx cur p p' (f :: FS) BS.
Proof.
  intros Hp (FP & BP & idx & k & Hb & Hf & Hr & HF & HB & HFP & HBP & Hnd & Hlt & Hid).
  cbn [parsedBookmarks parsedFolders parsedRand] in *.
  set (g := Folder.mk (parsedRand p 0) (Folder.name f) cur).
  assert (Hl : ∀ old new,
             linked FP (Some (Folder.id f)) (Some (parsedRand p 0)) old new →
             linked ((f, g) :: FP) ctx cur old new).
  { intros old new [[-> ->]|(fg & Hfg & H)].
    - right. exists (f, g). split; [left|done].
    - right. exists fg. split; [by right|done]. }
  exists ((f, g) :: FP), BP, (0 :: (S <$> idx)), (S k).
  cbn [fmap list_fmap fst snd]. repeat split.
  - done.
  - by rewrite Hf, <- app_assoc.
  - intros n. by rewrite Hr.
  - by rewrite HF.
  - done.
  - constructor.
    + cbn. split; [done|]. by left.
    + eapply Forall_impl; [exact HFP|]. intros fg [? H]. split; [done|]. by apply Hl.
  - eapply Forall_impl; [exact HBP|]. intros fg [? H]. split; [done|]. by apply Hl.
  - apply NoDup_cons. split.
    + intros (j & ? & _)%list_elem_of_fmap. lia.
    + apply NoDup_fmap_2; [|done]. intros i j. lia.
  - constructor; [lia|]. apply Forall_fmap. eapply Forall_impl; [exact Hlt|].
    intros i. cbn. lia.
  - f_equal. rewrite Hid, <- list_fmap_compose. done.
Qed.

Lemma bookmarksIn_folder ctx T :
  Forall (consistent ctx) T → Forall (λ b, Bookmark.folder b = ctx) (bookmarksIn T).
Proof.
  induction 1 as [|i T Hi _ IH]; [constructor|].
  destruct i as [f inner|b]; cbn [bookmarksIn flat_map app]; [done|].
  by constructor.
Qed.

Lemma bookmarks_split T :
  bookmarksIn T ++ flat_map innerBookmarks T ≡ₚ flat_map itemBookmarks T.
Proof.
  induction T as [|i T IH]; [done|].
  destruct i as [f inner|b]; cbn [bookmarksIn flat_map innerBookmarks itemBookmarks app].
  - rewrite <- IH. rewrite !app_assoc. f_equiv. apply Permutation_app_comm.
  - by rewrite <- IH.
Qed.

Lemma walks_items ctx cur T :
  Forall (λ it, ∀ ctx cur p, consistent ctx it →
            walks ctx cur p (walkItem it cur p) (itemFolders it) (innerBookmarks it)) T →
  Forall (consistent ctx) T →
  ∀ p, walks ctx cur p (fold_left (λ p i, walkItem i cur p) T p)
             (flat_map itemFolders T) (flat_map innerBookmarks T).
Proof.
  intros HT Hc. induction Hc as [|i T Hi Hc IH]; intros p; [apply walks_refl|].
  apply Forall_cons in HT as [H1 H2]. cbn [fold_left flat_map].
  eapply walks_trans; [by apply H1|by apply IH].
Qed.

Lemma walks_list ctx cur T p :
  Forall (λ it, ∀ ctx cur p, consistent ctx it →
            walks ctx cur p (walkItem it cur p) (itemFolders it) (innerBookmarks it)) T →
  Forall (consistent ctx) T →
  walks ctx cur p (walkList T cur p) (flat_map itemFolders T) (flat_map itemBookmarks T).
Proof.
  intros HT Hc. unfold walkList.
  eapply walks_perm; [reflexivity|apply bookmarks_split|].
  apply (walks_trans ctx cur p _ _ [] _ _ _
           (walks_pushBookmarks ctx cur p _ (bookmarksIn_folder ctx T Hc))
           (walks_items ctx cur T HT Hc _)).
Qed.

Lemma walks_item it ctx cur p :
  consistent ctx it →
  walks ctx cur p (walkItem it cur p) (itemFolders it) (innerBookmarks it).
Proof.
  revert ctx cur p. induction it as [b|f inner IH] using Item_ind'; intros ctx cur p Hc.
  { apply walks_refl. }
  apply consistent_folder in Hc as [Hp Hin].
  rewrite walkItem_folder. cbn [itemFolders innerBookmarks].
  apply walks_folder; [done|]. by apply walks_list.
Qed.

(** The walk of the tree of a context. *)
Lemma walks_tree ctx cur T p :
  Forall (consistent ctx) T →
  walks ctx cur p (walkList T cur p) (flat_map itemFolders T) (flat_map itemBookmarks T).
Proof.
  intros Hc. apply walks_list; [|done].
  apply Forall_forall. intros it _ ctx' cur' p'. apply walks_item.
Qed.

Lemma itemsOf_consistent L n ctx T :
  itemsOf n L ctx = Some T → Forall (consistent ctx) T.
Proof.
  revert ctx T. induction n as [|n IH]; intros ctx T; [done|].
  intros (fs & Hfs & ->)%itemsOf_S. apply Forall_app. split.
  - apply Forall_forall. intros it (i & Hi)%list_elem_of_lookup_1.
    destruct (Forall2_lookup_r _ _ _ _ _ Hfs Hi) as (c & Hc & Tc & HTc & ->).
    apply list_elem_of_lookup_2, children_elem in Hc as [_ Hp].
    apply consistent_folder. split; [done|]. by apply IH.
  - apply Forall_fmap, Forall_forall. intros b Hb%list_elem_of_filter. cbn. tauto.
Qed.

Lemma Forall_flat_map {A B} (P : B → Prop) (f : A → list B) l :
  Forall P (flat_map f l) ↔ Forall (λ x, Forall P (f x)) l.
Proof.
  induction l as [|x l IH]; [by split; constructor|].
  cbn [flat_map]. by rewrite Forall_app, Forall_cons, IH.
Qed.

Lemma plainItem_all it :
  Forall plainFolder (itemFolders it) → Forall plainBookmark (itemBookmarks it) →
  plainItem it.
Proof.
  induction it as [b|f inner IH] using Item_ind'; cbn [itemFolders itemBookmarks].
  { intros _ Hb. by apply Forall_inv in Hb. }
  intros [Hf HF%Forall_flat_map]%Forall_cons HB%Forall_flat_map.
  apply plainItem_folder. split; [done|].
  apply Forall_forall. intros it Hit. rewrite Forall_forall in IH, HF, HB.
  apply IH; [done|by apply HF|by apply HB].
Qed.

Lemma faithfulItem_all it :
  Forall faithfulFolder (itemFolders it) → Forall faithfulBookmark (itemBookmarks it) →
  faithfulItem it.
Proof.
  induction it as [b|f inner IH] using Item_ind'; cbn [itemFolders itemBookmarks].
  { intros _ Hb. by apply Forall_inv in Hb. }
  intros [Hf HF%Forall_flat_map]%Forall_cons HB%Forall_flat_map.
  apply faithfulItem_folder. split; [done|].
  apply Forall_forall. intros it Hit. rewrite Forall_forall in IH, HF, HB.
  apply IH; [done|by apply HF|by apply HB].
Qed.

Lemma renaming_elem FP f g :
  NoDup (Folder.id <$> FP.*1) → (f, g) ∈ FP → renaming FP (Folder.id f) = Folder.id g.
Proof.
  unfold renaming. induction FP as [|[f' g'] FP IH]; intros Hnd Hin.
  - by apply elem_of_nil in Hin.
  - cbn [fmap list_fmap fst] in Hnd. apply NoDup_cons in Hnd as [Hf Hnd].
    cbn [List.find fst]. destruct (String.eqb_spec (Folder.id f') (Folder.id f)) as [E|E].
    + apply elem_of_cons in Hin as [[= -> ->]|Hin]; [done|].
      exfalso. apply Hf. rewrite E.
      apply list_elem_of_fmap. exists f. split; [done|].
      apply list_elem_of_fmap. by exists (f, g).
    + apply elem_of_cons in Hin as [[= -> ->]|Hin]; [done|]. by apply IH.
Qed.

Lemma linked_renaming FP old new :
  NoDup (Folder.id <$> FP.*1) → linked FP None None old new →
  new = renaming FP <$> old.
Proof.
  intros Hnd [[-> ->]|([f g] & Hin & -> & ->)]; [done|].
  cbn. by rewrite (renaming_elem FP f g).
Qed.

Lemma NoDup_fmap_elem {A B} (h : A → B) (l : list A) x y :
  NoDup (h <$> l) → x ∈ l → y ∈ l → h x = h y → x = y.
Proof.
  induction l as [|a l IH]; intros Hnd Hx Hy E; [by apply elem_of_nil in Hx|].
  cbn in Hnd. apply NoDup_cons in Hnd as [Ha Hnd].
  apply elem_of_cons in Hx as [->|Hx], Hy as [->|Hy]; [done| | |by apply IH].
  - destruct Ha. rewrite E. by apply list_elem_of_fmap_2.
  - destruct Ha. rewrite <- E. by apply list_elem_of_fmap_2.
Qed.

(** C1, as amended. For an exportable library (distinct folder identifiers,
    every folder descending from the root, every bookmark at the root or in
    such a folder, no empty name or title, dates and icons absent or not
    empty, texts without null character and carriage return) and an
    identifier generator that never repeats itself, [exportToHTML] ends,
    and parsing its result gives, up to the order of the two arrays, the
    folders of the library with their names and the bookmarks with their
    title, URL, date, icon and folder, under a renaming of the folder
    identifiers that keeps distinct folders distinct. *)
Theorem round_trip_up_to_renaming (r : Rand) (L : BookmarkLibrary) :
  exportable L →
  (∀ i j, r i = r j → i = j) →
  (∃ fuel, is_Some (exportToHTML fuel L)) ∧
  ∀ fuel html,
    exportToHTML fuel L = Some html →
    ∃ ρ : string → string,
      (∀ f g, f ∈ folders L → g ∈ folders L →
              ρ (Folder.id f) = ρ (Folder.id g) → f = g) ∧
      folders (parseBookmarksHTML r html) ≡ₚ renameFolder ρ <$> folders L ∧
      bookmarkContent <$> bookmarks (parseBookmarksHTML r html)
      ≡ₚ (λ b, bookmarkContent (renameBookmark ρ b)) <$> bookmarks L.
Proof.
  intros [Hids Hfs Hbs] Hr. split.
  { destruct (itemsOf_root_total L Hids) as [fuel [T HT]].
    { intros f Hf. by apply Hfs. }
    exists fuel. unfold exportToHTML. by rewrite renderItems_itemsOf, HT. }
  intros fuel html He.
  unfold exportToHTML in He. rewrite renderItems_itemsOf in He.
  destruct (itemsOf fuel L None) as [T|] eqn:HT; [|done]. injection He as <-.
  destruct (itemsOf_root L Hids fuel T) as [HF HB]; [| |done|].
  { intros f Hf. by apply Hfs. }
  { intros b Hb. by apply Hbs. }
  assert (Hall : ∀ (PF : Folder.t → Prop) (PB : Bookmark.t → Prop),
             (∀ f, f ∈ folders L → PF f) → (∀ b, b ∈ bookmarks L → PB b) →
             Forall (λ it, Forall PF (itemFolders it) ∧ Forall PB (itemBookmarks it)) T).
  { intros PF PB HPF HPB.
    assert (H1 : Forall PF (flat_map itemFolders T))
      by (rewrite HF; by apply Forall_forall).
    assert (H2 : Forall PB (flat_map itemBookmarks T))
      by (rewrite HB; by apply Forall_forall).
    apply Forall_flat_map in H1, H2. rewrite Forall_forall in H1, H2.
    apply Forall_forall. intros it Hit. split; [by apply H1|by apply H2]. }
  assert (Hplain : Forall plainItem T).
  { eapply Forall_impl; [apply (Hall plainFolder plainBookmark)|].
    - intros f Hf. by apply Hfs.
    - intros b Hb. by apply Hbs.
    - intros it [H1 H2]. by apply plainItem_all. }
  assert (Hfaith : Forall faithfulItem T).
  { eapply Forall_impl; [apply (Hall faithfulFolder faithfulBookmark)|].
    - intros f Hf. by apply Hfs.
    - intros b Hb. by apply Hbs.
    - intros it [H1 H2]. by apply faithfulItem_all. }
  rewrite parseBookmarksHTML_exported by done. cbn [folders bookmarks].
  destruct (walks_tree None None T (mkParsed [] [] r) (itemsOf_consistent L fuel None T HT))
    as (FP & BP & idx & k & Hb & Hf & _ & HFS & HBS & HFP & HBP & Hnd & _ & Hid).
  cbn [parsedBookmarks parsedFolders parsedRand app] in Hb, Hf, Hid.
  rewrite Hb, Hf. clear Hb Hf.
  assert (HndF : NoDup (Folder.id <$> FP.*1)) by (by rewrite HFS, HF).
  assert (HndG : NoDup (Folder.id <$> FP.*2)).
  { rewrite Hid. apply NoDup_fmap_2; [|done]. intros i j. apply Hr. }
  exists (renaming FP). split; [|split].
  - intros f g Hf Hg E.
    assert (∀ x, x ∈ folders L → ∃ y, (x, y) ∈ FP) as Hex.
    { intros x Hx. rewrite <- HF, <- HFS in Hx.
      apply list_elem_of_fmap in Hx as ([x' y] & -> & Hin). by exists y. }
    destruct (Hex f Hf) as [f' Hf'], (Hex g Hg) as [g' Hg'].
    rewrite (renaming_elem FP f f'), (renaming_elem FP g g') in E by done.
    rewrite <- list_fmap_compose in HndG.
    by pose proof (NoDup_fmap_elem _ FP (f, f') (g, g') HndG Hf' Hg' E) as [= -> _].
  - rewrite <- HF, <- HFS, <- list_fmap_compose.
    erewrite (list_fmap_ext snd (renameFolder (renaming FP) ∘ fst)); [done|].
    intros i [f g] Hi. apply list_elem_of_lookup_2 in Hi.
    rewrite Forall_forall in HFP. destruct (HFP _ Hi) as [Hname Hl]. cbn in *.
    apply (linked_renaming FP _ _ HndF) in Hl.
    unfold renameFolder. rewrite (renaming_elem FP f g HndF Hi), <- Hname, <- Hl.
    by destruct g.
  - rewrite <- HB, <- HBS, <- !list_fmap_compose.
    erewrite (list_fmap_ext (bookmarkContent ∘ snd)); [done|].
    intros i [b b'] Hi. apply list_elem_of_lookup_2 in Hi.
    rewrite Forall_forall in HBP. destruct (HBP _ Hi) as [(H1 & H2 & H3 & H4) Hl].
    cbn in *. apply (linked_renaming FP _ _ HndF) in Hl.
    unfold bookmarkContent, renameBookmark. cbn. by rewrite H1, H2, H3, H4, Hl.
Qed.

Lemma length_repeat_string n : String.length (repeat_string "i" n) = n.
Proof.
  induction n as [|n IH]; [done|].
  cbn [repeat_string]. rewrite string_app_cons, string_app_nil_l.
  cbn [String.length]. by rewrite IH.
Qed.

Lemma tally_inj i j : tally i = tally j → i = j.
Proof.
  unfold tally. intros H. apply (f_equal String.length) in H.
  rewrite !length_repeat_string in H. lia.
Qed.

Lemma library_example_exportable : exportable library_example.
Proof.
  assert (Hold : reachable library_example "old").
  { apply (reachable_root library_example (Folder.mk "old" "Old" None)); [left|done]. }
  split.
  - apply NoDup_singleton.
  - intros f Hf. apply list_elem_of_singleton in Hf as ->. by repeat split.
  - intros b [->|Hb]%elem_of_cons; [|apply list_elem_of_singleton in Hb as ->];
      by repeat split.
Qed.

(** The round trip at [library_example]. *)
Lemma round_trip_up_to_renaming_witness :
  (∃ fuel, is_Some (exportToHTML fuel library_example)) ∧
  ∀ fuel html,
    exportToHTML fuel library_example = Some html →
    ∃ ρ : string → string,
      (∀ f g, f ∈ folders library_example → g ∈ folders library_example →
              ρ (Folder.id f) = ρ (Folder.id g) → f = g) ∧
      folders (parseBookmarksHTML tally html) ≡ₚ renameFolder ρ <$> folders library_example ∧
      bookmarkContent <$> bookmarks (parseBookmarksHTML tally html)
      ≡ₚ (λ b, bookmarkContent (renameBookmark ρ b)) <$> bookmarks library_example.
Proof.
  apply (round_trip_up_to_renaming tally library_example).
  - exact library_example_exportable.
  - exact tally_inj.
Defined.

Lemma itemsOf_dangling fuel T :
  itemsOf fuel danglingLibrary None = Some T →
  T = [ IFolder (Folder.mk "f1" "Dev" None) [];
        IBookmark (Bookmark.mk "b1" "Kept" "http://a.example" None None None None) ].
Proof.
  destruct fuel as [|[|fuel]]; [done|done|].
  intros H. vm_compute in H. by injection H as <-.
Qed.

(** C1 as the specification states it fails: [danglingLibrary] has no two
    siblings of the same name, no empty name and no empty title, and its
    bookmark in the folder [gone], which no folder bears, is in no file
    exported from it, whatever the renaming. *)
Lemma round_trip_loses_dangling_bookmark :
  distinctSiblingNames danglingLibrary ∧ noEmptyNames danglingLibrary ∧
  ¬ ∃ (r : Rand) (fuel : nat) (html : string) (ρ : string → string),
      exportToHTML fuel danglingLibrary = Some html ∧
      bookmarkContent <$> bookmarks (parseBookmarksHTML r html)
      ≡ₚ (λ b, bookmarkContent (renameBookmark ρ b)) <$> bookmarks danglingLibrary.
Proof.
  split; [|split].
  - intros f g Hf Hg _ _. apply list_elem_of_singleton in Hf as ->.
    by apply list_elem_of_singleton in Hg as ->.
  - split.
    + intros f Hf. by apply list_elem_of_singleton in Hf as ->.
    + intros b [->|Hb]%elem_of_cons; [|apply list_elem_of_singleton in Hb as ->]; done.
  - intros (r & fuel & html & ρ & He & Hp).
    unfold exportToHTML in He. rewrite renderItems_itemsOf in He.
    destruct (itemsOf fuel danglingLibrary None) as [T|] eqn:HT; [|done].
    apply itemsOf_dangling in HT as ->. injection He as <-.
    apply Permutation_length in Hp. rewrite !length_fmap in Hp.
    rewrite parseBookmarksHTML_exported in Hp.
    + vm_compute in Hp. discriminate.
    + repeat constructor.
    + repeat constructor; done.
Qed.

(** What else a file does not keep: an empty date, a carriage return, a
    folder whose parent no folder bears, and the difference between two
    folders of the same identifier. *)
Lemma round_trip_other_losses :
  (bookmarks ∘ parseBookmarksHTML tally) <$>
    exportToHTML 1 {| bookmarks := [Bookmark.mk "b" "T" "u" (Some "") None None None];
                      folders := [] |}
  = Some [Bookmark.mk "i" "T" "u" None None None None]
  ∧ (bookmarks ∘ parseBookmarksHTML tally) <$>
      exportToHTML 1 {| bookmarks := [Bookmark.mk "b" (String "013" "T") "u" None None None None];
                        folders := [] |}
    = Some [Bookmark.mk "i" (String "010" "T") "u" None None None None]
  ∧ (folders ∘ parseBookmarksHTML tally) <$>
      exportToHTML 1 {| bookmarks := []; folders := [Folder.mk "f" "A" (Some "gone")] |}
    = Some []
  ∧ (bookmarks ∘ parseBookmarksHTML tally) <$>
      exportToHTML 2 {| bookmarks := [Bookmark.mk "b" "T" "u" None None None (Some "f")];
                        folders := [Folder.mk "f" "A" None; Folder.mk "f" "B" None] |}
    = Some [Bookmark.mk "ii" "T" "u" None None None (Some "i");
            Bookmark.mk "iiii" "T" "u" None None None (Some "iii")].
Proof. repeat split; vm_compute; reflexivity. Qed.

(** A library with a folder in a folder and the five escaped characters,
    exported and parsed. *)
Example round_trip_nested :
  parseBookmarksHTML tally <$>
    exportToHTML 3
      {| bookmarks := [ Bookmark.mk "b1" "Tom & Jerry <test>" "http://x.com/?a=1&b='2'"
                                    (Some "17") None (Some ["t"]) (Some "f2");
                        Bookmark.mk "b2" "Q" "u" None (Some "data:,") None None ];
         folders := [ Folder.mk "f2" "In" (Some "f1"); Folder.mk "f1" "Out" None ] |}
  = Some {| bookmarks := [ Bookmark.mk "i" "Q" "u" None (Some "data:,") None None;
                           Bookmark.mk "iiii" "Tom & Jerry <test>" "http://x.com/?a=1&b='2'"
                                       (Some "17") None None (Some "iii") ];
            folders := [ Folder.mk "ii" "Out" None; Folder.mk "iii" "In" (Some "ii") ] |}.
Proof. vm_compute. reflexivity. Qed.

(** ** Further properties of the codec

    *** [escapeHtml] loses nothing *)

Lemma chars_inj a b : chars a = chars b → a = b.
Proof.
  revert b. induction a as [|x a IH]; intros [|y b]; try done.
  rewrite !chars_cons. intros [= -> H]. f_equal. by apply IH.
Qed.

(** X2. [escapeHtml] loses nothing: two texts with the same escape are the
    same text, and the escape of a text is at least as long as the text. *)
Theorem escapeHtml_injective (s t : string) :
  (escapeHtml s = escapeHtml t → s = t) ∧
  String.length s ≤ String.length (escapeHtml s).
Proof.
  split.
  - intros E. apply chars_inj.
    pose proof (tokRun_escapeHtml s) as Hs. pose proof (tokRun_escapeHtml t) as Ht.
    rewrite E in Hs. rewrite Hs in Ht. by injection Ht.
  - rewrite escapeHtml_spec. induction s as [|c s IH]; [done|].
    cbn [escapeSpec String.length].
    assert (∀ a b, String.length (a +:+ b) = String.length a + String.length b) as Hlen.
    { intros a b. induction a as [|x a IHa]; [done|]. rewrite string_app_cons. cbn. by rewrite IHa. }
    rewrite Hlen. assert (1 ≤ String.length (escapeChar c)); [|lia].
    unfold escapeChar. repeat case_match; cbn; lia.
Qed.

(** *** What a parse adds to the library *)

Lemma reads_refl cur p : reads cur p p.
Proof.
  exists [], []. rewrite !app_nil_r. repeat split; try done.
  - intros b Hb. by apply elem_of_nil in Hb.
Qed.

Lemma fmap_seq_shift (r : Rand) a k :
  (λ n, r (a + n)) <$> seq 0 k = r <$> seq a k.
Proof.
  replace (seq a k) with (Nat.add a <$> seq 0 k)
    by (rewrite fmap_add_seq; f_equal; lia).
  by rewrite <- list_fmap_compose.
Qed.

Lemma reads_trans cur p p1 p2 : reads cur p p1 → reads cur p1 p2 → reads cur p p2.
Proof.
  intros (bs1 & fs1 & Hb1 & Hf1 & Hr1 & Hid1 & Hbf1 & Hff1)
         (bs2 & fs2 & Hb2 & Hf2 & Hr2 & Hid2 & Hbf2 & Hff2).
  exists (bs1 ++ bs2), (fs1 ++ fs2). rewrite !length_app.
  split; [by rewrite Hb2, Hb1, app_assoc|].
  split; [by rewrite Hf2, Hf1, app_assoc|].
  split; [intros n; rewrite Hr2, Hr1; f_equal; lia|].
  split.
  - replace (length bs1 + length bs2 + (length fs1 + length fs2))
      with ((length bs1 + length fs1) + (length bs2 + length fs2)) by lia.
    rewrite seq_app, !fmap_app, <- Hid1. cbn [Nat.add].
    rewrite <- (fmap_seq_shift (parsedRand p)).
    rewrite <- (list_fmap_ext (parsedRand p1) _ (seq 0 (length bs2 + length fs2)))
      by (intros _ n _; apply Hr1).
    rewrite <- Hid2.
    rewrite <- !app_assoc. f_equiv. rewrite !app_assoc. f_equiv.
    apply Permutation_app_comm.
  - split.
    + intros b [Hb|Hb]%elem_of_app.
      * destruct (Hbf1 b Hb) as [?|(g & Hg & ?)]; [by left|].
        right. exists g. split; [apply elem_of_app; by left|done].
      * destruct (Hbf2 b Hb) as [?|(g & Hg & ?)]; [by left|].
        right. exists g. split; [apply elem_of_app; by right|done].
    + intros i f Hi. apply lookup_app_Some in Hi as [Hi|[Hle Hi]].
      * destruct (Hff1 i f Hi) as [?|(j & g & Hj & Hg & ?)]; [by left|].
        right. exists j, g. split; [done|]. split; [|done].
        by apply lookup_app_l_Some.
      * destruct (Hff2 _ f Hi) as [?|(j & g & Hj & Hg & ?)]; [by left|].
        right. exists (length fs1 + j), g. split; [lia|]. split; [|done].
        rewrite lookup_app_r by lia. by replace (length fs1 + j - length fs1) with j by lia.
Qed.

Lemma reads_pushLink cur p link : reads cur p (pushLink cur p link).
Proof.
  unfold pushLink. cbn [randomId].
  eexists [_], []. cbn. rewrite app_nil_r. repeat split; try done.
  - intros b ->%list_elem_of_singleton. by left.
Qed.

Lemma reads_folder cur p p' name :
  reads (Some (parsedRand p 0))
        (mkParsed (parsedBookmarks p)
           (parsedFolders p ++ [Folder.mk (parsedRand p 0) name cur])
           (λ n, parsedRand p (S n))) p' →
  reads cur p p'.
Proof.
  intros (bs & fs & Hb & Hf & Hr & Hid & Hbf & Hff).
  cbn [parsedBookmarks parsedFolders parsedRand] in *.
  set (g := Folder.mk (parsedRand p 0) name cur) in *.
  exists bs, (g :: fs). cbn [length].
  split; [done|]. split; [by rewrite Hf, <- app_assoc|].
  split; [intros n; rewrite Hr; f_equal; lia|].
  split.
  - rewrite Nat.add_succ_r. cbn [seq fmap list_fmap].
    rewrite <- Permutation_middle. f_equiv.
    rewrite Hid. rewrite <- (fmap_seq_shift (parsedRand p) 1). done.
  - split.
    + intros b Hb'. right. destruct (Hbf b Hb') as [?|(g' & Hg' & ?)].
      * exists g. split; [left|done].
      * exists g'. split; [by right|done].
    + intros [|i] f Hi; cbn in Hi.
      * injection Hi as <-. by left.
      * right. destruct (Hff i f Hi) as [?|(j & g' & Hj & Hg' & ?)].
        -- exists 0, g. split; [lia|]. done.
        -- exists (S j), g'. split; [lia|]. done.
Qed.

Lemma reads_fold {A} (step : Parsed → A → Parsed) cur l :
  (∀ p x, reads cur p (step p x)) → ∀ p, reads cur p (fold_left step l p).
Proof.
  intros Hstep. induction l as [|x l IH]; intros p; [apply reads_refl|].
  cbn. eapply reads_trans; [apply Hstep|apply IH].
Qed.

(** Every call of [processNode] reads in this way. *)
Lemma reads_processNode fuel node cur p : reads cur p (processNode fuel node cur p).
Proof.
  revert node cur p. induction fuel as [|fuel IH]; intros node cur p; [apply reads_refl|].
  cbn [processNode].
  eapply reads_trans;
    [apply (reads_fold (pushLink cur)); intros; apply reads_pushLink|].
  apply (reads_fold (A := Node * Node)). intros q [dt h3]. cbn [randomId fst snd].
  apply (reads_folder cur q _ (orElse (Some (textContent h3)) "New Folder")).
  destruct (querySelector "dl" (childNodes dt)); [apply IH|apply reads_refl].
Qed.

Lemma reads_pushFlatLink p link : reads None p (pushFlatLink p link).
Proof.
  unfold pushFlatLink. cbn [randomId].
  eexists [_], []. cbn. rewrite app_nil_r. repeat split; try done.
  - intros b ->%list_elem_of_singleton. by left.
Qed.

Lemma reads_parseDocument r doc :
  ∃ p, reads None (mkParsed [] [] r) p ∧
       parseDocument r doc = {| bookmarks := parsedBookmarks p; folders := parsedFolders p |}.
Proof.
  unfold parseDocument. destruct (querySelector "dl" doc) as [rootDl|].
  - eexists. split; [apply reads_processNode|done].
  - eexists. split; [|done]. apply (reads_fold pushFlatLink). apply reads_pushFlatLink.
Qed.

(** X3. Whatever the input, the library [parseBookmarksHTML] returns holds
    no dangling reference: each folder is at the root or in a folder listed
    before it, so every folder is reachable from the root, and each
    bookmark is at the root or in a folder of the library. *)
Theorem parse_references_closed (r : Rand) (html : string) :
  let L := parseBookmarksHTML r html in
  (∀ i f, folders L !! i = Some f →
          Folder.parentId f = None ∨
          ∃ j g, j < i ∧ folders L !! j = Some g ∧ Folder.parentId f = Some (Folder.id g))
  ∧ (∀ f, f ∈ folders L → reachable L (Folder.id f))
  ∧ (∀ b, b ∈ bookmarks L → rendered L (Bookmark.folder b)).
Proof.
  cbn zeta. unfold parseBookmarksHTML.
  destruct (reads_parseDocument r (parseFromString html))
    as (p & (bs & fs & Hb & Hf & _ & _ & Hbf & Hff) & ->).
  cbn [parsedBookmarks parsedFolders app] in Hb, Hf. rewrite Hb, Hf.
  set (L := {| bookmarks := bs; folders := fs |}). cbn [folders bookmarks].
  assert (Hreach : ∀ i f, fs !! i = Some f → reachable L (Folder.id f)).
  { induction i as [i IH] using lt_wf_ind. intros f Hi.
    destruct (Hff i f Hi) as [Hp|(j & g & Hj & Hg & Hp)].
    - apply reachable_root; [by eapply list_elem_of_lookup_2|done].
    - eapply reachable_child; [by eapply list_elem_of_lookup_2|exact Hp|by eapply IH]. }
  split; [exact Hff|]. split.
  - intros f [i Hi]%list_elem_of_lookup_1. by eapply Hreach.
  - intros b Hin. destruct (Hbf b Hin) as [->|(g & [i Hi]%list_elem_of_lookup_1 & ->)]; [done|].
    cbn. by eapply Hreach.
Qed.

(** X4. The identifiers of a parsed library are the values the generator
    gave, one for each bookmark and each folder: when the generator never
    repeats itself, no two objects of the library share an identifier. *)
Theorem parse_identifiers_drawn_once (r : Rand) (html : string) :
  let L := parseBookmarksHTML r html in
  (Bookmark.id <$> bookmarks L) ++ (Folder.id <$> folders L)
    ≡ₚ r <$> seq 0 (length (bookmarks L) + length (folders L))
  ∧ ((∀ i j, r i = r j → i = j) →
     NoDup ((Bookmark.id <$> bookmarks L) ++ (Folder.id <$> folders L))).
Proof.
  cbn zeta. unfold parseBookmarksHTML.
  destruct (reads_parseDocument r (parseFromString html))
    as (p & (bs & fs & Hb & Hf & _ & Hid & _) & ->).
  cbn [parsedBookmarks parsedFolders parsedRand app] in Hb, Hf, Hid. rewrite Hb, Hf.
  cbn [folders bookmarks]. split; [exact Hid|].
  intros Hr. rewrite Hid. apply NoDup_fmap_2; [intros i j; apply Hr|apply NoDup_seq].
Qed.

(** *** The depth of the recursion of [processNode] *)

Lemma Node_ind' (P : Node → Prop) :
  (∀ tag attrs kids, Forall P kids → P (Element tag attrs kids)) →
  (∀ s, P (Text s)) → (∀ s, P (Comment s)) → (∀ s, P (DocumentType s)) →
  ∀ n, P n.
Proof.
  intros He Ht Hc Hd. fix IH 1. intros [tag attrs kids|s|s|s]; [|apply Ht|apply Hc|apply Hd].
  apply He. induction kids as [|k kids IHk]; constructor; [apply IH|apply IHk].
Qed.

Lemma list_max_elem (l : list nat) x : x ∈ l → x ≤ list_max l.
Proof.
  induction l as [|y l IH]; intros Hx; [by apply elem_of_nil in Hx|].
  rewrite list_max_cons. apply elem_of_cons in Hx as [->|Hx]; [lia|].
  specialize (IH Hx). lia.
Qed.

Lemma height_child tag attrs kids k :
  k ∈ kids → height k < height (Element tag attrs kids).
Proof.
  intros Hk. rewrite height_element. apply Nat.lt_succ_r, list_max_elem.
  apply list_elem_of_fmap. by exists k.
Qed.

Lemma height_subtree n d : d ∈ subtree n → height d ≤ height n.
Proof.
  revert d. induction n as [tag attrs kids IH|s|s|s] using Node_ind'; intros d;
    cbn [subtree]; try (by intros ->%list_elem_of_singleton).
  intros [->|Hd]%elem_of_cons; [done|].
  apply list_elem_of_In, in_flat_map in Hd as (k & Hk & Hd).
  apply list_elem_of_In in Hk, Hd.
  rewrite Forall_forall in IH. specialize (IH k Hk d Hd).
  pose proof (height_child tag attrs kids k Hk). lia.
Qed.

Lemma querySelector_height tag roots d :
  querySelector tag roots = Some d → ∃ k, k ∈ roots ∧ height d ≤ height k.
Proof.
  unfold querySelector, querySelectorAll. intros H.
  apply head_Some_elem_of in H. apply list_elem_of_In, filter_In in H as [H _].
  apply in_flat_map in H as (k & Hk & Hd). exists k.
  split; [by apply list_elem_of_In|]. by apply height_subtree, list_elem_of_In.
Qed.

Lemma scopeDtChildren_child tag node dt x :
  (dt, x) ∈ scopeDtChildren tag node → dt ∈ childNodes node.
Proof.
  unfold scopeDtChildren. intros H. apply list_elem_of_In, in_flat_map in H as (k & Hk & H).
  apply filter_In in Hk as [Hk _]. apply list_elem_of_In in H.
  apply list_elem_of_fmap in H as (y & [= <- _] & _). by apply list_elem_of_In.
Qed.

Lemma fold_left_ext_in {A B} (f g : A → B → A) l :
  (∀ a x, x ∈ l → f a x = g a x) → ∀ a, fold_left f l a = fold_left g l a.
Proof.
  induction l as [|x l IH]; intros H a; [done|]. cbn.
  rewrite (H a x) by left. apply IH. intros b y Hy. apply H. by right.
Qed.

Lemma processNode_fuel fuel fuel' node cur p :
  height node < fuel → height node < fuel' →
  processNode fuel node cur p = processNode fuel' node cur p.
Proof.
  revert fuel' node cur p. induction fuel as [|fuel IH]; intros fuel' node cur p H1 H2; [lia|].
  destruct fuel' as [|fuel']; [lia|]. cbn [processNode].
  apply fold_left_ext_in. intros q [dt h3] Hin. cbn [randomId fst snd].
  destruct (querySelector "dl" (childNodes dt)) as [d|] eqn:Hq; [|done].
  apply querySelector_height in Hq as (k & Hk & Hd).
  apply scopeDtChildren_child in Hin.
  assert (height k < height dt).
  { destruct dt as [t a kids| | |]; try by apply elem_of_nil in Hk. by apply height_child. }
  assert (height dt < height node).
  { destruct node as [t a kids| | |]; try by apply elem_of_nil in Hin. by apply height_child. }
  apply IH; lia.
Qed.

(** X5. [processNode] ends on every node: its recursion is no deeper
    than the height of the node, so every bound on the depth above that
    height gives the result [parseBookmarksHTML] uses. *)
Theorem processNode_depth_bounded (fuel : nat) (node : Node) (cur : option string)
    (p : Parsed) :
  height node < fuel →
  processNode fuel node cur p = processNode (S (height node)) node cur p.
Proof. intros H. apply processNode_fuel; lia. Qed.

(** Two folders, one in the other, and a link in the inner one: the
    recursion goes three calls deep, and two calls miss the link. *)
Lemma processNode_depth_bounded_witness :
  processNode 12 nestedLists None (mkParsed [] [] tally)
  = processNode 8 nestedLists None (mkParsed [] [] tally)
  ∧ length (parsedBookmarks (processNode 8 nestedLists None (mkParsed [] [] tally))) = 1
  ∧ length (parsedFolders (processNode 8 nestedLists None (mkParsed [] [] tally))) = 2
  ∧ length (parsedBookmarks (processNode 2 nestedLists None (mkParsed [] [] tally))) = 0.
Proof.
  split; [|by vm_compute].
  apply (processNode_depth_bounded 12 nestedLists). vm_compute. lia.
Defined.

(** *** The recursion of [exportToHTML] *)

(** The contexts on the way up to the root are distinct folders. *)
Lemma up_chain L k c :
  up L k c = Some None →
  ∃ xs : list string,
    length xs = k ∧ NoDup xs ∧
    ∀ x, x ∈ xs → x ∈ Folder.id <$> folders L ∧ ∃ i, i < k ∧ up L i c = Some (Some x).
Proof.
  revert c. induction k as [|k IH]; intros c Hup.
  { exists []. split; [done|]. split; [constructor|]. intros x Hx. by apply elem_of_nil in Hx. }
  pose proof Hup as Hup'. rewrite up_S_l in Hup.
  destruct c as [x|]; [|done]. cbn [parentOf] in Hup.
  destruct (findFolder L x) as [g|] eqn:Hg; [|done]. cbn in Hup.
  destruct (IH _ Hup) as (xs & Hlen & Hnd & Hxs).
  assert (Hstep : ∀ i, up L (S i) (Some x) = up L i (Folder.parentId g)).
  { intros i. rewrite up_S_l. cbn [parentOf]. by rewrite Hg. }
  exists (x :: xs). split; [cbn; lia|]. split.
  - apply NoDup_cons. split; [|done]. intros Hin.
    destruct (Hxs x Hin) as (_ & i & Hi & Hcyc). rewrite <- Hstep in Hcyc.
    assert (up L (S i + S k) (Some x) = Some None) as H2.
    { rewrite up_add, Hcyc. exact Hup'. }
    pose proof (root_depth_unique L _ _ _ Hup' H2). lia.
  - intros y [->|Hy]%elem_of_cons.
    + split.
      * apply findFolder_Some in Hg as [Hg <-]. by apply list_elem_of_fmap_2.
      * exists 0. split; [lia|done].
    + destruct (Hxs y Hy) as (Hin & i & Hi & Hupi). split; [done|].
      exists (S i). split; [lia|]. by rewrite Hstep.
Qed.

Lemma bounded_root L : bounded L (S (length (folders L))) None.
Proof.
  intros f k _ Hup. destruct (up_chain L k _ Hup) as (xs & <- & Hnd & Hxs).
  assert (xs ⊆+ Folder.id <$> folders L) as Hsub.
  { apply NoDup_submseteq; [done|]. intros x Hx. by apply Hxs. }
  apply submseteq_length in Hsub. rewrite length_fmap in Hsub. lia.
Qed.

Lemma itemsOf_mono L n ctx T :
  itemsOf n L ctx = Some T → ∀ m, n ≤ m → itemsOf m L ctx = Some T.
Proof.
  revert ctx T. induction n as [|n IH]; intros ctx T HT m Hm; [done|].
  destruct m as [|m]; [lia|].
  apply itemsOf_S in HT as (fs & Hfs & ->). apply itemsOf_S. exists fs. split; [|done].
  eapply Forall2_impl; [exact Hfs|]. intros c it (Tc & HTc & ->).
  exists Tc. split; [|done]. apply (IH _ _ HTc). lia.
Qed.

(** X6. The recursion of [exportToHTML] ends on every library whose folder
    identifiers are distinct, whatever the parents the folders name; and
    when it ends within some depth, a deeper call stack changes nothing. *)
Theorem export_terminates (L : BookmarkLibrary) :
  (NoDup (Folder.id <$> folders L) →
   is_Some (exportToHTML (length (folders L) + 2) L))
  ∧ (∀ fuel fuel' html, fuel ≤ fuel' →
       exportToHTML fuel L = Some html → exportToHTML fuel' L = Some html).
Proof.
  split.
  - intros Hids. unfold exportToHTML. rewrite renderItems_itemsOf.
    replace (length (folders L) + 2) with (S (S (length (folders L)))) by lia.
    destruct (itemsOf_total L Hids _ None (bounded_root L)) as [T ->]. by eexists.
  - intros fuel fuel' html Hle. unfold exportToHTML. rewrite !renderItems_itemsOf.
    destruct (itemsOf fuel L None) as [T|] eqn:HT; [|done].
    by rewrite (itemsOf_mono L fuel None T HT fuel' Hle).
Qed.

Lemma renderItems_child_None fuel L f indent :
  f ∈ folders L →
  renderItems fuel L (Some (Folder.id f)) (indent + 4) = None →
  renderItems (S fuel) L (Folder.parentId f) indent = None.
Proof.
  intros Hf Hnone. cbn [renderItems].
  assert (mapM (λ g, inner ← renderItems fuel L (Some (Folder.id g)) (indent + 4);
                     Some (folderOpen (repeat_string " " indent) g +:+ inner +:+
                           folderClose (repeat_string " " indent)))
               (filter (λ g, Folder.parentId g = Folder.parentId f) (folders L)) = None) as ->.
  { apply mapM_None, Exists_exists. exists f. split.
    - apply list_elem_of_filter. split; [reflexivity|exact Hf].
    - by rewrite Hnone. }
  done.
Qed.

(** X7. A folder that is its own parent and whose identifier is the one of
    a folder reachable from the root: [renderItems] calls itself on that
    identifier without end, and [exportToHTML] never returns. *)
Theorem export_diverges_on_self_parent (L : BookmarkLibrary) (f : Folder.t) :
  f ∈ folders L → Folder.parentId f = Some (Folder.id f) → reachable L (Folder.id f) →
  ∀ fuel, exportToHTML fuel L = None.
Proof.
  intros Hf Hself Hreach.
  assert (Hloop : ∀ fuel indent, renderItems fuel L (Some (Folder.id f)) indent = None).
  { induction fuel as [|fuel IH]; intros indent; [done|].
    pose proof (renderItems_child_None fuel L f indent Hf (IH _)) as H.
    by rewrite Hself in H. }
  assert (Hroot : ∀ x, reachable L x →
            (∀ fuel indent, renderItems fuel L (Some x) indent = None) →
            ∀ fuel indent, renderItems fuel L None indent = None).
  { induction 1 as [g Hg Hp|g p Hg Hp Hr IH]; intros Hx [|fuel] indent; try done.
    - pose proof (renderItems_child_None fuel L g indent Hg (Hx _ _)) as H.
      by rewrite Hp in H.
    - apply IH. intros [|fuel'] indent'; [done|].
      pose proof (renderItems_child_None fuel' L g indent' Hg (Hx _ _)) as H.
      by rewrite Hp in H. }
  intros fuel. unfold exportToHTML. by rewrite (Hroot _ Hreach Hloop).
Qed.

(** Two folders share the identifier [a]; the second is its own parent. *)
Lemma export_diverges_on_self_parent_witness :
  exportToHTML 100
    {| bookmarks := [];
       folders := [Folder.mk "a" "A" None; Folder.mk "a" "B" (Some "a")] |} = None.
Proof.
  apply (export_diverges_on_self_parent _ (Folder.mk "a" "B" (Some "a"))).
  - right. left.
  - reflexivity.
  - apply (reachable_root _ (Folder.mk "a" "A" None)); [left|reflexivity].
Defined.

(** *** The first exporter *)

Lemma escapeHtml_safe s : safeText s → escapeHtml s = s.
Proof.
  rewrite escapeHtml_spec. intros [Hm Ha]. induction s as [|c s IH]; [done|].
  cbn [markup occurs] in Hm, Ha. apply orb_false_elim in Ha as [Hc Ha].
  destruct (Ascii.eqb c "<" || Ascii.eqb c ">" || Ascii.eqb c "034" || Ascii.eqb c "'") eqn:E;
    [done|].
  apply orb_false_elim in E as [E E4]. apply orb_false_elim in E as [E E3].
  apply orb_false_elim in E as [E1 E2].
  cbn [escapeSpec]. unfold escapeChar. rewrite Hc, E1, E2, E3, E4.
  rewrite string_app_cons, string_app_nil_l. by rewrite IH.
Qed.

Lemma optAttr_safe attr o : safeOpt o → optAttr attr o = Original.optAttr attr o.
Proof.
  destruct o as [s|]; [|done]. intros Hs. unfold optAttr, Original.optAttr.
  by rewrite escapeHtml_safe.
Qed.

Lemma renderFolder_safe fuel L folderId indent :
  safeLibrary L →
  Original.renderFolder fuel L folderId indent = renderItems fuel L folderId indent.
Proof.
  intros [HF HB]. revert folderId indent.
  induction fuel as [|fuel IH]; intros folderId indent; [done|].
  cbn [Original.renderFolder renderItems]. cbv zeta.
  rewrite (mapM_ext_in _
             (λ f, inner ← renderItems fuel L (Some (Folder.id f)) (indent + 4);
                   Some (folderOpen (repeat_string " " indent) f +:+ inner +:+
                         folderClose (repeat_string " " indent)))).
  2:{ intros f Hf%list_elem_of_filter. destruct Hf as [_ Hf].
      rewrite IH. unfold folderOpen, folderClose. by rewrite (escapeHtml_safe _ (HF f Hf)). }
  destruct (mapM _ _) as [rendered|]; [|done]. cbn. do 3 f_equal.
  apply list_fmap_ext. intros _ b Hb%list_elem_of_lookup_2.
  apply list_elem_of_filter in Hb as [_ Hb]. destruct (HB b Hb) as (Ht & Hu & Hd & Hi).
  unfold bookmarkLine.
  by rewrite (escapeHtml_safe _ Ht), (escapeHtml_safe _ Hu),
    (optAttr_safe _ _ Hd), (optAttr_safe _ _ Hi).
Qed.

(** X8. On a library whose names, titles, URLs, dates and icons hold none
    of the characters [&], [<], [>] and the two quotes, the first exporter,
    which does not escape, and [exportToHTML] write the same file. *)
Theorem original_export_agrees_on_safe_texts (fuel : nat) (L : BookmarkLibrary) :
  safeLibrary L → Original.exportToHTML fuel L = exportToHTML fuel L.
Proof.
  intros HL. unfold Original.exportToHTML, exportToHTML.
  by rewrite renderFolder_safe.
Qed.

Lemma original_export_agrees_on_safe_texts_witness :
  Original.exportToHTML 3 library_example = exportToHTML 3 library_example.
Proof.
  apply (original_export_agrees_on_safe_texts 3 library_example).
  split.
  - intros f Hf. apply list_elem_of_singleton in Hf as ->. by split.
  - intros b [->|Hb]%elem_of_cons; [|apply list_elem_of_singleton in Hb as ->];
      by repeat split.
Defined.

(** ** Loading and pasting a file

    *** The bookmarks [processFile] keeps *)

Lemma dedupe_fold bs : ∀ seen uniq,
  (∀ u, u ∈ seen ↔ u ∈ (Bookmark.url <$> uniq)) → NoDup (Bookmark.url <$> uniq) →
  let st := fold_left dedupeStep bs (seen, uniq) in
  NoDup (Bookmark.url <$> st.2) ∧
  (∃ kept, st.2 = uniq ++ kept ∧ sublist kept bs) ∧
  (∀ b, b ∈ bs → Bookmark.url b ∈ (Bookmark.url <$> st.2)) ∧
  (∀ i b, st.2 !! i = Some b →
     (uniq !! i = Some b) ∨
     (∃ j, bs !! j = Some b ∧
           (Bookmark.url b ∉ (Bookmark.url <$> uniq)) ∧
           ∀ j' b', j' < j → bs !! j' = Some b' → Bookmark.url b' ≠ Bookmark.url b)).
Proof.
  induction bs as [|a bs IH]; intros seen uniq Hseen Hnd; cbn zeta.
  { cbn [fold_left snd]. refine (conj Hnd (conj _ (conj _ _))).
    - exists []. split; [by rewrite app_nil_r|constructor].
    - intros b Hb. by apply elem_of_nil in Hb.
    - intros i b Hi. by left. }
  cbn [fold_left].
  destruct (decide (Bookmark.url a ∈ seen)) as [Hin|Hin].
  - assert (dedupeStep (seen, uniq) a = (seen, uniq)) as ->
      by (unfold dedupeStep; cbn [fst snd]; by rewrite decide_True).
    destruct (IH seen uniq Hseen Hnd) as (H1 & (kept & Hk & Hsub) & H3 & H4).
    split; [done|]. split; [exists kept; split; [done|by apply sublist_cons]|]. split.
    + intros b [->|Hb]%elem_of_cons; [|by apply H3].
      rewrite Hk, fmap_app. apply elem_of_app. left. by apply Hseen.
    + intros i b Hi. destruct (H4 i b Hi) as [?|(j & Hj & Hnu & Hfirst)]; [by left|].
      right. exists (S j). split; [done|]. split; [done|].
      intros [|j'] b' Hlt Hb'; cbn in Hb'.
      * injection Hb' as <-. intros E. apply Hnu. rewrite <- E. by apply Hseen.
      * apply (Hfirst j' b'); [lia|done].
  - assert (dedupeStep (seen, uniq) a = ({[Bookmark.url a]} ∪ seen, uniq ++ [a])) as ->
      by (unfold dedupeStep; cbn [fst snd]; by rewrite decide_False).
    assert (Hseen' : ∀ u, u ∈ {[Bookmark.url a]} ∪ seen ↔ u ∈ Bookmark.url <$> (uniq ++ [a])).
    { intros u. rewrite fmap_app, elem_of_app, elem_of_union, elem_of_singleton, Hseen.
      cbn. rewrite list_elem_of_singleton. tauto. }
    assert (Hnd' : NoDup (Bookmark.url <$> (uniq ++ [a]))).
    { rewrite fmap_app. apply NoDup_app. split; [done|]. split.
      - intros u Hu ->%list_elem_of_singleton. apply Hin. by apply Hseen.
      - apply NoDup_singleton. }
    destruct (IH _ _ Hseen' Hnd') as (H1 & (kept & Hk & Hsub) & H3 & H4).
    split; [done|]. split.
    { exists (a :: kept). split; [by rewrite Hk, <- app_assoc|by apply sublist_skip]. }
    split.
    + intros b [->|Hb]%elem_of_cons; [|by apply H3].
      rewrite Hk, !fmap_app, !elem_of_app. left. right. by left.
    + intros i b Hi. destruct (H4 i b Hi) as [Hu|(j & Hj & Hnu & Hfirst)].
      * apply lookup_app_Some in Hu as [Hu|[Hle Hu]]; [by left|].
        right. exists 0. apply list_lookup_singleton_Some in Hu as [_ <-].
        split; [done|]. split; [by rewrite <- Hseen|]. intros; lia.
      * right. exists (S j). split; [done|].
        rewrite fmap_app, elem_of_app in Hnu.
        split; [tauto|]. intros [|j'] b' Hlt Hb'; cbn in Hb'.
        -- injection Hb' as <-. intros E. apply Hnu. right. cbn. rewrite E. by left.
        -- apply (Hfirst j' b'); [lia|done].
Qed.

(** X9. [processFile] keeps, of the bookmarks parsed, the first of each
    URL, in their order: no two kept bookmarks share a URL, every parsed
    bookmark has its URL among the kept ones, each kept bookmark is the
    first parsed one with its URL, the folders are untouched, and the
    total is the number kept plus the number of duplicates. *)
Theorem processFile_keeps_first_of_each_url (r : Rand) (content : string) :
  let parsed := parseBookmarksHTML r content in
  let out := processFile r content in
  NoDup (Bookmark.url <$> bookmarks out.1)
  ∧ sublist (bookmarks out.1) (bookmarks parsed)
  ∧ (∀ b, b ∈ bookmarks parsed → Bookmark.url b ∈ (Bookmark.url <$> bookmarks out.1))
  ∧ (∀ b, b ∈ bookmarks out.1 →
       ∃ j, bookmarks parsed !! j = Some b ∧
            ∀ j' b', j' < j → bookmarks parsed !! j' = Some b' →
                     Bookmark.url b' ≠ Bookmark.url b)
  ∧ folders out.1 = folders parsed
  ∧ total out.2 = length (bookmarks out.1) + duplicates out.2.
Proof.
  cbn zeta. unfold processFile. cbn [fst snd bookmarks folders total duplicates].
  set (bs := bookmarks (parseBookmarksHTML r content)). unfold uniqueBookmarks.
  destruct (dedupe_fold bs ∅ []) as (H1 & (kept & Hk & Hsub) & H3 & H4).
  { intros u. cbn. rewrite elem_of_empty. split; [done|]. by intros ?%elem_of_nil. }
  { constructor. }
  cbn [app] in Hk. split; [done|]. split; [by rewrite Hk|]. split; [done|].
  split; [|split; [done|]].
  - intros b [i Hi]%list_elem_of_lookup_1.
    destruct (H4 i b Hi) as [?|(j & Hj & _ & Hfirst)]; [done|]. by exists j.
  - rewrite Hk. apply sublist_length in Hsub. lia.
Qed.

(** ** The folders a proposal leaves the bookmarks in *)

Lemma forEachPart_listed rs cp path part :
  mapListed rs → parentsListed (newFolders rs) →
  (cp = None ∨ ∃ j g, newFolders rs !! j = Some g ∧ cp = Some (Folder.id g)) →
  let st := forEachPart (rs, cp, path) part in
  mapListed st.1.1 ∧ parentsListed (newFolders st.1.1) ∧
  (st.1.2 = None ∨ ∃ j g, newFolders st.1.1 !! j = Some g ∧ st.1.2 = Some (Folder.id g)).
Proof.
  intros Hm Hp Hcp. cbn zeta. unfold forEachPart.
  set (cur := if truthy path then _ else part).
  destruct (pathMap rs !! cur) as [id|] eqn:E; cbn [fst snd].
  - split; [done|]. split; [done|]. rewrite E. right.
    destruct (Hm _ _ E) as (f & [j Hj]%list_elem_of_lookup_1 & <-). by exists j, f.
  - unfold randomId. cbn [newFolders pathMap fst snd].
    set (g := Folder.mk (rand rs 0) part cp).
    split; [|split].
    + intros κ id. cbn [pathMap newFolders].
      destruct (decide (κ = cur)) as [->|Hne].
      * rewrite lookup_insert_eq. intros [= <-]. exists g. split; [|done].
        apply elem_of_app. right. by apply list_elem_of_singleton.
      * rewrite lookup_insert_ne by done. intros (f & Hf & <-)%Hm.
        exists f. split; [|done]. apply elem_of_app. by left.
    + intros i f Hi.
      destruct (decide (i < length (newFolders rs))) as [Hlt|Hge].
      * rewrite lookup_app_l in Hi by done.
        destruct (Hp i f Hi) as [?|(j & h & Hj & Hh & ?)]; [by left|].
        right. exists j, h. split; [done|]. split; [|done].
        rewrite lookup_app_l by lia. done.
      * rewrite lookup_app_r in Hi by lia.
        destruct (i - length (newFolders rs)) as [|k] eqn:Ek; [|by destruct k].
        injection Hi as <-. cbn [Folder.parentId g].
        destruct Hcp as [->|(j & h & Hh & ->)]; [by left|].
        right. exists j, h. pose proof (lookup_lt_Some _ _ _ Hh).
        split; [lia|]. split; [|done]. by rewrite lookup_app_l.
    + right. exists (length (newFolders rs)), g. rewrite lookup_insert_eq.
      split; [|done]. rewrite lookup_app_r by lia. by rewrite Nat.sub_diag.
Qed.

Lemma forEachFolder_listed rs f :
  mapListed rs → parentsListed (newFolders rs) →
  mapListed (forEachFolder rs f) ∧ parentsListed (newFolders (forEachFolder rs f)).
Proof.
  intros Hm Hp. unfold forEachFolder.
  assert (∀ parts st,
            mapListed st.1.1 → parentsListed (newFolders st.1.1) →
            (st.1.2 = None ∨
             ∃ j g, newFolders st.1.1 !! j = Some g ∧ st.1.2 = Some (Folder.id g)) →
            mapListed (fold_left forEachPart parts st).1.1 ∧
            parentsListed (newFolders (fold_left forEachPart parts st).1.1)) as Hgen.
  { induction parts as [|part parts IH]; intros [[rs0 cp] path] H1 H2 H3; [done|].
    cbn [fold_left]. cbn [fst snd] in H1, H2, H3.
    destruct (forEachPart_listed rs0 cp path part H1 H2 H3) as (K1 & K2 & K3).
    by apply IH. }
  apply Hgen; cbn [fst snd]; auto.
Qed.

Lemma resolveFolders_listed r fs :
  mapListed (resolveFolders r fs) ∧ parentsListed (newFolders (resolveFolders r fs)).
Proof.
  unfold resolveFolders.
  assert (∀ rs, mapListed rs → parentsListed (newFolders rs) →
            mapListed (fold_left forEachFolder fs rs) ∧
            parentsListed (newFolders (fold_left forEachFolder fs rs))) as Hgen.
  { induction fs as [|f fs IH]; intros rs H1 H2; [done|]. cbn [fold_left].
    destruct (forEachFolder_listed rs f H1 H2). by apply IH. }
  apply Hgen.
  - intros κ id. cbn. by rewrite lookup_empty.
  - intros i f. cbn. by rewrite lookup_nil.
Qed.

Lemma forEachAssignment_target pm bms a i b :
  bms !! i = Some b →
  ∃ fo, forEachAssignment pm bms a !! i = Some (Bookmark.with_folder b fo)
        ∧ (fo = Bookmark.folder b ∨
           ∃ id, pm !! Suggestion.folderPath a = Some id ∧ fo = Some id).
Proof.
  intros Hi. unfold forEachAssignment.
  destruct (pm !! Suggestion.folderPath a) as [fid|] eqn:Hpm;
    [|exists (Bookmark.folder b); rewrite with_folder_same; auto].
  destruct (truthy fid);
    [|exists (Bookmark.folder b); rewrite with_folder_same; auto].
  destruct (findIndex _ bms) as [j|] eqn:Hf;
    [|exists (Bookmark.folder b); rewrite with_folder_same; auto].
  destruct (findIndex_Some _ _ _ Hf) as (x & Hx & Hid). rewrite Hx.
  destruct (decide (j = i)) as [->|Hne].
  - assert (x = b) as -> by congruence.
    exists (Some fid). split; [|by eauto].
    apply list_lookup_insert_eq. by eapply lookup_lt_Some.
  - exists (Bookmark.folder b). rewrite with_folder_same. split; [|auto].
    by rewrite list_lookup_insert_ne.
Qed.

Lemma assignments_target pm asg : ∀ bms i b,
  bms !! i = Some b →
  ∃ fo, fold_left (forEachAssignment pm) asg bms !! i = Some (Bookmark.with_folder b fo)
        ∧ (fo = Bookmark.folder b ∨ ∃ κ id, pm !! κ = Some id ∧ fo = Some id).
Proof.
  induction asg as [|a asg IH]; intros bms i b Hi; simpl.
  - exists (Bookmark.folder b). rewrite with_folder_same. auto.
  - destruct (forEachAssignment_target pm bms a i b Hi) as (fo & Hfo & Hc).
    destruct (IH _ _ _ Hfo) as (fo' & Hfo' & Hc').
    exists fo'. rewrite with_folder_with_folder in Hfo'. split; [done|].
    destruct Hc' as [->|?]; [|by right].
    destruct Hc as [->|(id & ? & ->)]; [by left|]. right. eauto.
Qed.

(** X11. Whatever the proposal holds, the folders of the library that
    [applySuggestion] returns are closed under the parent link (the parent
    of each is absent or a folder listed before it), and each of its
    bookmarks is a bookmark of the library, at the same position, whose
    folder is either the one it had or the identifier of one of the
    returned folders. *)
Theorem applySuggestion_points_at_new_folders (r : Rand) (sug : Suggestion.t)
    (lib : BookmarkLibrary) :
  ∃ out, applySuggestion r (Some sug) (Some lib) = Some out
    ∧ (∀ i f, folders out !! i = Some f →
         Folder.parentId f = None ∨
         ∃ j g, j < i ∧ folders out !! j = Some g ∧ Folder.parentId f = Some (Folder.id g))
    ∧ (∀ i b', bookmarks out !! i = Some b' →
         ∃ b, bookmarks lib !! i = Some b ∧
              b' = Bookmark.with_folder b (Bookmark.folder b') ∧
              (Bookmark.folder b' = Bookmark.folder b ∨
               ∃ f, f ∈ folders out ∧ Bookmark.folder b' = Some (Folder.id f))).
Proof.
  eexists. split; [reflexivity|]. cbn [folders bookmarks].
  destruct (resolveFolders_listed r (Suggestion.folders sug)) as [Hm Hp].
  split; [exact Hp|]. intros i b' Hi.
  assert (i < length (bookmarks lib)) as Hlt.
  { apply lookup_lt_Some in Hi. by rewrite assignments_length in Hi. }
  destruct (lookup_lt_is_Some_2 _ _ Hlt) as [b Hb].
  destruct (assignments_target (pathMap (resolveFolders r (Suggestion.folders sug)))
              (Suggestion.assignments sug) _ _ _ Hb) as (fo & Hfo & Hc).
  rewrite Hfo in Hi. injection Hi as <-. exists b. split; [done|]. split; [done|].
  cbn. destruct Hc as [->|(κ & id & Hκ & ->)]; [by left|]. right.
  destruct (Hm _ _ Hκ) as (f & Hf & <-). by exists f.
Qed.

(** ** A run of actions in the application *)

(** X12. The updates of a run of actions, applied to a library one after
    the other, never add, drop or reorder a bookmark and never touch a
    folder that was there: each bookmark ends in the target of the last
    move that lists its identifier (whether or not a folder bears that
    identifier), or stays as it was when no move lists it, and the folders
    are the old ones followed by one new folder per creation. *)
Theorem handleCommand_last_move_wins (r : Rand) (lib : BookmarkLibrary)
    (actions : list Action) :
  ∃ out,
    (fold_left (λ st a, handleCommand st.2 st.1 a) actions (Some lib, r)).1 = Some out
    ∧ bookmarks out =
        (λ b, match lastTarget actions (Bookmark.id b) with
              | Some t => Bookmark.with_folder b (Some t)
              | None => b
              end) <$> bookmarks lib
    ∧ folders out = folders lib ++ createdBy r actions.
Proof.
  revert r lib. induction actions as [|a actions IH]; intros r lib.
  - exists lib. cbn. split; [done|]. split; [|by rewrite app_nil_r].
    by rewrite list_fmap_id.
  - cbn [fold_left fst snd]. destruct a as [name parentId|ids target].
    + cbn [handleCommand randomId].
      destruct (IH (λ n, r (S n))
                  {| bookmarks := bookmarks lib;
                     folders := folders lib ++ [Folder.mk (r 0) name parentId] |})
        as (out & Hout & Hb & Hf).
      exists out. split; [done|]. cbn [bookmarks folders] in Hb, Hf. split.
      * rewrite Hb. apply list_fmap_ext. intros i b _. cbn [lastTarget].
        by destruct (lastTarget actions (Bookmark.id b)).
      * rewrite Hf. cbn [createdBy]. by rewrite <- app_assoc.
    + cbn [handleCommand].
      destruct (IH r
                  {| bookmarks :=
                       map (λ b, if includes ids (Bookmark.id b)
                                 then Bookmark.with_folder b (Some target)
                                 else b) (bookmarks lib);
                     folders := folders lib |})
        as (out & Hout & Hb & Hf).
      exists out. split; [done|]. cbn [bookmarks folders] in Hb, Hf. split; [|done].
      rewrite Hb. change (map ?f ?l) with (f <$> l). rewrite <- list_fmap_compose.
      apply list_fmap_ext. intros i b _. cbn [lastTarget compose].
      destruct (includes ids (Bookmark.id b)) eqn:E.
      * change (Bookmark.id (Bookmark.with_folder b (Some target))) with (Bookmark.id b).
        by destruct (lastTarget actions (Bookmark.id b)).
      * by destruct (lastTarget actions (Bookmark.id b)).
Qed.

(** ** The check of the paste handler *)

Lemma stringIncludes_app needle a b :
  stringIncludes needle a = true → stringIncludes needle (a +:+ b) = true.
Proof.
  induction a as [|x a IH].
  - cbn [stringIncludes]. rewrite orb_false_r. intros H.
    apply (prefix_app _ _ b) in H. rewrite string_app_nil_l in *.
    destruct b; cbn [stringIncludes]; by rewrite H.
  - cbn [stringIncludes]. rewrite string_app_cons. cbn [stringIncludes].
    intros [H|H]%orb_true_iff.
    + apply (prefix_app _ _ b) in H. rewrite string_app_cons in H. by rewrite H.
    + rewrite (IH H). apply orb_true_r.
Qed.

Lemma stringIncludes_occurs (c : ascii) needle content :
  occurs c content = false → stringIncludes (String c needle) content = false.
Proof.
  induction content as [|x content IH]; [done|].
  cbn [occurs stringIncludes String.prefix]. intros [Hx Hc]%orb_false_iff.
  rewrite (IH Hc), orb_false_r.
  destruct (ascii_dec c x) as [->|]; [|done]. by rewrite Ascii.eqb_refl in Hx.
Qed.

(** X13. Every file the application exports passes the check of the paste
    handler: pasting it replaces the library by what the parser reads in
    it. A text without any [<] is ignored, and the library stays as it
    was. *)
Theorem handlePaste_accepts_exports (r : Rand) (prev : option BookmarkLibrary)
    (fuel : nat) (L : BookmarkLibrary) (html : string) :
  exportToHTML fuel L = Some html →
  handlePaste r prev html = Some (parseBookmarksHTML r html)
  ∧ ∀ text, occurs "<" text = false → handlePaste r prev text = prev.
Proof.
  intros Hexp. split.
  - unfold exportToHTML in Hexp.
    destruct (renderItems fuel L None 4) as [body|]; [|done].
    injection Hexp as <-. unfold handlePaste.
    rewrite (stringIncludes_app "<DL>" exportHeader); [done|]. by vm_compute.
  - intros text Ht. unfold handlePaste.
    by rewrite !(stringIncludes_occurs "<") by done.
Qed.

Lemma handlePaste_accepts_exports_witness :
  ∃ html, exportToHTML 3 library_example = Some html ∧
          handlePaste tally None html = Some (parseBookmarksHTML tally html).
Proof.
  destruct (exportToHTML 3 library_example) as [html|] eqn:E; [|by vm_compute in E].
  exists html. split; [done|].
  exact (proj1 (handlePaste_accepts_exports tally None 3 library_example html E)).
Defined.

(** ** The defaults of the parser *)

Lemma orElse_truthy o fallback : truthy fallback = true → truthy (orElse o fallback) = true.
Proof. intros Hf. destruct o as [s|]; [|done]. cbn. by destruct (truthy s) eqn:E. Qed.

Lemma orUndefined_not_empty o : orUndefined o ≠ Some EmptyString.
Proof. destruct o as [[|c s]|]; done. Qed.

Lemma wellRead_fold {A} (step : Parsed → A → Parsed) l :
  (∀ p x, wellRead p → wellRead (step p x)) → ∀ p, wellRead p → wellRead (fold_left step l p).
Proof.
  intros Hstep. induction l as [|x l IH]; intros p Hp; [done|].
  cbn. apply IH. by apply Hstep.
Qed.

Lemma wellRead_pushLink cur p link : wellRead p → wellRead (pushLink cur p link).
Proof.
  intros [Hb Hf]. unfold pushLink. cbn [randomId]. split; [|done].
  cbn [parsedBookmarks]. apply Forall_app. split; [done|]. apply Forall_singleton.
  split; [|done]. split; [by apply orElse_truthy|].
  split; apply orUndefined_not_empty.
Qed.

Lemma wellRead_pushFlatLink p link : wellRead p → wellRead (pushFlatLink p link).
Proof.
  intros [Hb Hf]. unfold pushFlatLink. cbn [randomId]. split; [|done].
  cbn [parsedBookmarks]. apply Forall_app. split; [done|]. apply Forall_singleton.
  split; [|done]. split; [by apply orElse_truthy|]. done.
Qed.

Lemma wellRead_processNode fuel : ∀ node cur p,
  wellRead p → wellRead (processNode fuel node cur p).
Proof.
  induction fuel as [|fuel IH]; intros node cur p Hp; [done|].
  cbn [processNode].
  apply (wellRead_fold (A := Node * Node)).
  - intros q [dt h3] [Hb Hf]. cbn [randomId fst snd].
    assert (wellRead
              (mkParsed (parsedBookmarks q)
                 (parsedFolders q ++
                    [Folder.mk (parsedRand q 0)
                       (orElse (Some (textContent h3)) "New Folder") cur])
                 (λ n, parsedRand q (S n)))) as Hq.
    { split; [done|]. cbn [parsedFolders]. apply Forall_app. split; [done|].
      apply Forall_singleton. by apply orElse_truthy. }
    destruct (querySelector "dl" (childNodes dt)); [by apply IH|done].
  - apply wellRead_fold; [|done]. intros. by apply wellRead_pushLink.
Qed.

(** X15. Whatever the input, no bookmark of a parsed library has an empty
    title, an empty date or an empty icon (a date and an icon that the
    file leaves empty are absent), none has tags, and no folder has an
    empty name: the texts that the exporter tests before it writes them
    are never present and empty. *)
Theorem parse_fills_no_empty_text (r : Rand) (html : string) :
  let L := parseBookmarksHTML r html in
  (∀ b, b ∈ bookmarks L →
        truthy (Bookmark.title b) = true ∧
        Bookmark.addDate b ≠ Some EmptyString ∧
        Bookmark.icon b ≠ Some EmptyString ∧
        Bookmark.tags b = None)
  ∧ (∀ f, f ∈ folders L → truthy (Folder.name f) = true).
Proof.
  cbn zeta. unfold parseBookmarksHTML, parseDocument.
  set (p := match querySelector "dl" (parseFromString html) with
            | Some rootDl => _
            | None => _
            end).
  assert (wellRead p) as [Hb Hf].
  { subst p. destruct (querySelector "dl" (parseFromString html)).
    - apply wellRead_processNode. by split.
    - apply wellRead_fold; [|by split]. intros. by apply wellRead_pushFlatLink. }
  cbn [bookmarks folders]. split.
  - intros b Hin. destruct (proj1 (Forall_forall _ _) Hb b Hin) as [(? & ? & ?) ?]. done.
  - intros f Hin. exact (proj1 (Forall_forall _ _) Hf f Hin).
Qed.

(** ** Reading an exported line back *)

(** X16. The HTML tokenizer undoes [escapeHtml]: an escaped text without a
    carriage return is read back as its own characters, and the line the
    exporter writes for a bookmark is read back as one [dt] tag, one [a]
    tag that carries the URL, the date and the icon as they were, the
    characters of the title and the end tag, whatever markup characters
    these texts hold. *)
Theorem exported_line_reads_back (indent : nat) (b : Bookmark.t) :
  plainBookmark b →
  tokenize (bookmarkLine (repeat_string " " indent) b)
  = chars (repeat_string " " indent) ++
    [TStartTag "dt" [] false; TStartTag "a" (linkAttrs b) false] ++
    chars (Bookmark.title b) ++ [TEndTag "a"] ++ chars newline ++ [TEOF]
  ∧ ∀ s, occurs "013" s = false → tokenize (escapeHtml s) = chars s ++ [TEOF].
Proof.
  intros Hb. split.
  - unfold tokenize.
    change (bookmarkLine (repeat_string " " indent) b) with (renderItem indent (IBookmark b)).
    rewrite normalizeNewlines_id by (by apply occurs_cr_item).
    pose proof (tokensFrom_tokRun _ _ "" _ _ (tokenizes_bookmark indent b Hb)) as H.
    rewrite string_app_nil_r in H. rewrite H. cbn [itemTokens tokensFrom tokFlush app].
    rewrite <- app_assoc. f_equal. cbn [app]. do 2 f_equal.
    rewrite <- app_assoc. f_equal.
  - intros s Hs. unfold tokenize.
    rewrite normalizeNewlines_id by (by rewrite occurs_cr_escapeHtml).
    pose proof (tokensFrom_tokRun _ _ "" _ _ (tokRun_escapeHtml s)) as H.
    rewrite string_app_nil_r in H. by rewrite H.
Qed.

Lemma exported_line_reads_back_witness :
  tokenize (bookmarkLine (repeat_string " " 4)
              (Bookmark.mk "b1" "Tom & Jerry <test>" "http://x.com/?a=1&b=2"
                 (Some "17") None None None))
  = chars "    " ++
    [TStartTag "dt" [] false;
     TStartTag "a" [("href", "http://x.com/?a=1&b=2"); ("add_date", "17")] false] ++
    chars "Tom & Jerry <test>" ++ [TEndTag "a"] ++ chars newline ++ [TEOF].
Proof.
  apply (exported_line_reads_back 4
           (Bookmark.mk "b1" "Tom & Jerry <test>" "http://x.com/?a=1&b=2"
              (Some "17") None None None)).
  by vm_compute.
Defined.

(** ** The flat parser on an exported file *)

Lemma exportedDocument_shape items :
  ∃ d c hd,
    exportedDocument items
    = [DocumentType d; Comment c;
       Element "html" []
         [hd; Element "body" []
                [Element "h1" [] [Text "Bookmarks"]; Text newline;
                 listNode 4 "" items; Element "p" [] []]]]
    ∧ List.filter (isElement "a") (subtree hd) = [].
Proof.
  exists (match exportedDocument [] with DocumentType d :: _ => d | _ => EmptyString end),
         (match exportedDocument [] with _ :: Comment c :: _ => c | _ => EmptyString end),
         (match exportedDocument [] with
          | _ :: _ :: Element _ _ (hd :: _) :: _ => hd
          | _ => Text EmptyString
          end).
  split; vm_compute; reflexivity.
Qed.

Lemma querySelectorAll_exported items :
  querySelectorAll "a" (exportedDocument items)
  = List.filter (isElement "a") (subtree (listNode 4 "" items)).
Proof.
  destruct (exportedDocument_shape items) as (d & c & hd & -> & Hhd).
  unfold querySelectorAll. cbn [flat_map subtree app List.filter isElement].
  change (String.eqb "html" "a") with false. change (String.eqb "body" "a") with false.
  change (String.eqb "h1" "a") with false. change (String.eqb "p" "a") with false.
  cbn [app]. rewrite !List.filter_app, Hhd. cbn [List.filter isElement app].
  change (String.eqb "body" "a") with false. change (String.eqb "h1" "a") with false.
  rewrite !List.filter_app. cbn [List.filter isElement app].
  change (String.eqb "p" "a") with false. by rewrite !app_nil_r.
Qed.

(** The links of an open item do not depend on the white space that
    closes it. *)
Lemma closedItem_links o t :
  List.filter (isElement "a") (subtree (closedItem o t))
  = List.filter (isElement "a") (subtree (closedItem o EmptyString)).
Proof.
  destruct o as [|dtKids|a]; [done| |].
  - cbn [closedItem subtree List.filter isElement rev].
    change (String.eqb "dt" "a") with false.
    by rewrite !flat_map_app, !List.filter_app.
  - cbn [closedItem subtree List.filter isElement flat_map].
    change (String.eqb "dt" "a") with false.
    by rewrite !List.filter_app.
Qed.

Lemma trail_links indent space items : ∀ o t,
  Forall (λ it, ∀ indent t,
            List.filter (isElement "a") (subtree (closedItem (openOf indent it) t))
            = linkNode <$> itemBookmarks it) items →
  List.filter (isElement "a") (flat_map subtree (trailFrom indent space o t items))
  = List.filter (isElement "a") (subtree (closedItem o EmptyString))
    ++ (linkNode <$> flat_map itemBookmarks items).
Proof.
  induction items as [|it items IH]; intros o t Hall.
  - cbn [trailFrom flat_map]. rewrite !app_nil_r. apply closedItem_links.
  - apply Forall_cons in Hall as [Hit Hall].
    cbn [trailFrom flat_map]. rewrite List.filter_app, closedItem_links.
    rewrite (IH _ _ Hall), (Hit indent EmptyString).
    by rewrite fmap_app.
Qed.

Lemma listNode_all_links indent space items :
  Forall (λ it, ∀ indent t,
            List.filter (isElement "a") (subtree (closedItem (openOf indent it) t))
            = linkNode <$> itemBookmarks it) items →
  List.filter (isElement "a") (subtree (listNode indent space items))
  = linkNode <$> flat_map itemBookmarks items.
Proof.
  intros Hall. rewrite listNode_trail. cbn [subtree List.filter isElement].
  change (String.eqb "dl" "a") with false.
  by rewrite (trail_links _ _ _ _ _ Hall).
Qed.

Lemma item_links it : ∀ indent t,
  List.filter (isElement "a") (subtree (closedItem (openOf indent it) t))
  = linkNode <$> itemBookmarks it.
Proof.
  induction it as [b|f inner IH] using Item_ind'; intros indent t.
  - cbn [openOf closedItem itemBookmarks]. change (linkNode <$> [b]) with [linkNode b].
    unfold linkNode, textKids. by destruct (Bookmark.title b).
  - rewrite openOf_folder. cbn [closedItem rev app subtree flat_map itemBookmarks].
    cbn [List.filter isElement]. change (String.eqb "dt" "a") with false. cbn iota.
    rewrite List.filter_app. cbn [List.filter isElement].
    rewrite List.filter_app, (listNode_all_links _ _ _ IH).
    cbn [List.filter isElement]. change (String.eqb "p" "a") with false. cbn iota.
    rewrite app_nil_r.
    unfold headingNode, textKids. by destruct (Folder.name f).
Qed.

Lemma flat_pushLink_linkNode p b :
  faithfulBookmark b → Flat.pushLink p (linkNode b) = pushBookmark None p b.
Proof. intros Hb. by rewrite <- (pushLink_linkNode None p b Hb). Qed.

Lemma pushBookmark_fold cur bs : ∀ p,
  parsedFolders (fold_left (pushBookmark cur) bs p) = parsedFolders p ∧
  parsedBookmarks (fold_left (pushBookmark cur) bs p)
  = parsedBookmarks p ++
    imap (λ i b, Bookmark.mk (parsedRand p i) (Bookmark.title b) (Bookmark.url b)
                   (Bookmark.addDate b) (Bookmark.icon b) None cur) bs.
Proof.
  induction bs as [|b bs IH]; intros p.
  - cbn. by rewrite app_nil_r.
  - cbn [fold_left]. destruct (IH (pushBookmark cur p b)) as [Hf Hb].
    rewrite Hf, Hb. unfold pushBookmark. cbn [randomId parsedFolders parsedBookmarks parsedRand].
    split; [done|]. by rewrite <- app_assoc.
Qed.

(** X17. The flat parser reads an exported file back without its
    hierarchy: for a library a file represents exactly, it returns no
    folder and, at the root, one bookmark for each bookmark of the
    library, with the same title, URL, date and icon, the identifiers
    being the values of the generator in the order drawn. *)
Theorem flat_parser_reads_exports_without_folders (r : Rand) (L : BookmarkLibrary)
    (fuel : nat) (html : string) :
  exportable L →
  exportToHTML fuel L = Some html →
  let P := Flat.parseBookmarksHTML r html in
  folders P = []
  ∧ (∀ b, b ∈ bookmarks P → Bookmark.folder b = None ∧ Bookmark.tags b = None)
  ∧ fileContent <$> bookmarks P ≡ₚ fileContent <$> bookmarks L
  ∧ Bookmark.id <$> bookmarks P = r <$> seq 0 (length (bookmarks L)).
Proof.
  intros [Hids Hfs Hbs] He. cbn zeta.
  unfold exportToHTML in He. rewrite renderItems_itemsOf in He.
  destruct (itemsOf fuel L None) as [T|] eqn:HT; [|done]. injection He as <-.
  destruct (itemsOf_root L Hids fuel T) as [HF HB]; [| |done|].
  { intros f Hf. by apply Hfs. }
  { intros b Hb. by apply Hbs. }
  assert (Hplain : Forall plainItem T).
  { apply Forall_forall. intros it Hit. apply plainItem_all; apply Forall_forall.
    - intros f Hf. apply Hfs. rewrite <- HF. apply list_elem_of_In, in_flat_map.
      exists it. split; by apply list_elem_of_In.
    - intros b Hb. apply Hbs. rewrite <- HB. apply list_elem_of_In, in_flat_map.
      exists it. split; by apply list_elem_of_In. }
  assert (Hfaith : Forall faithfulBookmark (flat_map itemBookmarks T)).
  { rewrite HB. apply Forall_forall. intros b Hb. by apply Hbs. }
  unfold Flat.parseBookmarksHTML.
  rewrite parseFromString_exported, querySelectorAll_exported by done.
  rewrite listNode_all_links by (apply Forall_forall; intros; apply item_links).
  assert (∀ bs p, Forall faithfulBookmark bs →
            fold_left Flat.pushLink (linkNode <$> bs) p
            = fold_left (pushBookmark None) bs p) as Hfold.
  { induction bs as [|b bs IH]; intros p Hall; [done|].
    apply Forall_cons in Hall as [Hb Hall]. cbn [fmap list_fmap fold_left].
    rewrite flat_pushLink_linkNode by done. by apply IH. }
  rewrite (Hfold _ _ Hfaith).
  destruct (pushBookmark_fold None (flat_map itemBookmarks T) (mkParsed [] [] r))
    as [Hf Hb].
  cbn [bookmarks folders]. rewrite Hf, Hb. cbn [parsedBookmarks parsedFolders parsedRand app].
  split; [done|]. split; [|split].
  - intros b [i Hi]%list_elem_of_lookup_1.
    by apply list_lookup_imap_Some in Hi as (x & _ & ->).
  - rewrite <- HB.
    match goal with |- ?a ≡ₚ ?b => assert (a = b) as ->; [|done] end.
    apply list_eq. intros i. rewrite !list_lookup_fmap, list_lookup_imap.
    by destruct (flat_map itemBookmarks T !! i).
  - rewrite <- HB. apply list_eq. intros i.
    rewrite !list_lookup_fmap, list_lookup_imap.
    destruct (flat_map itemBookmarks T !! i) as [b|] eqn:E; cbn.
    + apply lookup_lt_Some in E. by rewrite lookup_seq_lt.
    + apply lookup_ge_None in E. by rewrite lookup_seq_ge.
Qed.

Lemma flat_parser_reads_exports_without_folders_witness :
  ∃ html, exportToHTML 3 library_example = Some html ∧
          folders (Flat.parseBookmarksHTML tally html) = [].
Proof.
  destruct (exportToHTML 3 library_example) as [html|] eqn:E; [|by vm_compute in E].
  exists html. split; [done|].
  exact (proj1 (flat_parser_reads_exports_without_folders tally library_example 3 html
                  library_example_exportable E)).
Defined.
